(** * DlcOracle: a shallow embedding of [src/lib/index.ts]

    The oracle library signs 32-byte messages with a Schnorr variant over
    secp256k1.  The TypeScript source is a thin layer over three libraries:
    [bn.js] (arbitrary-precision integers), [elliptic] (short Weierstrass
    curves) and Node's [crypto]/[Buffer].  The embedding below models

    - a [BN] as a [Z], with the truncating [mod] of bn.js written [Z.rem];
    - a [Buffer] as a [list byte], a JavaScript string as a [list ascii];
    - a thrown exception as the [Throw] branch of a result type;
    - a curve point as [Inf] or an affine pair of reduced coordinates, with
      the affine [add] and [dbl] of elliptic's short curves;
    - SHA-256 as an executable function on byte lists. *)

From Stdlib Require Import ZArith List Bool Lia Znumtheory Zpow_facts.
From Stdlib.Strings Require Import Ascii Byte.
From Stdlib.Strings Require String.
Import String.StringSyntax.
Delimit Scope string_scope with string.
From Stdlib Require Import Zmod.
From Bignums Require BigZ.BigZ.
From Stdlib Require Import Zmod ZmodNsatz NsatzTactic Integral_domain.
Import ListNotations.
Local Open Scope Z_scope.

(** ** Exceptions and results *)

(** The exceptions the program can raise.  None is raised by [index.ts]
    itself: every one of them comes out of a library call. *)
Inductive exn : Set :=
| TypeError                  (* reading [.fromRed] of a null coordinate *)
| RangeError                 (* [new Array(len)] with a negative [len] *)
| Error_invalid_point        (* elliptic: 'invalid point' *)
| Error_unknown_point_format (* elliptic: 'Unknown point format' *)
| Error_assertion_failed     (* elliptic's [assert]: 'Assertion failed' *).

Inductive result (A : Type) : Type :=
| Ok (a : A)
| Throw (e : exn).
Arguments Ok {A} a.
Arguments Throw {A} e.

Definition bind {A B} (r : result A) (f : A -> result B) : result B :=
  match r with
  | Ok a => f a
  | Throw e => Throw e
  end.

Notation "'let*' x ':=' r 'in' k" := (bind r (fun x => k))
  (at level 10, x name, r at level 100, k at level 200).

(** ** JavaScript strings, buffers and hexadecimal text *)

Definition jsstring := list ascii.
Definition Buffer := list byte.

Definition byte_to_Z (b : byte) : Z := Z.of_N (Byte.to_N b).

Definition byte_of_Z (z : Z) : byte :=
  match Byte.of_N (Z.to_N (z mod 256)) with
  | Some b => b
  | None => x00
  end.

(** The character of a hexadecimal digit, lower case as JavaScript prints. *)
Definition hexchar (d : Z) : ascii :=
  ascii_of_N (Z.to_N (if d <? 10 then 48 + d else 87 + d)).

(** The value of a hexadecimal character, either case. *)
Definition hexval (c : ascii) : option Z :=
  let k := Z.of_N (N_of_ascii c) in
  if (48 <=? k) && (k <=? 57) then Some (k - 48)
  else if (97 <=? k) && (k <=? 102) then Some (k - 87)
  else if (65 <=? k) && (k <=? 70) then Some (k - 55)
  else None.

(** The [k] low hexadecimal digits of [v], most significant first. *)
Fixpoint hexdigits (k : nat) (v : Z) : jsstring :=
  match k with
  | O => []
  | S k' => hexdigits k' (v / 16) ++ [hexchar (v mod 16)]
  end.

(** Number of hexadecimal digits of a non-negative integer, 1 for zero. *)
Definition hexlen (v : Z) : nat :=
  if v <=? 0 then 1%nat else Z.to_nat (Z.log2 v / 4 + 1).

(** [v.toString(16)], for a [BN] and for an integral [number] alike. *)
Definition toString16 (v : Z) : jsstring :=
  if v <? 0 then "-"%char :: hexdigits (hexlen (- v)) (- v)
  else hexdigits (hexlen v) v.

(** [new BN(s, 16)] on a string of hexadecimal digits, with an optional
    leading minus sign. *)
Definition parse_hex (s : jsstring) : Z :=
  fold_left (fun acc c => 16 * acc + match hexval c with Some d => d | None => 0 end) s 0.

Definition BN_of_hex (s : jsstring) : Z :=
  match s with
  | "-"%char :: r => - parse_hex r
  | _ => parse_hex s
  end.

(** [Buffer.from(s, 'hex')]: two characters make a byte; decoding stops at
    the first pair that is not hexadecimal, and a trailing single character
    is dropped. *)
Fixpoint Buffer_from_hex (s : jsstring) : Buffer :=
  match s with
  | c1 :: c2 :: r =>
      match hexval c1, hexval c2 with
      | Some h, Some l => byte_of_Z (16 * h + l) :: Buffer_from_hex r
      | _, _ => []
      end
  | _ => []
  end.

(** [buf.toString('hex')]. *)
Definition Buffer_toString_hex (b : Buffer) : jsstring :=
  flat_map (fun x => [hexchar (byte_to_Z x / 16); hexchar (byte_to_Z x mod 16)]) b.

(** [new Array(len).join(sep)]: [len - 1] separators between [len] empty
    slots; a negative length raises a RangeError. *)
Definition Array_join (len : Z) (sep : ascii) : result jsstring :=
  if len <? 0 then Throw RangeError
  else Ok (repeat sep (Z.to_nat (len - 1))).

(** Big-endian value of a byte list, and the big-endian bytes of a value. *)
Definition be_to_Z (b : Buffer) : Z :=
  fold_left (fun acc x => 256 * acc + byte_to_Z x) b 0.

Fixpoint be_bytes (k : nat) (v : Z) : Buffer :=
  match k with
  | O => []
  | S k' => be_bytes k' (v / 256) ++ [byte_of_Z (v mod 256)]
  end.

(** ** SHA-256 ([createHash('sha256')]) *)

Module SHA256.

Definition w32 (x : Z) : Z := x mod 4294967296.
Definition add32 (x y : Z) : Z := w32 (x + y).
Definition rotr (k x : Z) : Z := w32 (Z.lor (Z.shiftr x k) (Z.shiftl x (32 - k))).
Definition shr (k x : Z) : Z := Z.shiftr x k.
Definition not32 (x : Z) : Z := Z.lxor x 4294967295.

Definition Ch (x y z : Z) : Z := Z.lxor (Z.land x y) (Z.land (not32 x) z).
Definition Maj (x y z : Z) : Z :=
  Z.lxor (Z.lxor (Z.land x y) (Z.land x z)) (Z.land y z).
Definition Sigma0 (x : Z) : Z := Z.lxor (Z.lxor (rotr 2 x) (rotr 13 x)) (rotr 22 x).
Definition Sigma1 (x : Z) : Z := Z.lxor (Z.lxor (rotr 6 x) (rotr 11 x)) (rotr 25 x).
Definition sigma0 (x : Z) : Z := Z.lxor (Z.lxor (rotr 7 x) (rotr 18 x)) (shr 3 x).
Definition sigma1 (x : Z) : Z := Z.lxor (Z.lxor (rotr 17 x) (rotr 19 x)) (shr 10 x).

(** The round constants and the initial hash value, in decimal. *)
Definition K : list Z :=
  [ 1116352408; 1899447441; 3049323471; 3921009573; 961987163; 1508970993;
    2453635748; 2870763221; 3624381080; 310598401; 607225278; 1426881987;
    1925078388; 2162078206; 2614888103; 3248222580; 3835390401; 4022224774;
    264347078; 604807628; 770255983; 1249150122; 1555081692; 1996064986;
    2554220882; 2821834349; 2952996808; 3210313671; 3336571891; 3584528711;
    113926993; 338241895; 666307205; 773529912; 1294757372; 1396182291;
    1695183700; 1986661051; 2177026350; 2456956037; 2730485921; 2820302411;
    3259730800; 3345764771; 3516065817; 3600352804; 4094571909; 275423344;
    430227734; 506948616; 659060556; 883997877; 958139571; 1322822218;
    1537002063; 1747873779; 1955562222; 2024104815; 2227730452; 2361852424;
    2428436474; 2756734187; 3204031479; 3329325298 ].

Definition H0 : list Z :=
  [ 1779033703; 3144134277; 1013904242; 2773480762;
    1359893119; 2600822924; 528734635; 1541459225 ].

(** Message padding: a one bit, zeros up to 56 mod 64, the bit length on
    eight bytes. *)
Definition pad (msg : list Z) : list Z :=
  let l := Z.of_nat (length msg) in
  let z := (55 - l) mod 64 in
  msg ++ [128] ++ repeat 0 (Z.to_nat z)
      ++ map (fun i => (8 * l / 2 ^ (8 * i)) mod 256) [7; 6; 5; 4; 3; 2; 1; 0].

Fixpoint words (fuel : nat) (bs : list Z) : list Z :=
  match fuel, bs with
  | S f, a :: b :: c :: d :: r =>
      (((a * 256 + b) * 256 + c) * 256 + d) :: words f r
  | _, _ => []
  end.

(** The message schedule, most recent word first: [extend] adds the words
    16 to 63 to the (reversed) sixteen words of the block. *)
Fixpoint extend (k : nat) (w : list Z) : list Z :=
  match k with
  | O => w
  | S k' =>
      let x := add32 (add32 (sigma1 (nth 1 w 0)) (nth 6 w 0))
                     (add32 (sigma0 (nth 14 w 0)) (nth 15 w 0)) in
      extend k' (x :: w)
  end.

Definition round (s : list Z) (kw : Z * Z) : list Z :=
  match s with
  | [a; b; c; d; e; f; g; h] =>
      let t1 := add32 (add32 (add32 h (Sigma1 e)) (add32 (Ch e f g) (fst kw))) (snd kw) in
      let t2 := add32 (Sigma0 a) (Maj a b c) in
      [add32 t1 t2; a; b; c; add32 d t1; e; f; g]
  | _ => s
  end.

Definition compress (h : list Z) (block : list Z) : list Z :=
  let w := rev (extend 48 (rev (words 16 block))) in
  let s := fold_left round (combine K w) h in
  map (fun xy => add32 (fst xy) (snd xy)) (combine h s).

Fixpoint blocks (fuel : nat) (h : list Z) (bs : list Z) : list Z :=
  match fuel with
  | O => h
  | S f =>
      match bs with
      | [] => h
      | _ => blocks f (compress h (firstn 64 bs)) (skipn 64 bs)
      end
  end.

Definition word_bytes (x : Z) : list Z :=
  [x / 16777216 mod 256; x / 65536 mod 256; x / 256 mod 256; x mod 256].

Definition digest_bytes (msg : list Z) : list Z :=
  let padded := pad msg in
  flat_map word_bytes (blocks (length padded) H0 padded).

End SHA256.

(** [createHash('sha256')] fed the chunks of [data] in order, then
    [digest()]. *)
Definition sha256 (data : Buffer) : Buffer :=
  map byte_of_Z (SHA256.digest_bytes (map byte_to_Z data)).

(** [hash.digest('hex')]. *)
Definition sha256_hex (data : Buffer) : jsstring :=
  Buffer_toString_hex (sha256 data).

Definition ascii_bytes (s : jsstring) : Buffer :=
  map (fun c => byte_of_Z (Z.of_N (N_of_ascii c))) s.

Definition str (s : String.string) : jsstring := String.list_ascii_of_string s.
Arguments str s%_string.




(** ** bn.js *)

Module BN.

(** [a.mod(b)] of bn.js is the truncating remainder: it carries the sign of
    the dividend, and [isNeg] is false of zero (bn.js has no negative
    zero). *)
Definition mod_ (a b : Z) : Z := Z.rem a b.
Definition umod (a b : Z) : Z := a mod b.
Definition isNeg (a : Z) : bool := a <? 0.
Definition isOdd (a : Z) : bool := Z.odd a.
Definition isEven (a : Z) : bool := Z.even a.

(** [a.byteLength()]. *)
Definition byteLength (a : Z) : nat :=
  if a <=? 0 then 0%nat else Z.to_nat ((Z.log2 a + 8) / 8).

(** [new BN(buf, 16)] on a Buffer: the big-endian value of its bytes. *)
Definition of_Buffer (b : Buffer) : Z := be_to_Z b.

(** [a.toArray('be', len)] for [a] of at most [len] bytes. *)
Definition toArray (a : Z) (len : nat) : Buffer := be_bytes len a.

End BN.

(** ** elliptic: short Weierstrass curves *)

(** The domain parameters held by [ec.curve] and [ec.g]. *)
Record EC : Set := mkEC {
  curve_p : Z;   (* field prime *)
  curve_a : Z;
  curve_b : Z;
  curve_n : Z;   (* order of the generator *)
  curve_gx : Z;
  curve_gy : Z
}.

(** [new EC('secp256k1')]. *)
Definition secp256k1 : EC := {|
  curve_p := 0xfffffffffffffffffffffffffffffffffffffffffffffffffffffffefffffc2f;
  curve_a := 0;
  curve_b := 7;
  curve_n := 0xfffffffffffffffffffffffffffffffebaaedce6af48a03bbfd25e8cd0364141;
  curve_gx := 0x79be667ef9dcbbac55a06295ce870b07029bfcdb2dce28d959f2815b16f81798;
  curve_gy := 0x483ada7726a3c4655da4fbfc0e1108a8fd17b448a68554199c47d08ffb10d4b8
|}.

(** A point: the point at infinity (both coordinates [null]) or an affine
    pair of coordinates reduced modulo [p]. *)
Inductive point : Set :=
| Inf
| Aff (x y : Z).

Definition point_eqb (P Q : point) : bool :=
  match P, Q with
  | Inf, Inf => true
  | Aff x1 y1, Aff x2 y2 => (x1 =? x2) && (y1 =? y2)
  | _, _ => false
  end.

Section Curve.

Variable ec : EC.

Let p := curve_p ec.

(** Arithmetic of the reduction context [red]. *)
Definition redAdd (x y : Z) : Z := (x + y) mod p.
Definition redSub (x y : Z) : Z := (x - y) mod p.
Definition redMul (x y : Z) : Z := (x * y) mod p.
Definition redSqr (x : Z) : Z := (x * x) mod p.
Definition redNeg (x : Z) : Z := (- x) mod p.
Definition redInvm (x : Z) : Z := Z.invmod x p.
Definition redPow (x e : Z) : Z := Zpow_mod x e p.

(** [redSqrt], on its fast path: the modulus is 3 modulo 4, as the prime
    of secp256k1 is. *)
Definition redSqrt (x : Z) : Z :=
  if x =? 0 then 0 else redPow x ((p + 1) / 4).

(** [curve.point(x, y)]: coordinates are brought into the reduction
    context, nothing is checked. *)
Definition mkpoint (x y : Z) : point := Aff (x mod p) (y mod p).

Definition G : point := mkpoint (curve_gx ec) (curve_gy ec).

(** [P.getX()] and [P.getY()] read [this.x.fromRed()]: on the point at
    infinity [this.x] is [null] and the call raises a TypeError. *)
Definition getX (P : point) : result Z :=
  match P with
  | Inf => Throw TypeError
  | Aff x _ => Ok x
  end.

Definition getY (P : point) : result Z :=
  match P with
  | Inf => Throw TypeError
  | Aff _ y => Ok y
  end.

Definition neg (P : point) : point :=
  match P with
  | Inf => Inf
  | Aff x y => Aff x (redNeg y)
  end.

(** [P.dbl()]. *)
Definition dbl (P : point) : point :=
  match P with
  | Inf => Inf
  | Aff x y =>
      let ys1 := redAdd y y in
      if ys1 =? 0 then Inf
      else
        let x2 := redSqr x in
        let dyinv := redInvm ys1 in
        let c := redMul (redAdd (redAdd (redAdd x2 x2) x2) (curve_a ec mod p)) dyinv in
        let nx := redSub (redSqr c) (redAdd x x) in
        let ny := redSub (redMul c (redSub x nx)) y in
        Aff nx ny
  end.

(** [P.add(Q)]. *)
Definition add (P Q : point) : point :=
  match P, Q with
  | Inf, _ => Q
  | _, Inf => P
  | Aff x1 y1, Aff x2 y2 =>
      if point_eqb P Q then dbl P
      else if point_eqb (neg P) Q then Inf
      else if x1 =? x2 then Inf
      else
        let c := redSub y1 y2 in
        let c := if c =? 0 then c else redMul c (redInvm (redSub x1 x2)) in
        let nx := redSub (redSub (redSqr c) x1) x2 in
        let ny := redSub (redMul c (redSub x1 nx)) y1 in
        Aff nx ny
  end.

(** [P.mul(k)] is the scalar multiple of [P]; elliptic computes it with
    windowed non-adjacent forms and, on secp256k1, the curve's
    endomorphism; the embedding computes it with binary double-and-add on
    the same affine [add].  The two agree on the points of the curve, where
    the group law holds; on a point off the curve (an unvalidated 65-byte
    key) they need not, and nothing below is stated there.  A [BN] scalar
    of the program is never negative; a negative one is given the multiple
    of the opposite. *)
Fixpoint mul_pos (k : positive) (P : point) : point :=
  match k with
  | xH => P
  | xO k' => mul_pos k' (add P P)
  | xI k' => add P (mul_pos k' (add P P))
  end.

Definition mul (k : Z) (P : point) : point :=
  match k with
  | Z0 => Inf
  | Zpos q => mul_pos q P
  | Zneg q => neg (mul_pos q P)
  end.

(** [curve.pointFromX(x, odd)]. *)
Definition pointFromX (x : Z) (odd : bool) : result point :=
  let x := x mod p in
  let y2 := redAdd (redAdd (redMul (redSqr x) x) (redMul x (curve_a ec mod p)))
                   (curve_b ec mod p) in
  let y := redSqrt y2 in
  if negb (redSub (redSqr y) y2 =? 0) then Throw Error_invalid_point
  else
    let isOdd := BN.isOdd y in
    let y := if (odd && negb isOdd) || (negb odd && isOdd) then redNeg y else y in
    Ok (Aff x y).

(** [curve.decodePoint(bytes)].  On the hybrid forms 06 and 07 elliptic
    asserts the parity of the last byte before it builds the point. *)
Definition decodePoint (bytes : Buffer) : result point :=
  let len := BN.byteLength p in
  match bytes with
  | [] => Throw Error_unknown_point_format
  | b0 :: rest =>
      let t := byte_to_Z b0 in
      if ((t =? 4) || (t =? 6) || (t =? 7)) && (length rest =? 2 * len)%nat then
        let last_byte := byte_to_Z (last bytes x00) in
        if (t =? 6) && negb (last_byte mod 2 =? 0) then Throw Error_assertion_failed
        else if (t =? 7) && negb (last_byte mod 2 =? 1) then Throw Error_assertion_failed
        else Ok (mkpoint (be_to_Z (firstn len rest)) (be_to_Z (skipn len rest)))
      else if ((t =? 2) || (t =? 3)) && (length rest =? len)%nat then
        pointFromX (be_to_Z rest) (t =? 3)
      else Throw Error_unknown_point_format
  end.

(** [ec.keyFromPublic(buf)] decodes at once; [.pub] is the point. *)
Definition keyFromPublic (pub : Buffer) : result point := decodePoint pub.

(** [P.encodeCompressed('hex')]: the parity byte and the x-coordinate on
    [p.byteLength()] bytes, printed in hexadecimal. *)
Definition encodeCompressed_hex (P : point) : result jsstring :=
  let len := BN.byteLength p in
  let* x := getX P in
  let* y := getY P in
  Ok (Buffer_toString_hex
        (byte_of_Z (if BN.isEven y then 2 else 3) :: BN.toArray x len)).

(** [ec.keyFromPrivate(buf)]: the scalar is reduced modulo [n]. *)
Definition keyFromPrivate (priv : Buffer) : Z :=
  BN.umod (BN.of_Buffer priv) (curve_n ec).

(** [keyPair.getPublic(true, 'hex')]. *)
Definition getPublic_hex (priv : Z) : result jsstring :=
  encodeCompressed_hex (mul priv G).

End Curve.

(** ** The class [DlcOracle] *)

Module DlcOracle.

Section WithContext.

(** The module-level constant [ec]. *)
Variable ec : EC.

(** [padHexString]: a leading "0" when the length is odd. *)
Definition padHexString (hexString : jsstring) : jsstring :=
  if negb (Nat.eqb (Nat.modulo (length hexString) 2) 0)
  then "0"%char :: hexString
  else hexString.

(** [euclideanMod].  ([num20] is dead in the source.) *)
Definition euclideanMod (num1 num2 : Z) : Z :=
  let neg := BN.isNeg num1 in
  let num1 := BN.mod_ num1 num2 in
  if neg then
    if BN.isNeg num2 then num1 - num2 else num1 + num2
  else num1.

(** [generateNumericMessage]; [value] is a non-negative integral number. *)
Definition generateNumericMessage (value : Z) : result Buffer :=
  let numberString := toString16 value in
  let* zeros := Array_join (64 - Z.of_nat (length numberString) + 1) "0"%char in
  let numberString := zeros ++ numberString in
  Ok (Buffer_from_hex numberString).

(** [publicKeyFromPrivateKey]. *)
Definition publicKeyFromPrivateKey (privateKey : Buffer) : result Buffer :=
  let keyPair := keyFromPrivate ec privateKey in
  let* hex := getPublic_hex ec keyPair in
  Ok (Buffer_from_hex hex).

(** The bytes both signing functions feed the hash after the message: the
    x-coordinate printed in hexadecimal, padded to an even length only. *)
Definition RxBytes (Rx : Z) : Buffer :=
  Buffer_from_hex (padHexString (toString16 Rx)).

(** [computeSignaturePubKey]. *)
Definition computeSignaturePubKey (oracleA oracleR message : Buffer) : result Buffer :=
  let* A := keyFromPublic ec oracleA in
  let* R := keyFromPublic ec oracleR in
  let* Rx := getX R in
  let RxString := padHexString (toString16 Rx) in
  let e := sha256_hex (message ++ Buffer_from_hex RxString) in
  let bigE := BN_of_hex e in
  let P := mul ec bigE A in
  let* bigY := getY P in
  let bigY := - bigY in
  let bigY := euclideanMod bigY (curve_p ec) in
  let newY := BN_of_hex (toString16 bigY) in
  let* Px := getX P in
  let P := mkpoint ec Px newY in
  let P := add ec P R in
  let* hex := encodeCompressed_hex ec P in
  Ok (Buffer_from_hex hex).

(** [computeSignature]. *)
Definition computeSignature (privateKey oneTimeSigningKey message : Buffer) : result Buffer :=
  let bigPriv := BN_of_hex (Buffer_toString_hex privateKey) in
  let bigK := BN_of_hex (Buffer_toString_hex oneTimeSigningKey) in
  let R := mul ec bigK (G ec) in
  let* Rx := getX R in
  let RxString := padHexString (toString16 Rx) in
  let eHex := sha256_hex (message ++ Buffer_from_hex RxString) in
  let bigE := BN_of_hex eHex in
  let bigS := bigE in
  let bigS := bigS * bigPriv in
  let bigS := bigK - bigS in
  let bigS := euclideanMod bigS (curve_n ec) in
  let numberString := toString16 bigS in
  let* numberString :=
    if (Z.of_nat (length numberString) <? 64)
    then let* zeros := Array_join (64 - Z.of_nat (length numberString) + 1) "0"%char in
         Ok (zeros ++ numberString)
    else Ok numberString in
  Ok (Buffer_from_hex numberString).

End WithContext.

End DlcOracle.

Import DlcOracle.


Definition hexbuf (s : String.string) : Buffer := Buffer_from_hex (str s).
Arguments hexbuf s%_string.

(** ** Predicates used in the statements *)

Definition is_hexchar (c : ascii) : Prop := exists d, 0 <= d < 16 /\ c = hexchar d.

(** A point whose coordinates are residues modulo [p]. *)
Definition reduced (ec : EC) (P : point) : Prop :=
  match P with
  | Inf => True
  | Aff x y => 0 <= x < curve_p ec /\ 0 <= y < curve_p ec
  end.

(** A point of the curve [y^2 = x^3 + a x + b] over the integers modulo [p]. *)
Definition on_curve (ec : EC) (P : point) : Prop :=
  match P with
  | Inf => True
  | Aff x y =>
      (0 <= x < curve_p ec /\ 0 <= y < curve_p ec)
      /\ (y * y) mod curve_p ec
         = (x * x * x + curve_a ec * x + curve_b ec) mod curve_p ec
  end.

(** The errors the specification files under [InvalidPoint]: a malformed
    encoding or coordinates off the curve. *)
Definition InvalidPoint (e : exn) : Prop :=
  e = Error_invalid_point \/ e = Error_unknown_point_format.

(** Number of bytes of the minimal even-length hexadecimal numeral. *)
Definition RxLen (x : Z) : nat := Nat.div2 (S (hexlen x)).

(** The challenge both signing functions derive from the x-coordinate of
    the nonce point and the message. *)
Definition challenge (Rx : Z) (message : Buffer) : Z :=
  be_to_Z (sha256 (message ++ RxBytes Rx)).

(** The buffer each signing function passes to SHA-256: its source up to
    the second call of [update]. *)
Definition computeSignature_hashInput (ec : EC) (oneTimeSigningKey message : Buffer)
  : result Buffer :=
  let bigK := BN_of_hex (Buffer_toString_hex oneTimeSigningKey) in
  let R := mul ec bigK (G ec) in
  let* Rx := getX R in
  let RxString := padHexString (toString16 Rx) in
  Ok (message ++ Buffer_from_hex RxString).

Definition computeSignaturePubKey_hashInput (ec : EC) (oracleA oracleR message : Buffer)
  : result Buffer :=
  let* A := keyFromPublic ec oracleA in
  let* R := keyFromPublic ec oracleR in
  let* Rx := getX R in
  let RxString := padHexString (toString16 Rx) in
  Ok (message ++ Buffer_from_hex RxString).

(** [euclideanMod] as section 4.1 of the specification words it: the
    representative in [[0, m)]. *)
Definition spec_euclideanMod (a m : Z) : Z := a mod m.

(** The signature as section 4.4 of the specification words it: the
    x-coordinate enters the hash on 32 bytes, and the scalar is the
    canonical residue of [k - e a]. *)
Definition spec_challenge (Rx : Z) (message : Buffer) : Z :=
  be_to_Z (sha256 (message ++ be_bytes 32 Rx)).

Definition spec_computeSignature (ec : EC) (a k : Z) (message : Buffer) : result Buffer :=
  let* rx := getX (mul ec k (G ec)) in
  let e := spec_challenge rx message in
  Ok (be_bytes 32 (spec_euclideanMod (k - e * a) (curve_n ec))).

(** ** Concrete inputs used by the examples *)

Definition zero32 : Buffer := be_bytes 32 0.

(** The nonce 153: the x-coordinate of 153 G is below 2^248. *)
Definition k153 : Buffer := be_bytes 32 153.

(** A private key chosen as the inverse modulo [n] of the challenge that
    the nonce 1 and the all-zero message produce. *)
Definition a_degenerate : Buffer :=
  hexbuf "a9f7a74b4afd34c72fcd1560bbea70099d26a7e6d3d91f8e3f30e299db03318a".

(** ** Primality certificates *)

(** Trial division: no divisor from [d] up to the square root of [q]. *)
Fixpoint trial (fuel : nat) (d q : Z) : bool :=
  match fuel with
  | O => false
  | S f =>
      if q <? d * d then true
      else if q mod d =? 0 then false
      else trial f (d + 1) q
  end.

Definition prime_small (q : Z) : bool :=
  (1 <? q) && trial (S (Z.to_nat (Z.sqrt q))) 2 q.

Fixpoint pairwise_coprime (l : list Z) : bool :=
  match l with
  | [] => true
  | q :: r => (Z.gcd q (fold_right Z.mul 1 r) =? 1) && pairwise_coprime r
  end.

(** One line of a Pocklington certificate with witness 2: [q] divides
    [N - 1] and [2 ^ ((N - 1) / q) - 1] is prime to [N]. *)
Definition pock_item (N q : Z) : bool :=
  ((N - 1) mod q =? 0) && (Z.gcd (Zpow_mod 2 ((N - 1) / q) N - 1) N =? 1).

(** Pocklington's criterion for [N], given prime factors [qs] of [N - 1]
    whose product exceeds the square root of [N]. *)
Definition pocklington (N : Z) (qs : list Z) : bool :=
  let F := fold_right Z.mul 1 qs in
  (1 <? N) && (Zpow_mod 2 (N - 1) N =? 1) && forallb (pock_item N) qs
  && pairwise_coprime qs && (N <? (F + 1) * (F + 1)).

(** ** The curve [y^2 = x^3 + b] over the field of residues *)

(** Points with coordinates in [Zmod p]; the operations mirror [add],
    [dbl] and [neg] of the program, for a curve whose coefficient [a] is
    zero. *)
Inductive fpoint (p : Z) : Set :=
| FInf
| FAff (x y : Zmod p).
Arguments FInf {p}.
Arguments FAff {p} x y.

Section FieldCurveDefs.

Variable p : Z.
Variable b : Zmod p.

Local Open Scope Zmod_scope.

Definition fon_curve (P : fpoint p) : Prop :=
  match P with
  | FInf => True
  | FAff x y => y * y = x * x * x + b
  end.

Definition fneg (P : fpoint p) : fpoint p :=
  match P with
  | FInf => FInf
  | FAff x y => FAff x (Zmod.opp y)
  end.

Definition fdbl (P : fpoint p) : fpoint p :=
  match P with
  | FInf => FInf
  | FAff x y =>
      if Zmod.eqb (y + y) Zmod.zero then FInf
      else
        let c := (x * x + x * x + x * x) * Zmod.inv (y + y) in
        let nx := c * c - (x + x) in
        FAff nx (c * (x - nx) - y)
  end.

Definition fadd (P Q : fpoint p) : fpoint p :=
  match P, Q with
  | FInf, _ => Q
  | _, FInf => P
  | FAff x1 y1, FAff x2 y2 =>
      if Zmod.eqb x1 x2 && Zmod.eqb y1 y2 then fdbl P
      else if Zmod.eqb x1 x2 then FInf
      else
        let c := (y1 - y2) * Zmod.inv (x1 - x2) in
        let nx := c * c - x1 - x2 in
        FAff nx (c * (x1 - nx) - y1)
  end.

(** The chord through two points of distinct abscissas, and the tangent
    at a point of nonzero ordinate, as polynomial relations: [i] is the
    inverse of the denominator and [c] the slope. *)
Definition chordx (x1 y1 x2 y2 i c nx ny : Zmod p) : Prop :=
  i * (x1 - x2) = Zmod.one /\ c = (y1 - y2) * i
  /\ nx = c * c - x1 - x2 /\ ny = c * (x1 - nx) - y1.

Definition tanx (x y i c nx ny : Zmod p) : Prop :=
  i * (y + y) = Zmod.one /\ c = (x * x + x * x + x * x) * i
  /\ nx = c * c - (x + x) /\ ny = c * (x - nx) - y.

(** The four ways [fadd] treats two affine points. *)
Inductive fadd_rel (x1 y1 x2 y2 : Zmod p) : fpoint p -> Prop :=
| FA_dbl_inf :
    x1 = x2 -> y1 = y2 -> y1 + y1 = Zmod.zero -> fadd_rel x1 y1 x2 y2 FInf
| FA_dbl (i c nx ny : Zmod p) :
    x1 = x2 -> y1 = y2 -> tanx x1 y1 i c nx ny ->
    fadd_rel x1 y1 x2 y2 (FAff nx ny)
| FA_opp :
    x1 = x2 -> y1 <> y2 -> fadd_rel x1 y1 x2 y2 FInf
| FA_chord (i c nx ny : Zmod p) :
    chordx x1 y1 x2 y2 i c nx ny ->
    fadd_rel x1 y1 x2 y2 (FAff nx ny).

Definition fassoc (P Q R : fpoint p) : Prop :=
  fadd P (fadd Q R) = fadd (fadd P Q) R.

End FieldCurveDefs.

Arguments fon_curve {p} b P.
Arguments fneg {p} P.
Arguments fdbl {p} P.
Arguments fadd {p} P Q.
Arguments chordx {p} x1 y1 x2 y2 i c nx ny.
Arguments tanx {p} x y i c nx ny.
Arguments fadd_rel {p} x1 y1 x2 y2 _.
Arguments fassoc {p} P Q R.

(** ** From the program's points to points over the field *)

(** The residue of an integer coordinate. *)
Definition fz (ec : EC) (x : Z) : Zmod (curve_p ec) := Zmod.of_Z (curve_p ec) x.

Definition fpt (ec : EC) (P : point) : fpoint (curve_p ec) :=
  match P with
  | Inf => FInf
  | Aff x y => FAff (fz ec x) (fz ec y)
  end.

Definition fb (ec : EC) : Zmod (curve_p ec) := fz ec (curve_b ec).

(** [n] copies of [P] added up with the program's [add]. *)
Fixpoint nmul (ec : EC) (n : nat) (P : point) : point :=
  match n with
  | O => Inf
  | S n' => add ec P (nmul ec n' P)
  end.

(** The compressed encoding as bytes: [encodeCompressed_hex] read back
    through [Buffer.from(_, 'hex')], as every caller does. *)
Definition encodePoint (ec : EC) (P : point) : result Buffer :=
  let* hex := encodeCompressed_hex ec P in
  Ok (Buffer_from_hex hex).

(** ** Public keys *)

(** A valid public key: the compressed encoding of a point of the curve
    other than the point at infinity. *)
Definition valid_public_key (ec : EC) (key : Buffer) : Prop :=
  exists x y, on_curve ec (Aff x y) /\ encodePoint ec (Aff x y) = Ok key.

(** What [keyFromPublic] asks of a key of the compressed length: a first
    byte 02 or 03, and a number after it that is, once reduced modulo [p],
    the x-coordinate of a point of the curve.  The number itself may be
    [p] or more. *)
Definition accepted_key (ec : EC) (key : Buffer) : Prop :=
  (hd x00 key = x02 \/ hd x00 key = x03)
  /\ exists y, on_curve ec (Aff (be_to_Z (tl key) mod curve_p ec) y).

(** ** Concrete points used by the examples *)

(** The coordinates of [153 G]: the x-coordinate is below 2^248. *)
Definition nonce153_x : Z :=
  402275873819480217527543954245978242749948912216697339260697277277855307913.
Definition nonce153_y : Z :=
  19411896589701336237661297174692886517905212093130893753719983191330346751652.

(** The compressed encoding of the generator. *)
Definition G_compressed : Buffer := x02 :: be_bytes 32 (curve_gx secp256k1).

(** The x-coordinate of [(1 - e) G] for the challenge [e] of the nonce 1 and
    the all-zero message; the y-coordinate is odd. *)
Definition sG_example_x : Z :=
  30956761029754508873243159301437277145518641863171751762616932400684848277732.

(** A key that is no encoding of a point: the number after the first byte
    is [p + 1].  Reduced modulo [p] it is 1, the x-coordinate of a point of
    the curve whose even y-coordinate is [noncanonical_y]. *)
Definition noncanonical_key : Buffer := x02 :: be_bytes 32 (curve_p secp256k1 + 1).
Definition noncanonical_y : Z :=
  29896722852569046015560700294576055776214335159245303116488692907525646231534.

(** What [computeSignaturePubKey] returns on [noncanonical_key], the
    generator as nonce key and the all-zero message. *)
Definition noncanonical_result : Buffer :=
  x03 :: be_bytes 32
    30550681082306601281537479480524499364053598283703593471656657422363902312460.

(** ** [generateOneTimeSigningKey] *)

(** [csprng.randombytes_buf(32)]: the random source of the sodium binding
    is a parameter, a function from the requested size to the bytes it
    hands out. *)
Definition generateOneTimeSigningKey (randombytes_buf : nat -> Buffer) : Buffer :=
  randombytes_buf 32%nat.

(** ** A second evaluator of the point arithmetic, on machine words *)

(** [dbl], [add] and [mul_pos] once more, on the integers of the Bignums
    library; the inverse is the power [p - 2].  It serves to evaluate
    multiples by 256-bit scalars inside proofs. *)
Module Fast.

Abbreviation bigZ := BigZ.BigZ.t.

Inductive bpoint : Set :=
| BInf
| BAff (x y : bigZ).

Definition to_point (P : bpoint) : point :=
  match P with
  | BInf => Inf
  | BAff x y => Aff (BigZ.BigZ.to_Z x) (BigZ.BigZ.to_Z y)
  end.

Section WithModulus.

(** The modulus, the coefficient [a] and the exponent [p - 2]. *)
Variables m a : bigZ.
Variable e : positive.

Definition bred (x : bigZ) : bigZ := BigZ.BigZ.modulo x m.

Fixpoint bpow (x : bigZ) (k : positive) : bigZ :=
  match k with
  | xH => bred x
  | xO k' => let y := bpow x k' in bred (BigZ.BigZ.mul y y)
  | xI k' => let y := bpow x k' in bred (BigZ.BigZ.mul x (bred (BigZ.BigZ.mul y y)))
  end.

Definition binv (x : bigZ) : bigZ := bpow x e.

Definition beqb (x y : bigZ) : bool := BigZ.BigZ.eqb x y.
Definition badd_ (x y : bigZ) : bigZ := bred (BigZ.BigZ.add x y).
Definition bsub_ (x y : bigZ) : bigZ := bred (BigZ.BigZ.sub x y).
Definition bmul_ (x y : bigZ) : bigZ := bred (BigZ.BigZ.mul x y).
Definition bneg_ (x : bigZ) : bigZ := bred (BigZ.BigZ.opp x).

Definition bdbl (P : bpoint) : bpoint :=
  match P with
  | BInf => BInf
  | BAff x y =>
      let ys1 := badd_ y y in
      if beqb ys1 BigZ.BigZ.zero then BInf
      else
        let x2 := bmul_ x x in
        let dyinv := binv ys1 in
        let c := bmul_ (badd_ (badd_ (badd_ x2 x2) x2) a) dyinv in
        let nx := bsub_ (bmul_ c c) (badd_ x x) in
        let ny := bsub_ (bmul_ c (bsub_ x nx)) y in
        BAff nx ny
  end.

Definition badd (P Q : bpoint) : bpoint :=
  match P, Q with
  | BInf, _ => Q
  | _, BInf => P
  | BAff x1 y1, BAff x2 y2 =>
      if beqb x1 x2 && beqb y1 y2 then bdbl P
      else if beqb x1 x2 && beqb (bneg_ y1) y2 then BInf
      else if beqb x1 x2 then BInf
      else
        let c := bsub_ y1 y2 in
        let c := if beqb c BigZ.BigZ.zero then c else bmul_ c (binv (bsub_ x1 x2)) in
        let nx := bsub_ (bsub_ (bmul_ c c) x1) x2 in
        let ny := bsub_ (bmul_ c (bsub_ x1 nx)) y1 in
        BAff nx ny
  end.

Fixpoint bmul_pos (k : positive) (P : bpoint) : bpoint :=
  match k with
  | xH => P
  | xO k' => bmul_pos k' (badd P P)
  | xI k' => badd P (bmul_pos k' (badd P P))
  end.

End WithModulus.

(** The multiple [k (x, y)] on the curve [ec], evaluated on machine words. *)
Definition mul_pos_fast (ec : EC) (k : positive) (x y : Z) : point :=
  to_point
    (bmul_pos (BigZ.BigZ.of_Z (curve_p ec))
              (BigZ.BigZ.of_Z (curve_a ec mod curve_p ec))
              (Z.to_pos (curve_p ec - 2))
              k (BAff (BigZ.BigZ.of_Z x) (BigZ.BigZ.of_Z y))).

End Fast.

(** * Bytes and hexadecimal text *)

Lemma byte_to_Z_range (b : byte) : 0 <= byte_to_Z b < 256.
Proof.
  unfold byte_to_Z. pose proof (Byte.to_N_bounded b). lia.
Qed.

Lemma byte_to_of_Z (z : Z) : byte_to_Z (byte_of_Z z) = z mod 256.
Proof.
  unfold byte_to_Z, byte_of_Z.
  pose proof (Z.mod_pos_bound z 256 eq_refl) as Hr.
  destruct (Byte.of_N (Z.to_N (z mod 256))) as [b|] eqn:E.
  - apply Byte.to_of_N in E. rewrite E. lia.
  - apply Byte.of_N_None_iff in E. lia.
Qed.

Lemma byte_of_to_Z (b : byte) : byte_of_Z (byte_to_Z b) = b.
Proof.
  unfold byte_of_Z, byte_to_Z.
  pose proof (Byte.to_N_bounded b) as Hb.
  rewrite Z.mod_small by lia.
  rewrite N2Z.id, Byte.of_to_N. reflexivity.
Qed.

Lemma byte_to_Z_inj (b1 b2 : byte) : byte_to_Z b1 = byte_to_Z b2 -> b1 = b2.
Proof.
  intros H. rewrite <- (byte_of_to_Z b1), <- (byte_of_to_Z b2). now rewrite H.
Qed.

Lemma hexval_hexchar (d : Z) : 0 <= d < 16 -> hexval (hexchar d) = Some d.
Proof.
  intros H. rewrite <- (Z2Nat.id d) by lia.
  assert (Hn : (Z.to_nat d < 16)%nat) by lia.
  generalize dependent (Z.to_nat d). intros n Hn.
  do 16 (destruct n as [|n]; [reflexivity|]). lia.
Qed.

Lemma is_hexchar_not_minus (c : ascii) : is_hexchar c -> c <> "-"%char.
Proof.
  intros (d & Hd & ->) E.
  apply (f_equal hexval) in E. rewrite hexval_hexchar in E by assumption.
  discriminate E.
Qed.

Lemma hexdigits_S (k : nat) (v : Z) :
  hexdigits (S k) v = hexdigits k (v / 16) ++ [hexchar (v mod 16)].
Proof. reflexivity. Qed.

Lemma length_hexdigits (k : nat) (v : Z) : length (hexdigits k v) = k.
Proof.
  revert v. induction k as [|k IH]; intros v; [reflexivity|].
  rewrite hexdigits_S, length_app, IH. simpl. lia.
Qed.

Lemma Forall_hexdigits (k : nat) (v : Z) : Forall is_hexchar (hexdigits k v).
Proof.
  revert v. induction k as [|k IH]; intros v; [constructor|].
  rewrite hexdigits_S. apply Forall_app. split; [apply IH|].
  constructor; [|constructor].
  exists (v mod 16). split; [apply Z.mod_pos_bound; lia | reflexivity].
Qed.

Lemma hexdigits_0 (k : nat) : hexdigits k 0 = repeat "0"%char k.
Proof.
  induction k as [|k IH]; [reflexivity|].
  rewrite hexdigits_S. change (0 / 16) with 0. rewrite IH.
  change (hexchar (0 mod 16)) with "0"%char.
  now rewrite <- repeat_cons.
Qed.

(** Zero characters in front of a numeral that already fits are more
    digits of the same number. *)
Lemma hexdigits_pad (j k : nat) (v : Z) :
  0 <= v < 16 ^ Z.of_nat k ->
  repeat "0"%char j ++ hexdigits k v = hexdigits (j + k) v.
Proof.
  revert v. induction k as [|k IH]; intros v Hv.
  - assert (v = 0) by (simpl in Hv; lia). subst v.
    rewrite Nat.add_0_r, !hexdigits_0. simpl. apply app_nil_r.
  - rewrite Nat.add_succ_r, !hexdigits_S, app_assoc. f_equal.
    apply IH. rewrite Nat2Z.inj_succ, Z.pow_succ_r in Hv by lia.
    split; [apply Z.div_pos; lia|].
    apply Z.div_lt_upper_bound; lia.
Qed.

Lemma hexlen_pos (v : Z) : (1 <= hexlen v)%nat.
Proof.
  unfold hexlen. destruct (v <=? 0) eqn:E; [lia|].
  apply Z.leb_gt in E. pose proof (Z.log2_nonneg v).
  assert (0 <= Z.log2 v / 4) by (apply Z.div_pos; lia). lia.
Qed.

Lemma hexlen_upper (v : Z) : 0 <= v -> v < 16 ^ Z.of_nat (hexlen v).
Proof.
  intros Hv. unfold hexlen. destruct (v <=? 0) eqn:E.
  - apply Z.leb_le in E. assert (v = 0) by lia. subst. reflexivity.
  - apply Z.leb_gt in E.
    pose proof (Z.log2_nonneg v) as Hl.
    assert (Hq : 0 <= Z.log2 v / 4) by (apply Z.div_pos; lia).
    rewrite Z2Nat.id by lia.
    change 16 with (2 ^ 4). rewrite <- Z.pow_mul_r by lia.
    destruct (Z.log2_spec v E) as [_ Hu].
    eapply Z.lt_le_trans; [exact Hu|].
    apply Z.pow_le_mono_r; [lia|].
    pose proof (Z.mod_pos_bound (Z.log2 v) 4 eq_refl).
    pose proof (Z.div_mod (Z.log2 v) 4). lia.
Qed.

Lemma hexlen_lower (v : Z) : 0 < v -> 16 ^ (Z.of_nat (hexlen v) - 1) <= v.
Proof.
  intros Hv. unfold hexlen. destruct (v <=? 0) eqn:E.
  - apply Z.leb_le in E. lia.
  - pose proof (Z.log2_nonneg v) as Hl.
    assert (Hq : 0 <= Z.log2 v / 4) by (apply Z.div_pos; lia).
    rewrite Z2Nat.id by lia.
    replace (Z.log2 v / 4 + 1 - 1) with (Z.log2 v / 4) by lia.
    change 16 with (2 ^ 4). rewrite <- Z.pow_mul_r by lia.
    destruct (Z.log2_spec v Hv) as [Hlo _].
    eapply Z.le_trans; [|exact Hlo].
    apply Z.pow_le_mono_r; [lia|].
    pose proof (Z.mod_pos_bound (Z.log2 v) 4 eq_refl).
    pose proof (Z.div_mod (Z.log2 v) 4). lia.
Qed.

(** The number of digits is the least [k] with [v < 16 ^ k], at least 1. *)
Lemma hexlen_le (v : Z) (k : nat) :
  0 <= v < 16 ^ Z.of_nat k -> (1 <= k)%nat -> (hexlen v <= k)%nat.
Proof.
  intros [Hv Hk] H1.
  destruct (Z.eq_dec v 0) as [->|Hnz]; [exact H1|].
  pose proof (hexlen_lower v ltac:(lia)) as Hlo.
  destruct (Nat.le_gt_cases (hexlen v) k) as [|Hgt]; [assumption|exfalso].
  assert (16 ^ Z.of_nat k <= 16 ^ (Z.of_nat (hexlen v) - 1))
    by (apply Z.pow_le_mono_r; lia).
  lia.
Qed.

Lemma toString16_nonneg (v : Z) : 0 <= v -> toString16 v = hexdigits (hexlen v) v.
Proof.
  intros Hv. unfold toString16.
  destruct (v <? 0) eqn:E; [apply Z.ltb_lt in E; lia | reflexivity].
Qed.

Lemma length_toString16 (v : Z) : 0 <= v -> length (toString16 v) = hexlen v.
Proof. intros Hv. now rewrite toString16_nonneg, length_hexdigits. Qed.

(** ** Parsing *)

Lemma parse_hex_snoc (s : jsstring) (c : ascii) :
  parse_hex (s ++ [c])
  = 16 * parse_hex s + match hexval c with Some d => d | None => 0 end.
Proof. unfold parse_hex. now rewrite fold_left_app. Qed.

Lemma parse_hex_hexdigits (k : nat) (v : Z) :
  parse_hex (hexdigits k v) = v mod 16 ^ Z.of_nat k.
Proof.
  revert v. induction k as [|k IH]; intros v.
  - simpl. now rewrite Z.mod_1_r.
  - rewrite hexdigits_S, parse_hex_snoc, IH.
    rewrite hexval_hexchar by (apply Z.mod_pos_bound; lia).
    rewrite Nat2Z.inj_succ, Z.pow_succ_r by lia.
    rewrite Z.rem_mul_r by (try apply Z.pow_pos_nonneg; lia). lia.
Qed.

Lemma BN_of_hex_parse (s : jsstring) :
  Forall is_hexchar s -> BN_of_hex s = parse_hex s.
Proof.
  intros H. destruct s as [|c r]; [reflexivity|].
  inversion H as [|? ? Hc _]; subst.
  apply is_hexchar_not_minus in Hc.
  unfold BN_of_hex.
  destruct c as [[] [] [] [] [] [] [] []]; try reflexivity.
  now elim Hc.
Qed.

Lemma BN_of_hex_hexdigits (k : nat) (v : Z) :
  BN_of_hex (hexdigits k v) = v mod 16 ^ Z.of_nat k.
Proof.
  rewrite BN_of_hex_parse by apply Forall_hexdigits. apply parse_hex_hexdigits.
Qed.

(** [new BN(v.toString(16), 16)] is [v] again. *)
Lemma BN_of_hex_toString16 (v : Z) : 0 <= v -> BN_of_hex (toString16 v) = v.
Proof.
  intros Hv. rewrite toString16_nonneg, BN_of_hex_hexdigits by assumption.
  apply Z.mod_small. split; [assumption | now apply hexlen_upper].
Qed.

Lemma Forall_Buffer_toString_hex (b : Buffer) : Forall is_hexchar (Buffer_toString_hex b).
Proof.
  unfold Buffer_toString_hex. induction b as [|x b IH]; [constructor|].
  simpl. pose proof (byte_to_Z_range x) as Hx.
  constructor; [|constructor; [|exact IH]].
  - exists (byte_to_Z x / 16). split; [|reflexivity].
    split; [apply Z.div_pos; lia | apply Z.div_lt_upper_bound; lia].
  - exists (byte_to_Z x mod 16). split; [apply Z.mod_pos_bound; lia | reflexivity].
Qed.

Lemma be_to_Z_snoc (b : Buffer) (x : byte) :
  be_to_Z (b ++ [x]) = 256 * be_to_Z b + byte_to_Z x.
Proof. unfold be_to_Z. now rewrite fold_left_app. Qed.

Lemma fold_parse_toString_hex (b : Buffer) (acc : Z) :
  fold_left (fun acc c => 16 * acc + match hexval c with Some d => d | None => 0 end)
            (Buffer_toString_hex b) acc
  = fold_left (fun acc x => 256 * acc + byte_to_Z x) b acc.
Proof.
  revert acc. induction b as [|x b IH]; intros acc; [reflexivity|].
  unfold Buffer_toString_hex in *. cbn [flat_map app fold_left]. rewrite IH. f_equal.
  pose proof (byte_to_Z_range x) as Hx.
  rewrite !hexval_hexchar.
  - pose proof (Z.div_mod (byte_to_Z x) 16 ltac:(lia)). lia.
  - apply Z.mod_pos_bound; lia.
  - split; [apply Z.div_pos; lia | apply Z.div_lt_upper_bound; lia].
Qed.

(** [new BN(buf.toString('hex'), 16)] is the big-endian value of [buf]. *)
Lemma BN_of_hex_Buffer (b : Buffer) : BN_of_hex (Buffer_toString_hex b) = be_to_Z b.
Proof.
  rewrite BN_of_hex_parse by apply Forall_Buffer_toString_hex.
  apply fold_parse_toString_hex.
Qed.

Lemma Buffer_from_to_hex (b : Buffer) : Buffer_from_hex (Buffer_toString_hex b) = b.
Proof.
  unfold Buffer_toString_hex. induction b as [|x b IH]; [reflexivity|].
  pose proof (byte_to_Z_range x) as Hx.
  cbn [flat_map app Buffer_from_hex].
  rewrite !hexval_hexchar.
  - rewrite IH. f_equal.
    replace (16 * (byte_to_Z x / 16) + byte_to_Z x mod 16) with (byte_to_Z x)
      by (pose proof (Z.div_mod (byte_to_Z x) 16 ltac:(lia)); lia).
    apply byte_of_to_Z.
  - apply Z.mod_pos_bound; lia.
  - split; [apply Z.div_pos; lia | apply Z.div_lt_upper_bound; lia].
Qed.

(** ** Big-endian bytes *)

Lemma be_bytes_S (k : nat) (v : Z) :
  be_bytes (S k) v = be_bytes k (v / 256) ++ [byte_of_Z (v mod 256)].
Proof. reflexivity. Qed.

Lemma length_be_bytes (k : nat) (v : Z) : length (be_bytes k v) = k.
Proof.
  revert v. induction k as [|k IH]; intros v; [reflexivity|].
  rewrite be_bytes_S, length_app, IH. simpl. lia.
Qed.

Lemma be_to_Z_be_bytes (k : nat) (v : Z) :
  be_to_Z (be_bytes k v) = v mod 256 ^ Z.of_nat k.
Proof.
  revert v. induction k as [|k IH]; intros v.
  - simpl. now rewrite Z.mod_1_r.
  - rewrite be_bytes_S, be_to_Z_snoc, IH, byte_to_of_Z, Zmod_mod.
    rewrite Nat2Z.inj_succ, Z.pow_succ_r by lia.
    rewrite Z.rem_mul_r by (try apply Z.pow_pos_nonneg; lia). lia.
Qed.

Lemma be_to_Z_range (b : Buffer) : 0 <= be_to_Z b < 256 ^ Z.of_nat (length b).
Proof.
  induction b as [|x b IH] using rev_ind.
  - simpl. unfold be_to_Z. simpl. lia.
  - rewrite be_to_Z_snoc, length_app. simpl length.
    rewrite Nat.add_1_r, Nat2Z.inj_succ, Z.pow_succ_r by lia.
    pose proof (byte_to_Z_range x). lia.
Qed.

Lemma be_bytes_be_to_Z (b : Buffer) : be_bytes (length b) (be_to_Z b) = b.
Proof.
  induction b as [|x b IH] using rev_ind; [reflexivity|].
  rewrite be_to_Z_snoc, length_app. simpl length. rewrite Nat.add_1_r, be_bytes_S.
  pose proof (byte_to_Z_range x) as Hx.
  replace ((256 * be_to_Z b + byte_to_Z x) / 256) with (be_to_Z b)
    by (apply Z.div_unique with (r := byte_to_Z x); lia).
  replace ((256 * be_to_Z b + byte_to_Z x) mod 256) with (byte_to_Z x)
    by (apply Z.mod_unique with (q := be_to_Z b); lia).
  now rewrite IH, byte_of_to_Z.
Qed.

Lemma be_bytes_inj (k : nat) (u v : Z) :
  0 <= u < 256 ^ Z.of_nat k -> 0 <= v < 256 ^ Z.of_nat k ->
  be_bytes k u = be_bytes k v -> u = v.
Proof.
  intros Hu Hv E. apply (f_equal be_to_Z) in E.
  rewrite !be_to_Z_be_bytes, !Z.mod_small in E; assumption.
Qed.

(** ** Decoding hexadecimal numerals *)

Lemma Buffer_from_hex_hexdigits_app (k : nat) (v : Z) (t : jsstring) :
  Buffer_from_hex (hexdigits (2 * k) v ++ t) = be_bytes k v ++ Buffer_from_hex t.
Proof.
  revert v t. induction k as [|k IH]; intros v t; [reflexivity|].
  replace (2 * S k)%nat with (S (S (2 * k))) by lia.
  rewrite !hexdigits_S, be_bytes_S, <- !app_assoc. cbn [app].
  rewrite Z.div_div by lia. change (16 * 16) with 256.
  rewrite IH. f_equal. cbn [Buffer_from_hex].
  rewrite !hexval_hexchar by (apply Z.mod_pos_bound; lia).
  f_equal. f_equal.
  change 256 with (16 * 16). rewrite (Z.rem_mul_r v 16 16) by lia. lia.
Qed.

Lemma Buffer_from_hex_hexdigits (k : nat) (v : Z) :
  Buffer_from_hex (hexdigits (2 * k) v) = be_bytes k v.
Proof.
  rewrite <- (app_nil_r (hexdigits (2 * k) v)), Buffer_from_hex_hexdigits_app.
  simpl. apply app_nil_r.
Qed.

(** With one character more than an even number, the last one is dropped. *)
Lemma Buffer_from_hex_hexdigits_odd (k : nat) (v : Z) :
  Buffer_from_hex (hexdigits (S (2 * k)) v) = be_bytes k (v / 16).
Proof.
  rewrite hexdigits_S, Buffer_from_hex_hexdigits_app. simpl. apply app_nil_r.
Qed.

(** * [euclideanMod] *)

(** What the function computes for a positive modulus: the canonical
    residue, except on a negative multiple of the modulus, where the
    remainder 0 is shifted to the modulus itself. *)
Lemma euclideanMod_pos (a m : Z) :
  0 < m ->
  euclideanMod a m = if (a <? 0) && (a mod m =? 0) then m else a mod m.
Proof.
  intros Hm. unfold euclideanMod, BN.isNeg, BN.mod_.
  assert (Hmn : (m <? 0) = false) by (apply Z.ltb_ge; lia).
  rewrite Hmn.
  destruct (a <? 0) eqn:Ha; cbn [andb].
  - apply Z.ltb_lt in Ha.
    pose proof (Z.rem_bound_pos_neg a m Hm ltac:(lia)) as Hr.
    pose proof (Z.quot_rem a m ltac:(lia)) as Hq.
    destruct (a mod m =? 0) eqn:E.
    + apply Z.eqb_eq in E.
      apply Z.mod_divide in E; [|lia]. destruct E as [c Hc].
      assert (Z.rem a m = 0); [|lia].
      subst a. rewrite Z.rem_mul by lia. reflexivity.
    + apply Z.eqb_neq in E.
      assert (Hrz : Z.rem a m <> 0).
      { intros Hz. apply E. apply Z.mod_divide; [lia|].
        exists (Z.quot a m). lia. }
      apply Z.mod_unique with (q := Z.quot a m - 1); lia.
  - apply Z.ltb_ge in Ha. apply Z.rem_mod_nonneg; lia.
Qed.

Lemma euclideanMod_canonical (a m : Z) :
  0 < m -> ~ (a < 0 /\ a mod m = 0) -> euclideanMod a m = a mod m.
Proof.
  intros Hm H. rewrite euclideanMod_pos by assumption.
  destruct (a <? 0) eqn:Ha; [|reflexivity].
  destruct (a mod m =? 0) eqn:E; [|reflexivity].
  apply Z.ltb_lt in Ha. apply Z.eqb_eq in E. tauto.
Qed.

Lemma euclideanMod_bound (a m : Z) : 0 < m -> 0 <= euclideanMod a m <= m.
Proof.
  intros Hm. rewrite euclideanMod_pos by assumption.
  pose proof (Z.mod_pos_bound a m Hm).
  destruct ((a <? 0) && (a mod m =? 0)); lia.
Qed.

Lemma euclideanMod_congr (a m : Z) : 0 < m -> (euclideanMod a m) mod m = a mod m.
Proof.
  intros Hm. rewrite euclideanMod_pos by assumption.
  destruct ((a <? 0) && (a mod m =? 0)) eqn:E.
  - apply andb_prop in E. destruct E as [_ E]. apply Z.eqb_eq in E.
    rewrite Z.mod_same by lia. now rewrite E.
  - apply Z.mod_mod. lia.
Qed.

(** C3: on a negative multiple of the modulus the result is the modulus,
    which lies outside the interval from 0 to the modulus. *)
Theorem C3_euclideanMod_negative_multiple :
  euclideanMod (-5) 5 = 5 /\ ~ (0 <= euclideanMod (-5) 5 < 5).
Proof. split; [reflexivity | vm_compute; intros [_ H]; discriminate H]. Qed.

(** * [generateNumericMessage] *)

Lemma Array_join_zeros (k : nat) :
  Array_join (Z.of_nat k + 1) "0"%char = Ok (repeat "0"%char k).
Proof.
  unfold Array_join. destruct (Z.of_nat k + 1 <? 0) eqn:E.
  - apply Z.ltb_lt in E. lia.
  - do 2 f_equal. lia.
Qed.

Lemma generateNumericMessage_in_range (value : Z) :
  0 <= value < 2 ^ 256 ->
  generateNumericMessage value = Ok (be_bytes 32 value).
Proof.
  intros Hv. unfold generateNumericMessage.
  rewrite length_toString16, toString16_nonneg by lia.
  assert (Hl : (hexlen value <= 64)%nat).
  { apply hexlen_le; [|lia]. change (16 ^ Z.of_nat 64) with (2 ^ 256). lia. }
  replace (64 - Z.of_nat (hexlen value) + 1)
    with (Z.of_nat (64 - hexlen value) + 1) by lia.
  rewrite Array_join_zeros. cbn [bind].
  rewrite hexdigits_pad by (split; [lia | apply hexlen_upper; lia]).
  replace (64 - hexlen value + hexlen value)%nat with (2 * 32)%nat by lia.
  now rewrite Buffer_from_hex_hexdigits.
Qed.

(** C8: zero gives 32 zero bytes, 255 gives 31 zero bytes and 0xff, and
    every value below 2^256 gives its 32-byte big-endian encoding. *)
Theorem C8_generateNumericMessage_encoding :
  generateNumericMessage 0 = Ok (repeat x00 32)
  /\ generateNumericMessage 255 = Ok (repeat x00 31 ++ [xff])
  /\ forall value, 0 <= value < 2 ^ 256 ->
       generateNumericMessage value = Ok (be_bytes 32 value)
       /\ length (be_bytes 32 value) = 32%nat
       /\ be_to_Z (be_bytes 32 value) = value.
Proof.
  split; [reflexivity|]. split; [reflexivity|].
  intros value Hv. split; [now apply generateNumericMessage_in_range|].
  split; [apply length_be_bytes|].
  rewrite be_to_Z_be_bytes. apply Z.mod_small.
  change (256 ^ Z.of_nat 32) with (2 ^ 256). lia.
Qed.

Lemma C8_witness :
  0 <= 18081 < 2 ^ 256
  /\ generateNumericMessage 18081 = Ok (be_bytes 32 18081).
Proof.
  split; [lia|].
  destruct C8_generateNumericMessage_encoding as (_ & _ & H).
  apply (H 18081). lia.
Defined.

(** C7 as stated fails: 2^256 has 65 hexadecimal digits, the padding is
    empty, and the decoder returns the 32 bytes of the first 64 digits. *)
Lemma C7_counterexample :
  generateNumericMessage (2 ^ 256) = Ok (x10 :: repeat x00 31).
Proof. vm_compute. reflexivity. Qed.

Lemma hexlen_ge (v : Z) (k : nat) : 16 ^ Z.of_nat k <= v -> (S k <= hexlen v)%nat.
Proof.
  intros Hv.
  assert (0 < 16 ^ Z.of_nat k) by (apply Z.pow_pos_nonneg; lia).
  pose proof (hexlen_upper v ltac:(lia)) as Hu.
  destruct (Nat.le_gt_cases (S k) (hexlen v)) as [|Hlt]; [assumption|exfalso].
  assert (16 ^ Z.of_nat (hexlen v) <= 16 ^ Z.of_nat k)
    by (apply Z.pow_le_mono_r; lia).
  lia.
Qed.

(** C7, amended: no range check exists.  From 2^260 on (66 digits or more)
    the padding expression [new Array(64 - length + 1)] raises a
    RangeError; between 2^256 and 2^260 the call returns the 32 bytes of
    the 64 leading digits. *)
Theorem C7_generateNumericMessage_out_of_range (value : Z) :
  (2 ^ 260 <= value -> generateNumericMessage value = Throw RangeError)
  /\ (2 ^ 256 <= value < 2 ^ 260 ->
      generateNumericMessage value = Ok (be_bytes 32 (value / 16))).
Proof.
  split.
  - intros Hv. unfold generateNumericMessage.
    rewrite length_toString16 by lia.
    pose proof (hexlen_ge value 65 Hv) as Hl.
    unfold Array_join.
    destruct (64 - Z.of_nat (hexlen value) + 1 <? 0) eqn:E; [reflexivity|].
    apply Z.ltb_ge in E. lia.
  - intros Hv. unfold generateNumericMessage.
    rewrite length_toString16, toString16_nonneg by lia.
    assert (Hl : hexlen value = 65%nat).
    { pose proof (hexlen_ge value 64 ltac:(change (16 ^ Z.of_nat 64) with (2 ^ 256); lia)).
      pose proof (hexlen_le value 65
                    ltac:(change (16 ^ Z.of_nat 65) with (2 ^ 260); lia) ltac:(lia)).
      lia. }
    rewrite Hl. change (Array_join (64 - Z.of_nat 65 + 1) "0"%char) with (Ok (@nil ascii)).
    cbn [bind app]. change 65%nat with (S (2 * 32)).
    now rewrite Buffer_from_hex_hexdigits_odd.
Qed.

Lemma C7_witness :
  (2 ^ 260 <= 2 ^ 260 /\ generateNumericMessage (2 ^ 260) = Throw RangeError)
  /\ (2 ^ 256 <= 2 ^ 256 + 255 < 2 ^ 260
      /\ generateNumericMessage (2 ^ 256 + 255)
         = Ok (be_bytes 32 ((2 ^ 256 + 255) / 16))).
Proof.
  split.
  - split; [lia|]. apply (C7_generateNumericMessage_out_of_range (2 ^ 260)). lia.
  - split; [lia|]. apply (C7_generateNumericMessage_out_of_range (2 ^ 256 + 255)). lia.
Defined.

(** * Reduced coordinates *)

Section Reduced.

Variable ec : EC.
Hypothesis p_pos : 0 < curve_p ec.

Lemma dbl_reduced (P : point) : reduced ec (dbl ec P).
Proof.
  destruct P as [|x y]; [exact I|]. unfold dbl.
  destruct (redAdd ec y y =? 0); [exact I|].
  split; apply Z.mod_pos_bound; exact p_pos.
Qed.

Lemma add_reduced (P Q : point) :
  reduced ec P -> reduced ec Q -> reduced ec (add ec P Q).
Proof.
  intros HP HQ. destruct P as [|x1 y1], Q as [|x2 y2]; try assumption.
  unfold add.
  destruct (point_eqb (Aff x1 y1) (Aff x2 y2)); [apply dbl_reduced|].
  destruct (point_eqb (neg ec (Aff x1 y1)) (Aff x2 y2)); [exact I|].
  destruct (x1 =? x2); [exact I|].
  split; apply Z.mod_pos_bound; exact p_pos.
Qed.

Lemma neg_reduced (P : point) : reduced ec P -> reduced ec (neg ec P).
Proof.
  destruct P as [|x y]; [trivial|]. intros [Hx _].
  split; [exact Hx | apply Z.mod_pos_bound; exact p_pos].
Qed.

Lemma mul_pos_reduced (k : positive) (P : point) :
  reduced ec P -> reduced ec (mul_pos ec k P).
Proof.
  revert P. induction k as [k IH|k IH|]; intros P HP; cbn [mul_pos].
  - apply add_reduced; [assumption|]. apply IH. now apply add_reduced.
  - apply IH. now apply add_reduced.
  - assumption.
Qed.

Lemma mul_reduced (k : Z) (P : point) : reduced ec P -> reduced ec (mul ec k P).
Proof.
  intros HP. destruct k as [|q|q]; cbn [mul].
  - exact I.
  - now apply mul_pos_reduced.
  - apply neg_reduced. now apply mul_pos_reduced.
Qed.

Lemma mkpoint_reduced (x y : Z) : reduced ec (mkpoint ec x y).
Proof. split; apply Z.mod_pos_bound; exact p_pos. Qed.

Lemma G_reduced : reduced ec (G ec).
Proof. apply mkpoint_reduced. Qed.

End Reduced.

(** * The bytes of the x-coordinate that enter the hash *)

Lemma padHexString_hexdigits (x : Z) :
  0 <= x ->
  padHexString (toString16 x) = hexdigits (2 * RxLen x) x.
Proof.
  intros Hx. unfold padHexString, RxLen.
  rewrite length_toString16, toString16_nonneg by assumption.
  pose proof (hexlen_upper x Hx) as Hu.
  destruct (Nat.Even_or_Odd (hexlen x)) as [[h Hh]|[h Hh]].
  - rewrite Hh.
    replace ((2 * h) mod 2)%nat with 0%nat
      by (symmetry; rewrite Nat.mul_comm; apply Nat.Div0.mod_mul).
    cbn [Nat.eqb negb].
    replace (Nat.div2 (S (2 * h))) with h
      by (symmetry; apply (Nat.div2_succ_double h)).
    reflexivity.
  - rewrite Hh.
    replace ((2 * h + 1) mod 2)%nat with 1%nat.
    2:{ rewrite Nat.add_comm, Nat.mul_comm, Nat.Div0.mod_add. reflexivity. }
    cbn [Nat.eqb negb].
    replace (S (2 * h + 1)) with (2 * (S h))%nat by lia.
    rewrite Nat.div2_double.
    replace (2 * S h)%nat with (1 + (2 * h + 1))%nat by lia.
    rewrite <- Hh. rewrite <- hexdigits_pad by (split; assumption).
    reflexivity.
Qed.

Lemma RxBytes_be_bytes (x : Z) : 0 <= x -> RxBytes x = be_bytes (RxLen x) x.
Proof.
  intros Hx. unfold RxBytes.
  rewrite padHexString_hexdigits by assumption.
  apply Buffer_from_hex_hexdigits.
Qed.

Lemma length_RxBytes (x : Z) : 0 <= x -> length (RxBytes x) = RxLen x.
Proof. intros Hx. now rewrite RxBytes_be_bytes, length_be_bytes. Qed.

(** Below 2^248 the numeral has at most 62 digits: fewer than 32 bytes. *)
Lemma RxLen_short (x : Z) : 0 <= x < 2 ^ 248 -> (RxLen x < 32)%nat.
Proof.
  intros Hx. unfold RxLen.
  assert (hexlen x <= 62)%nat.
  { apply hexlen_le; [|lia]. change (16 ^ Z.of_nat 62) with (2 ^ 248). lia. }
  destruct (Nat.Even_or_Odd (S (hexlen x))) as [[h Hh]|[h Hh]]; rewrite Hh.
  - rewrite Nat.div2_double. lia.
  - replace (2 * h + 1)%nat with (S (2 * h)) by lia.
    rewrite Nat.div2_succ_double. lia.
Qed.

(** From 2^248 up to 2^256 the numeral has 63 or 64 digits: 32 bytes. *)
Lemma RxLen_full (x : Z) : 2 ^ 248 <= x < 2 ^ 256 -> RxLen x = 32%nat.
Proof.
  intros Hx. unfold RxLen.
  assert (hexlen x <= 64)%nat.
  { apply hexlen_le; [|lia]. change (16 ^ Z.of_nat 64) with (2 ^ 256). lia. }
  assert (63 <= hexlen x)%nat.
  { apply hexlen_ge. change (16 ^ Z.of_nat 62) with (2 ^ 248). lia. }
  assert (hexlen x = 63 \/ hexlen x = 64)%nat as [-> | ->] by lia; reflexivity.
Qed.

(** * [computeSignature] in closed form *)

Lemma pad64 (s : Z) :
  0 <= s < 2 ^ 256 ->
  (let numberString := toString16 s in
   let* numberString :=
     if (Z.of_nat (length numberString) <? 64)
     then let* zeros := Array_join (64 - Z.of_nat (length numberString) + 1) "0"%char in
          Ok (zeros ++ numberString)
     else Ok numberString in
   Ok (Buffer_from_hex numberString))
  = Ok (be_bytes 32 s).
Proof.
  intros Hs. cbv zeta.
  rewrite length_toString16, toString16_nonneg by lia.
  assert (Hl : (hexlen s <= 64)%nat).
  { apply hexlen_le; [|lia]. change (16 ^ Z.of_nat 64) with (2 ^ 256). lia. }
  destruct (Z.of_nat (hexlen s) <? 64) eqn:E.
  - replace (64 - Z.of_nat (hexlen s) + 1)
      with (Z.of_nat (64 - hexlen s) + 1) by lia.
    rewrite Array_join_zeros. cbn [bind].
    rewrite hexdigits_pad by (split; [lia | apply hexlen_upper; lia]).
    replace (64 - hexlen s + hexlen s)%nat with (2 * 32)%nat by lia.
    now rewrite Buffer_from_hex_hexdigits.
  - apply Z.ltb_ge in E. cbn [bind].
    replace (hexlen s) with (2 * 32)%nat by lia.
    now rewrite Buffer_from_hex_hexdigits.
Qed.

Section SignClosedForm.

Variable ec : EC.
Hypothesis n_range : 0 < curve_n ec < 2 ^ 256.

Lemma computeSignature_Inf (privateKey oneTimeSigningKey message : Buffer) :
  mul ec (be_to_Z oneTimeSigningKey) (G ec) = Inf ->
  computeSignature ec privateKey oneTimeSigningKey message = Throw TypeError.
Proof.
  intros HR. unfold computeSignature.
  rewrite !BN_of_hex_Buffer, HR. reflexivity.
Qed.

Lemma computeSignature_Aff (privateKey oneTimeSigningKey message : Buffer) (x y : Z) :
  mul ec (be_to_Z oneTimeSigningKey) (G ec) = Aff x y ->
  computeSignature ec privateKey oneTimeSigningKey message
  = Ok (be_bytes 32
          (euclideanMod
             (be_to_Z oneTimeSigningKey - challenge x message * be_to_Z privateKey)
             (curve_n ec))).
Proof.
  intros HR. unfold computeSignature.
  rewrite !BN_of_hex_Buffer, HR. cbn [getX bind].
  unfold sha256_hex. rewrite BN_of_hex_Buffer.
  fold (RxBytes x). fold (challenge x message).
  apply pad64.
  pose proof (euclideanMod_bound
                (be_to_Z oneTimeSigningKey - challenge x message * be_to_Z privateKey)
                (curve_n ec) ltac:(lia)).
  lia.
Qed.

End SignClosedForm.

(** * Facts about the constants of secp256k1 *)

Lemma secp256k1_p_pos : 0 < curve_p secp256k1.
Proof. reflexivity. Qed.

Lemma secp256k1_p_lt : curve_p secp256k1 < 2 ^ 256.
Proof. reflexivity. Qed.

Lemma secp256k1_n_range : 0 < curve_n secp256k1 < 2 ^ 256.
Proof. split; reflexivity. Qed.

Lemma secp256k1_byteLength : BN.byteLength (curve_p secp256k1) = 32%nat.
Proof. reflexivity. Qed.

(** * Decoding public keys *)

(** Equations between residues are decided in the ring [Zmod p]. *)
Ltac push_of_Z :=
  repeat rewrite ?Zmod.of_Z_add, ?Zmod.of_Z_mul, ?Zmod.of_Z_sub, ?Zmod.of_Z_opp,
                 ?Zmod.of_Z_mod.

Ltac mod_ring p :=
  apply (proj1 (@Zmod.of_Z_inj p _ _)); push_of_Z; ring.

Section Decode.

Variable ec : EC.
Hypothesis p_pos : 0 < curve_p ec.

Add Ring Zmod_p_ring : (Zmod.ring_theory (curve_p ec)).

Lemma redNeg_sqr (y : Z) :
  (redNeg ec y * redNeg ec y) mod curve_p ec = (y * y) mod curve_p ec.
Proof.
  unfold redNeg. mod_ring (curve_p ec).
Qed.

Lemma pointFromX_on_curve (x : Z) (odd : bool) (P : point) :
  pointFromX ec x odd = Ok P -> P <> Inf /\ on_curve ec P.
Proof.
  unfold pointFromX.
  set (x' := x mod curve_p ec).
  set (y2 := redAdd ec _ _).
  set (y := redSqrt ec y2).
  destruct (redSub ec (redSqr ec y) y2 =? 0) eqn:E; cbn [negb]; [|discriminate].
  intros H. injection H as <-. split; [discriminate|].
  apply Z.eqb_eq in E.
  assert (Hx : 0 <= x' < curve_p ec) by (apply Z.mod_pos_bound; exact p_pos).
  assert (Hy : 0 <= y < curve_p ec).
  { unfold y, redSqrt. destruct (y2 =? 0); [lia|].
    unfold redPow. rewrite Zpow_mod_correct by lia. apply Z.mod_pos_bound; exact p_pos. }
  assert (Hy2 : (y * y) mod curve_p ec
                = (x' * x' * x' + curve_a ec * x' + curve_b ec) mod curve_p ec).
  { unfold redSub, redSqr in E.
    assert (E' : (y * y) mod curve_p ec = y2 mod curve_p ec).
    { apply Z.mod_divide in E; [|lia]. destruct E as [c Hc].
      rewrite <- (Z.mod_mod (y * y)) by lia.
      replace ((y * y) mod curve_p ec) with (y2 + c * curve_p ec) by lia.
      now rewrite Z.mod_add by lia. }
    rewrite E'. unfold y2, redAdd, redMul, redSqr. rewrite Z.mod_mod by lia.
    mod_ring (curve_p ec). }
  cbn [on_curve].
  destruct ((odd && negb (BN.isOdd y)) || (negb odd && BN.isOdd y)).
  - split; [split; [exact Hx | apply Z.mod_pos_bound; exact p_pos]|].
    now rewrite redNeg_sqr.
  - split; [split; assumption | assumption].
Qed.

(** [pointFromX] reduces its argument, and whether it succeeds does not
    depend on the parity asked for. *)
Lemma pointFromX_mod (x : Z) (odd : bool) :
  pointFromX ec (x mod curve_p ec) odd = pointFromX ec x odd.
Proof.
  unfold pointFromX. now rewrite Z.mod_mod by lia.
Qed.

Lemma pointFromX_abscissa (x : Z) (odd : bool) (P : point) :
  pointFromX ec x odd = Ok P -> exists y, P = Aff (x mod curve_p ec) y.
Proof.
  unfold pointFromX. cbv zeta.
  destruct (negb _); [discriminate|].
  intros H. injection H as <-. eexists. reflexivity.
Qed.

Lemma pointFromX_flag (x : Z) (odd odd' : bool) (P : point) :
  pointFromX ec x odd = Ok P -> exists P', pointFromX ec x odd' = Ok P'.
Proof.
  unfold pointFromX. cbv zeta.
  destruct (negb _); [discriminate|].
  intros _. eexists. reflexivity.
Qed.

Lemma pointFromX_error (x : Z) (odd : bool) (e : exn) :
  pointFromX ec x odd = Throw e -> e = Error_invalid_point.
Proof.
  unfold pointFromX.
  destruct (negb _); [intros H; now injection H | discriminate].
Qed.

(** Whatever [decodePoint] raises on a key of the compressed length is an
    invalid-point error. *)
Lemma decodePoint_error (bytes : Buffer) (e : exn) :
  length bytes = S (BN.byteLength (curve_p ec)) ->
  (0 < BN.byteLength (curve_p ec))%nat ->
  decodePoint ec bytes = Throw e -> InvalidPoint e.
Proof.
  intros Hlen Hpos. unfold decodePoint. destruct bytes as [|b0 rest]; [discriminate|].
  cbn [length] in Hlen. injection Hlen as Hlen.
  replace (length rest =? 2 * BN.byteLength (curve_p ec))%nat with false
    by (symmetry; apply Nat.eqb_neq; lia).
  rewrite andb_false_r.
  destruct (_ && _).
  - intros H. apply pointFromX_error in H. now left.
  - intros H. injection H as <-. now right.
Qed.

(** A compressed key that decodes, decodes to a point of the curve. *)
Lemma decodePoint_compressed (bytes : Buffer) (P : point) :
  length bytes = S (BN.byteLength (curve_p ec)) ->
  (0 < BN.byteLength (curve_p ec))%nat ->
  decodePoint ec bytes = Ok P -> P <> Inf /\ on_curve ec P.
Proof.
  intros Hlen Hpos. unfold decodePoint. destruct bytes as [|b0 rest]; [discriminate|].
  cbn [length] in Hlen. injection Hlen as Hlen.
  replace (length rest =? 2 * BN.byteLength (curve_p ec))%nat with false
    by (symmetry; apply Nat.eqb_neq; lia).
  rewrite andb_false_r.
  destruct (_ && _); [apply pointFromX_on_curve | discriminate].
Qed.

End Decode.

Lemma mul_G_coords (k x y : Z) :
  mul secp256k1 k (G secp256k1) = Aff x y ->
  0 <= x < curve_p secp256k1.
Proof.
  intros H.
  pose proof (mul_reduced secp256k1 secp256k1_p_pos k (G secp256k1)
                (G_reduced secp256k1 secp256k1_p_pos)) as Hr.
  rewrite H in Hr. exact (proj1 Hr).
Qed.

(** C4: the private key [a_degenerate] makes [k - e a] a multiple of [n]
    for the nonce 1 and the all-zero message; [computeSignature] raises
    nothing and returns the 32 bytes of [n] itself. *)
Theorem C4_computeSignature_degenerate_returns :
  let e := challenge (curve_gx secp256k1) zero32 in
  (1 - e * be_to_Z a_degenerate) mod curve_n secp256k1 = 0
  /\ computeSignature secp256k1 a_degenerate (be_bytes 32 1) zero32
     = Ok (be_bytes 32 (curve_n secp256k1)).
Proof. vm_compute. split; reflexivity. Qed.

(** * Primality by certificate *)

Lemma trial_sound (fuel : nat) (d q : Z) :
  0 < d -> trial fuel d q = true ->
  forall d', d <= d' -> d' * d' <= q -> q mod d' <> 0.
Proof.
  revert d. induction fuel as [|f IH]; intros d Hd; cbn [trial]; [discriminate|].
  destruct (q <? d * d) eqn:E1.
  - intros _ d' Hle Hsq. apply Z.ltb_lt in E1. nia.
  - destruct (q mod d =? 0) eqn:E2; [discriminate|].
    intros Ht d' Hle Hsq. apply Z.eqb_neq in E2.
    destruct (Z.eq_dec d d') as [<-|Hne]; [exact E2|].
    apply (IH (d + 1)); try assumption; lia.
Qed.

(** A proper divisor comes with a divisor whose square is at most [q]. *)
Lemma small_divisor (q n : Z) :
  1 < n < q -> (n | q) -> exists d, 1 < d /\ d * d <= q /\ (d | q).
Proof.
  intros Hn [m Hm].
  assert (Hm1 : 1 < m) by nia.
  destruct (Z.le_gt_cases n m) as [Hle|Hgt].
  - exists n. repeat split; [lia | nia | exists m; exact Hm].
  - exists m. repeat split; [lia | nia | exists n; lia].
Qed.

Lemma prime_small_sound (q : Z) : prime_small q = true -> Z.prime q.
Proof.
  unfold prime_small. intros H. apply andb_prop in H. destruct H as [H1 H2].
  apply Z.ltb_lt in H1. split; [exact H1|].
  intros n Hn Hdiv.
  destruct (small_divisor q n Hn Hdiv) as (d & Hd1 & Hd2 & Hd3).
  apply (trial_sound _ 2 q ltac:(lia) H2 d); [lia | exact Hd2 |].
  apply Z.mod_divide; [lia | exact Hd3].
Qed.

Lemma divisor_search (N k : Z) :
  0 <= k ->
  (exists n, 1 < n < k /\ (n | N)) \/ (forall n, 1 < n < k -> ~ (n | N)).
Proof.
  intros Hk. pattern k. apply natlike_ind; [| |exact Hk].
  - right. intros n Hn. lia.
  - intros x Hx [(n & Hn & Hd)|Hnone].
    + left. exists n. split; [lia | exact Hd].
    + destruct (Z_lt_le_dec 1 x) as [H1|H1].
      * destruct (Z.eq_dec (N mod x) 0) as [E|E].
        -- left. exists x. split; [lia|]. apply Z.mod_divide; [lia | exact E].
        -- right. intros n Hn Hd.
           destruct (Z.eq_dec n x) as [->|Hne].
           ++ apply E. apply Z.mod_divide; [lia | exact Hd].
           ++ apply (Hnone n); [lia | exact Hd].
      * right. intros n Hn. lia.
Qed.

Lemma prime_divisor (N : Z) : 1 < N -> exists r, Z.prime r /\ (r | N).
Proof.
  intros HN.
  assert (H : forall k, 0 <= k -> forall M, 1 < M <= k -> exists r, Z.prime r /\ (r | M)).
  { intros k Hk. pattern k. apply natlike_ind; [| |exact Hk].
    - intros M HM. lia.
    - intros x Hx IH M HM.
      destruct (divisor_search M M ltac:(lia)) as [(n & Hn & Hd)|Hnone].
      + destruct (IH n ltac:(lia)) as (r & Hr & Hrn).
        exists r. split; [exact Hr|]. now apply Z.divide_trans with n.
      + exists M. split; [split; [lia | exact Hnone] | apply Z.divide_refl]. }
  apply (H N); lia.
Qed.

Lemma pow_mod_1 (a e k m : Z) :
  0 <= e -> 0 <= k -> 1 < m -> a ^ e mod m = 1 -> a ^ (e * k) mod m = 1.
Proof.
  intros He Hk Hm H.
  rewrite Z.pow_mul_r by assumption.
  rewrite <- Z.mod_pow_l, H, Z.pow_1_l by assumption.
  apply Z.mod_1_l. exact Hm.
Qed.

(** The heart of Pocklington's criterion: a prime factor [r] of [N] is 1
    modulo each certified prime [q]. *)
Lemma pock_step (N q r : Z) :
  1 < N -> Zpow_mod 2 (N - 1) N = 1 -> pock_item N q = true ->
  Z.prime q -> Z.prime r -> (r | N) -> (q | r - 1).
Proof.
  intros HN Hfull Hitem Hq Hr HrN.
  unfold pock_item in Hitem. apply andb_prop in Hitem. destruct Hitem as [Hdiv Hg].
  apply Z.eqb_eq in Hdiv, Hg.
  rewrite Zpow_mod_correct in Hfull, Hg by lia.
  pose proof (Z.prime_ge_2 _ Hq) as Hq2. pose proof (Z.prime_ge_2 _ Hr) as Hr2.
  apply Z.mod_divide in Hdiv; [|lia].
  set (M := (N - 1) / q) in *.
  assert (HM : N - 1 = q * M).
  { destruct Hdiv as [c Hc]. unfold M. rewrite Hc, Z.div_mul by lia. lia. }
  assert (HM0 : 0 <= M) by nia.
  (* powers of 2 modulo r *)
  assert (Hmodr : forall x, x mod N mod r = x mod r).
  { intros x. destruct HrN as [c Hc].
    rewrite (Z.div_mod x N) at 2 by lia. rewrite Hc.
    replace (c * r * (x / (c * r)) + x mod (c * r))
      with (x mod (c * r) + (c * (x / (c * r))) * r) by ring.
    now rewrite Z.mod_add by lia. }
  assert (H1 : 2 ^ (N - 1) mod r = 1).
  { rewrite <- Hmodr, Hfull. apply Z.mod_1_l. lia. }
  assert (H2nz : 2 mod r <> 0).
  { intros E. apply Z.mod_divide in E; [|lia].
    assert (E' : 2 ^ (N - 1) mod r = 0).
    { apply Z.mod_divide; [lia|].
      replace (N - 1) with (Z.succ (N - 2)) by lia.
      rewrite Z.pow_succ_r by lia. now apply Z.divide_mul_l. }
    lia. }
  pose proof (Z.fermat_nz r 2 Hr H2nz) as Hf.
  destruct (Z.eq_dec ((r - 1) mod q) 0) as [Hyes|Hno];
    [apply Z.mod_divide; [lia | exact Hyes] | exfalso].
  rewrite Z.mod_divide in Hno by lia.
  assert (Hco : Z.coprime q (r - 1)) by (now apply Z.coprime_prime_l).
  (* 2 ^ M is 1 modulo r *)
  assert (HMr : 2 ^ M mod r = 1).
  { destruct (Z.eq_dec r 2) as [->|Hr3].
    - exfalso. apply H2nz. reflexivity.
    - set (u := Z.invmod q (r - 1)).
      assert (Hu : u * q mod (r - 1) = 1) by (apply Z.invmod_coprime; [lia | exact Hco]).
      assert (Hu0 : 0 <= u) by (unfold u, Z.invmod; apply Z.mod_pos_bound; lia).
      set (v := u * q / (r - 1)).
      assert (Huv : u * q = (r - 1) * v + 1).
      { unfold v. pose proof (Z.div_mod (u * q) (r - 1) ltac:(lia)). lia. }
      assert (Hv0 : 0 <= v) by (unfold v; apply Z.div_pos; nia).
      assert (E1 : 2 ^ (M * (u * q)) mod r = 1).
      { replace (M * (u * q)) with ((N - 1) * u) by (rewrite HM; ring).
        apply pow_mod_1; try lia. }
      rewrite Huv in E1.
      replace (M * ((r - 1) * v + 1)) with ((r - 1) * (M * v) + M) in E1 by ring.
      rewrite Z.pow_add_r in E1 by nia.
      rewrite <- Z.mul_mod_idemp_l in E1 by lia.
      rewrite (pow_mod_1 2 (r - 1) (M * v) r) in E1 by (try nia; try lia; exact Hf).
      rewrite Z.mul_1_l in E1. exact E1. }
  (* so r divides the gcd *)
  assert (Hd1 : (r | 2 ^ M mod N - 1)).
  { apply Z.mod_divide; [lia|].
    rewrite <- Zminus_mod_idemp_l, Hmodr, HMr. reflexivity. }
  pose proof (Z.gcd_greatest _ _ _ Hd1 HrN) as Hg1.
  rewrite Hg in Hg1. apply Z.divide_1_r in Hg1. lia.
Qed.

Lemma divide_mul_coprime (c d m : Z) :
  (c | m) -> (d | m) -> Z.gcd d c = 1 -> (c * d | m).
Proof.
  intros [k Hk] Hd Hg. subst m.
  rewrite Z.mul_comm in Hd. apply Z.gauss in Hd; [|exact Hg].
  destruct Hd as [j Hj]. exists j. rewrite Hj. ring.
Qed.

Lemma product_divides (qs : list Z) (m : Z) :
  pairwise_coprime qs = true ->
  Forall (fun q => (q | m)) qs -> (fold_right Z.mul 1 qs | m).
Proof.
  induction qs as [|q qs IH]; intros Hpc Hall.
  - apply Z.divide_1_l.
  - cbn [pairwise_coprime] in Hpc. apply andb_prop in Hpc. destruct Hpc as [Hg Hpc].
    apply Z.eqb_eq in Hg. inversion Hall as [|? ? Hq Hrest]; subst.
    cbn [fold_right]. rewrite Z.mul_comm. apply divide_mul_coprime.
    + now apply IH.
    + exact Hq.
    + exact Hg.
Qed.

Lemma product_pos (qs : list Z) : Forall Z.prime qs -> 0 < fold_right Z.mul 1 qs.
Proof.
  induction 1 as [|q qs Hq _ IH]; cbn [fold_right]; [lia|].
  pose proof (Z.prime_ge_2 _ Hq). nia.
Qed.

Theorem pocklington_sound (N : Z) (qs : list Z) :
  pocklington N qs = true -> Forall Z.prime qs -> Z.prime N.
Proof.
  unfold pocklington. intros H Hprimes.
  repeat (apply andb_prop in H; destruct H as [H ?]).
  match goal with H : (1 <? N) = true |- _ => apply Z.ltb_lt in H; rename H into HN end.
  match goal with H : (Zpow_mod 2 (N - 1) N =? 1) = true |- _ =>
    apply Z.eqb_eq in H; rename H into Hfull end.
  match goal with H : (N <? _) = true |- _ => apply Z.ltb_lt in H; rename H into Hbig end.
  match goal with H : forallb _ _ = true |- _ => rename H into Hitems end.
  match goal with H : pairwise_coprime _ = true |- _ => rename H into Hpc end.
  pose proof (product_pos qs Hprimes) as HFpos.
  set (F := fold_right Z.mul 1 qs) in *.
  assert (Hr : forall r, Z.prime r -> (r | N) -> F + 1 <= r).
  { intros r Hr HrN.
    assert (HF : (F | r - 1)).
    { apply product_divides; [exact Hpc|].
      rewrite Forall_forall. intros q Hin.
      apply (pock_step N q r); try assumption.
      - rewrite forallb_forall in Hitems. now apply Hitems.
      - rewrite Forall_forall in Hprimes. now apply Hprimes. }
    pose proof (Z.prime_ge_2 _ Hr).
    destruct HF as [c Hc].
    assert (0 < c) by nia. nia. }
  split; [exact HN|].
  intros n Hn Hdiv.
  destruct (small_divisor N n Hn Hdiv) as (d & Hd1 & Hd2 & Hd3).
  destruct (prime_divisor d Hd1) as (r & Hrp & Hrd).
  assert (HrN : (r | N)) by (now apply Z.divide_trans with d).
  pose proof (Hr r Hrp HrN) as Hge.
  assert (r <= d) by (apply Z.divide_pos_le; [lia | exact Hrd]).
  pose proof (Z.prime_ge_2 _ Hrp).
  nia.
Qed.

(** ** The primes of secp256k1 *)

Ltac small_prime := apply prime_small_sound; vm_compute; reflexivity.
Ltac by_pocklington qs :=
  apply (pocklington_sound _ qs);
  [vm_compute; reflexivity | repeat first [apply Forall_nil | apply Forall_cons]].

Lemma prime_461 : Z.prime 461. Proof. small_prime. Qed.
Lemma prime_85831 : Z.prime 85831. Proof. small_prime. Qed.
Lemma prime_96557 : Z.prime 96557. Proof. small_prime. Qed.
Lemma prime_305873 : Z.prime 305873. Proof. small_prime. Qed.
Lemma prime_1627771 : Z.prime 1627771. Proof. small_prime. Qed.
Lemma prime_4681609 : Z.prime 4681609. Proof. small_prime. Qed.
Lemma prime_7240687 : Z.prime 7240687. Proof. small_prime. Qed.
Lemma prime_107590001 : Z.prime 107590001. Proof. small_prime. Qed.

Lemma prime_r39 : Z.prime 297159362677.
Proof.
  by_pocklington [461; 1627771]; [exact prime_461 | exact prime_1627771].
Qed.

Lemma prime_r57 : Z.prime 107361793816595537.
Proof.
  by_pocklington [85831; 4681609]; [exact prime_85831 | exact prime_4681609].
Qed.

Lemma prime_r95 : Z.prime 29047611873442575647497758179.
Proof.
  by_pocklington [305873; 297159362677]; [exact prime_305873 | exact prime_r39].
Qed.

Lemma prime_r109 : Z.prime 341948486974166000522343609283189.
Proof.
  by_pocklington (29047611873442575647497758179 :: nil); exact prime_r95.
Qed.

Lemma prime_r128 : Z.prime 255515944373312847190720520512484175977.
Proof.
  by_pocklington [96557; 7240687; 107590001];
    [exact prime_96557 | exact prime_7240687 | exact prime_107590001].
Qed.

Lemma prime_q237 :
  Z.prime 205115282021455665897114700593932402728804164701536103180137503955397371.
Proof.
  by_pocklington (255515944373312847190720520512484175977 :: nil); exact prime_r128.
Qed.

(** The field prime [2^256 - 2^32 - 977]. *)
Theorem prime_secp256k1_p :
  Z.prime 115792089237316195423570985008687907853269984665640564039457584007908834671663.
Proof.
  by_pocklington
    (205115282021455665897114700593932402728804164701536103180137503955397371 :: nil);
    exact prime_q237.
Qed.

(** The order of the generator. *)
Theorem prime_secp256k1_n :
  Z.prime 115792089237316195423570985008687907852837564279074904382605163141518161494337.
Proof.
  by_pocklington [107361793816595537; 341948486974166000522343609283189];
    [exact prime_r57 | exact prime_r109].
Qed.

(** * The group law of [y^2 = x^3 + b] over a prime field *)

Section Discriminate.

Context (p : Z) (Hp : Z.prime p) (Hbig : 2 ^ 64 < p).

(** ** Integer constants that [nsatz] leaves to discriminate *)

Lemma IPR_of_Z (q : positive) :
  IPR (Ro:=Ring_ops_Zmod p) q = Zmod.of_Z p (Z.pos q).
Proof.
  induction q as [q IH|q IH|].
  - destruct q as [q'|q'|].
    + cbn [IPR] in *. rewrite IH. unfold R2.
      change (Z.pos (q'~1)~1) with (1 + (1 + 1) * Z.pos q'~1).
      now rewrite Zmod.of_Z_add, Zmod.of_Z_mul, Zmod.of_Z_add, !Zmod.of_Z_1.
    + cbn [IPR] in *. rewrite IH. unfold R2.
      change (Z.pos (q'~0)~1) with (1 + (1 + 1) * Z.pos q'~0).
      now rewrite Zmod.of_Z_add, Zmod.of_Z_mul, Zmod.of_Z_add, !Zmod.of_Z_1.
    + cbn [IPR]. change (Z.pos 3) with (1 + (1 + 1)).
      now rewrite !Zmod.of_Z_add, !Zmod.of_Z_1.
  - destruct q as [q'|q'|].
    + cbn [IPR] in *. rewrite IH. unfold R2.
      change (Z.pos (q'~1)~0) with ((1 + 1) * Z.pos q'~1).
      now rewrite Zmod.of_Z_mul, Zmod.of_Z_add, !Zmod.of_Z_1.
    + cbn [IPR] in *. rewrite IH. unfold R2.
      change (Z.pos (q'~0)~0) with ((1 + 1) * Z.pos q'~0).
      now rewrite Zmod.of_Z_mul, Zmod.of_Z_add, !Zmod.of_Z_1.
    + cbn [IPR]. change (Z.pos 2) with (1 + 1).
      now rewrite !Zmod.of_Z_add, !Zmod.of_Z_1.
  - cbn [IPR]. now rewrite Zmod.of_Z_1.
Qed.

Lemma IZR1_of_Z (z : Z) : IZR1 (Ro:=Ring_ops_Zmod p) z = Zmod.of_Z p z.
Proof.
  destruct z as [|q|q]; cbn [IZR1].
  - now rewrite Zmod.of_Z_0.
  - apply IPR_of_Z.
  - rewrite IPR_of_Z. change (Z.neg q) with (- Z.pos q). now rewrite Zmod.of_Z_opp.
Qed.

(** A nonzero integer below 2^64 in absolute value is nonzero in the field. *)
Lemma discr_nz (c : Z) :
  c <> 0 -> Z.abs c < 2 ^ 64 -> ~ IZR1 (Ro:=Ring_ops_Zmod p) c = Zmod.zero.
Proof.
  intros Hc Hlt. rewrite IZR1_of_Z. apply Zmod.of_Z_nz.
  intros E. apply Z.mod_divide in E; [|lia].
  apply Z.divide_abs_r in E. apply Z.divide_pos_le in E; lia.
Qed.

Lemma one_neq_zero_p : (Zmod.one : Zmod p) <> Zmod.zero.
Proof. apply Zmod.one_neq_zero. lia. Qed.

End Discriminate.

Ltac discr :=
  cbv [interpret3]; eapply discr_nz; [eassumption | discriminate | reflexivity].

Ltac fnsatz := solve [nsatz; try discr].
Ltac fnsatz1 :=
  match goal with
  | |- @eq ?T _ _ =>
      solve [nsatz with radicalmax:=1%N strategy:=1%Z
               parameters:=(@nil T) variables:=(@nil T); try discr]
  end.

Ltac des :=
  unfold chordx, tanx in *;
  repeat match goal with H : _ /\ _ |- _ => destruct H end.

Ltac ffalse :=
  exfalso; eapply one_neq_zero_p; [eassumption | fnsatz].

Section FieldAlgebra.

Context (p : Z) (Hp : Z.prime p) (Hbig : 2 ^ 64 < p).
Variable b : Zmod p.
Hypothesis Hb : b <> Zmod.zero.

Local Abbreviation F := (Zmod p).
#[local] Instance Zmod_p_domain : Integral_domain (Rr:=Ring_Zmod p) :=
  Integral_domain_Zmod p Hp.

Local Open Scope Zmod_scope.

Lemma b_inv : Zmod.inv b * b = Zmod.one.
Proof. now apply Zmod.mul_inv_same_l_prime. Qed.

Ltac desb := des; pose proof b_inv; generalize dependent (Zmod.inv b); intros.

(** ** Closure *)

Lemma chord_on_curve x1 y1 x2 y2 i c nx ny :
  y1 * y1 = x1 * x1 * x1 + b -> y2 * y2 = x2 * x2 * x2 + b ->
  chordx x1 y1 x2 y2 i c nx ny ->
  ny * ny = nx * nx * nx + b.
Proof using All. intros. des. fnsatz. Qed.

Lemma tan_on_curve x y i c nx ny :
  y * y = x * x * x + b -> tanx x y i c nx ny ->
  ny * ny = nx * nx * nx + b.
Proof using All. intros. des. fnsatz. Qed.

(** ** The cancellation law, case by case *)

Lemma cancel_chord_chord x1 y1 x2 y2 i c x3 y3 i' c' x4 y4 :
  y1 * y1 = x1 * x1 * x1 + b -> y2 * y2 = x2 * x2 * x2 + b ->
  chordx x1 y1 x2 y2 i c x3 y3 ->
  chordx x3 y3 x2 (Zmod.opp y2) i' c' x4 y4 ->
  x4 = x1 /\ y4 = y1.
Proof using All. intros. des. split; fnsatz. Qed.

Lemma cancel_chord_tan x1 y1 x2 y2 i c x3 y3 i' c' x4 y4 :
  y1 * y1 = x1 * x1 * x1 + b -> y2 * y2 = x2 * x2 * x2 + b ->
  chordx x1 y1 x2 y2 i c x3 y3 ->
  x3 = x2 -> y3 = Zmod.opp y2 ->
  tanx x2 (Zmod.opp y2) i' c' x4 y4 ->
  x4 = x1 /\ y4 = y1.
Proof using All. intros. des. split; fnsatz. Qed.

Lemma chord_not_opp_order2 x1 y1 x2 y2 i c x3 y3 :
  y1 * y1 = x1 * x1 * x1 + b -> y2 * y2 = x2 * x2 * x2 + b ->
  chordx x1 y1 x2 y2 i c x3 y3 ->
  x3 = x2 -> y3 = Zmod.opp y2 -> y2 + y2 = Zmod.zero -> False.
Proof using All. intros. desb. ffalse. Qed.

Lemma chord_not_same x1 y1 x2 y2 i c x3 y3 j :
  y1 * y1 = x1 * x1 * x1 + b -> y2 * y2 = x2 * x2 * x2 + b ->
  chordx x1 y1 x2 y2 i c x3 y3 ->
  x3 = x2 -> y3 = y2 -> j * (y2 + y2) = Zmod.one -> False.
Proof using All. intros. desb. ffalse. Qed.

Lemma cancel_tan_chord x1 y1 i c x3 y3 i' c' x4 y4 :
  y1 * y1 = x1 * x1 * x1 + b ->
  tanx x1 y1 i c x3 y3 ->
  chordx x3 y3 x1 (Zmod.opp y1) i' c' x4 y4 ->
  x4 = x1 /\ y4 = y1.
Proof using All. intros. des. split; fnsatz. Qed.

Lemma cancel_tan_tan x1 y1 i c x3 y3 i' c' x4 y4 :
  y1 * y1 = x1 * x1 * x1 + b ->
  tanx x1 y1 i c x3 y3 ->
  x3 = x1 -> y3 = Zmod.opp y1 ->
  tanx x1 (Zmod.opp y1) i' c' x4 y4 ->
  x4 = x1 /\ y4 = y1.
Proof using All. intros. des. split; fnsatz. Qed.

Lemma tan_not_same x1 y1 i c x3 y3 :
  y1 * y1 = x1 * x1 * x1 + b ->
  tanx x1 y1 i c x3 y3 ->
  x3 = x1 -> y3 = y1 -> False.
Proof using All. intros. desb. ffalse. Qed.

(** ** Associativity on generic triples *)

Lemma assoc_chords x1 y1 x2 y2 x3 y3
      i12 c12 xs ys i23 c23 xt yt i1t c1t xl yl is3 cs3 xr yr :
  y1 * y1 = x1 * x1 * x1 + b -> y2 * y2 = x2 * x2 * x2 + b ->
  y3 * y3 = x3 * x3 * x3 + b ->
  chordx x1 y1 x2 y2 i12 c12 xs ys ->
  chordx x2 y2 x3 y3 i23 c23 xt yt ->
  chordx x1 y1 xt yt i1t c1t xl yl ->
  chordx xs ys x3 y3 is3 cs3 xr yr ->
  xl = xr /\ yl = yr.
Proof using All. intros. des. split; fnsatz. Qed.

Lemma assoc_tan_chords x1 y1 x3 y3
      i11 c11 xs ys i13 c13 xt yt i1t c1t xl yl is3 cs3 xr yr :
  y1 * y1 = x1 * x1 * x1 + b -> y3 * y3 = x3 * x3 * x3 + b ->
  tanx x1 y1 i11 c11 xs ys ->
  chordx x1 y1 x3 y3 i13 c13 xt yt ->
  chordx x1 y1 xt yt i1t c1t xl yl ->
  chordx xs ys x3 y3 is3 cs3 xr yr ->
  xl = xr /\ yl = yr.
Proof using All. intros. des. split; fnsatz. Qed.

Lemma assoc_tan_tan x1 y1
      i11 c11 xs ys i1s c1s xt yt i1t c1t xl yl iss css xr yr :
  y1 * y1 = x1 * x1 * x1 + b ->
  tanx x1 y1 i11 c11 xs ys ->
  chordx x1 y1 xs ys i1s c1s xt yt ->
  chordx x1 y1 xt yt i1t c1t xl yl ->
  tanx xs ys iss css xr yr ->
  xl = xr /\ yl = yr.
Proof using All. intros. des. split; fnsatz1. Qed.


Lemma inv_unique (d i : F) : i * d = Zmod.one -> Zmod.inv d = i.
Proof.
  intros H.
  assert (Hd : d <> Zmod.zero).
  { intros ->. apply (one_neq_zero_p p Hbig). rewrite <- H. apply Zmod.mul_0_r. }
  pose proof (Zmod.mul_inv_same_l_prime d Hp Hd) as Hi.
  generalize dependent (Zmod.inv d). intros j Hj. fnsatz.
Qed.

End FieldAlgebra.

Section FieldGroup.

Context (p : Z) (Hp : Z.prime p) (Hbig : 2 ^ 64 < p).
Variable b : Zmod p.
Hypothesis Hb : b <> Zmod.zero.

Local Abbreviation F := (Zmod p).
#[local] Instance Zmod_p_domain' : Integral_domain (Rr:=Ring_Zmod p) :=
  Integral_domain_Zmod p Hp.

Local Open Scope Zmod_scope.

(** ** Reading [fadd] through the relations *)

Lemma fadd_relP (x1 y1 x2 y2 : F) :
  fadd_rel x1 y1 x2 y2 (fadd (FAff x1 y1) (FAff x2 y2)).
Proof.
  cbv beta iota zeta delta [fadd fdbl].
  destruct (Zmod.eqb_spec x1 x2) as [Ex|Ex]; cbn [andb].
  - destruct (Zmod.eqb_spec y1 y2) as [Ey|Ey].
    + destruct (Zmod.eqb_spec (y1 + y1) Zmod.zero) as [E0|E0].
      * now apply FA_dbl_inf.
      * eapply FA_dbl; try assumption.
        repeat split. now apply Zmod.mul_inv_same_l_prime.
    + now apply FA_opp.
  - eapply FA_chord. repeat split.
    apply Zmod.mul_inv_same_l_prime; [exact Hp|].
    intros E. apply Ex. now apply Zmod.sub_eq_0_iff.
Qed.

(** Three outcomes, with the equation each one gives. *)
Lemma fadd_cases (x1 y1 x2 y2 : F) :
  fadd (FAff x1 y1) (FAff x2 y2) = FInf
  \/ (exists i c nx ny,
        (x1 = x2 /\ y1 = y2) /\ tanx x1 y1 i c nx ny
        /\ fadd (FAff x1 y1) (FAff x2 y2) = FAff nx ny)
  \/ (exists i c nx ny,
        chordx x1 y1 x2 y2 i c nx ny
        /\ fadd (FAff x1 y1) (FAff x2 y2) = FAff nx ny).
Proof.
  destruct (fadd_relP x1 y1 x2 y2) as [? ? ?|i c nx ny ? ? ?|? ?|i c nx ny ?].
  - now left.
  - right. left. exists i, c, nx, ny. auto.
  - now left.
  - right. right. exists i, c, nx, ny. auto.
Qed.

Lemma fadd_0_r (P : fpoint p) : fadd P FInf = P.
Proof. now destruct P. Qed.

Lemma fadd_0_l (P : fpoint p) : fadd FInf P = P.
Proof. reflexivity. Qed.

Lemma fadd_on_curve (P Q : fpoint p) :
  fon_curve b P -> fon_curve b Q -> fon_curve b (fadd P Q).
Proof using All.
  destruct P as [|x1 y1], Q as [|x2 y2]; try (intros; assumption).
  cbn [fon_curve]. intros H1 H2.
  destruct (fadd_relP x1 y1 x2 y2) as [? ? ?|i c nx ny ? ? ?|? ?|i c nx ny ?];
    cbn [fon_curve]; try exact I.
  - now apply (tan_on_curve p Hp Hbig b Hb x1 y1 i c).
  - now apply (chord_on_curve p Hp Hbig b Hb x1 y1 x2 y2 i c).
Qed.

Lemma fneg_on_curve (P : fpoint p) : fon_curve b P -> fon_curve b (fneg P).
Proof using All.
  destruct P as [|x y]; [trivial|]. cbn [fon_curve fneg]. intros H. fnsatz.
Qed.

Lemma fneg_fneg (P : fpoint p) : fneg (fneg P) = P.
Proof using All.
  destruct P as [|x y]; [reflexivity|]. cbn [fneg]. f_equal. apply Zmod.opp_opp.
Qed.

Lemma same_x_cases (x y1 y2 : F) :
  y1 * y1 = x * x * x + b -> y2 * y2 = x * x * x + b ->
  y1 = y2 \/ y1 = Zmod.opp y2.
Proof.
  intros H1 H2.
  assert (E : (y1 - y2) * (y1 + y2) = Zmod.zero) by fnsatz.
  apply Zmod.mul_0_iff_prime in E; [|exact Hp].
  destruct E as [E|E]; [left | right]; fnsatz.
Qed.

Lemma fadd_comm (P Q : fpoint p) : fadd P Q = fadd Q P.
Proof using All.
  destruct P as [|x1 y1], Q as [|x2 y2]; try reflexivity.
  destruct (fadd_relP x1 y1 x2 y2) as [? ? ?|i c nx ny ? ? ?|? ?|i c nx ny ?];
    destruct (fadd_relP x2 y2 x1 y1) as [? ? ?|i' c' nx' ny' ? ? ?|? ?|i' c' nx' ny' ?];
    subst; try reflexivity; try congruence.
  all: try (des; f_equal; fnsatz).
  all: try (des; ffalse).
Qed.

Lemma fadd_fneg (P : fpoint p) : fadd P (fneg P) = FInf.
Proof using All.
  destruct P as [|x y]; [reflexivity|]. cbn [fneg].
  destruct (fadd_relP x y x (Zmod.opp y)) as [? ? ?|i c nx ny ? ? ?|? ?|i c nx ny ?];
    try reflexivity.
  all: des; ffalse.
Qed.

Lemma fadd_inf_inv (P Q : fpoint p) :
  fon_curve b P -> fon_curve b Q -> fadd P Q = FInf -> Q = fneg P.
Proof using All.
  destruct P as [|x1 y1], Q as [|x2 y2]; cbn [fon_curve fneg]; intros H1 H2;
    try (cbn [fadd]; congruence).
  destruct (fadd_relP x1 y1 x2 y2) as [? ? ?|i c nx ny ? ? ?|? ?|i c nx ny ?];
    try discriminate; intros _; subst.
  - f_equal. fnsatz.
  - destruct (same_x_cases x2 y1 y2 H1 H2) as [E|E]; [contradiction|].
    f_equal. rewrite E. symmetry. apply Zmod.opp_opp.
Qed.

(** ** The cancellation law *)

Lemma fadd_cancel_law (P Q : fpoint p) :
  fon_curve b P -> fon_curve b Q -> fadd (fadd P Q) (fneg Q) = P.
Proof.
  destruct P as [|x1 y1], Q as [|x2 y2]; cbn [fon_curve]; intros H1 H2.
  - reflexivity.
  - apply fadd_fneg.
  - reflexivity.
  - destruct (fadd_relP x1 y1 x2 y2)
      as [Ex Ey E0|i c x3 y3 Ex Ey Ht|Ex Ey|i c x3 y3 Hc]; cbn [fneg].
    + subst. cbn [fadd]. f_equal. fnsatz.
    + subst x2 y2.
      pose proof (tan_on_curve p Hp Hbig b Hb x1 y1 i c x3 y3 H1 Ht) as H3.
      destruct (fadd_relP x3 y3 x1 (Zmod.opp y1))
        as [Ex' Ey' E0'|i' c' x4 y4 Ex' Ey' Ht'|Ex' Ey'|i' c' x4 y4 Hc'].
      * des. ffalse.
      * rewrite Ex', Ey' in Ht'.
        destruct (cancel_tan_tan p Hp Hbig b Hb x1 y1 i c x3 y3 i' c' x4 y4 H1 Ht Ex' Ey' Ht')
          as [-> ->].
        reflexivity.
      * exfalso. rewrite Ex' in H3.
        destruct (same_x_cases x1 y3 y1 H3 H1) as [E|E]; [|contradiction].
        exact (tan_not_same p Hp Hbig b Hb x1 y1 i c x3 y3 H1 Ht Ex' E).
      * destruct (cancel_tan_chord p Hp Hbig b Hb x1 y1 i c x3 y3 i' c' x4 y4 H1 Ht Hc')
          as [-> ->].
        reflexivity.
    + cbn [fadd]. subst x2.
      destruct (same_x_cases x1 y1 y2 H1 H2) as [E|E]; [contradiction|].
      f_equal. now rewrite E.
    + pose proof (chord_on_curve p Hp Hbig b Hb x1 y1 x2 y2 i c x3 y3 H1 H2 Hc) as H3.
      destruct (fadd_relP x3 y3 x2 (Zmod.opp y2))
        as [Ex' Ey' E0'|i' c' x4 y4 Ex' Ey' Ht'|Ex' Ey'|i' c' x4 y4 Hc'].
      * exfalso.
        apply (chord_not_opp_order2 p Hp Hbig b Hb x1 y1 x2 y2 i c x3 y3 H1 H2 Hc Ex' Ey').
        rewrite Ey' in E0'. fnsatz.
      * rewrite Ex', Ey' in Ht'.
        destruct (cancel_chord_tan p Hp Hbig b Hb x1 y1 x2 y2 i c x3 y3 i' c' x4 y4
                    H1 H2 Hc Ex' Ey' Ht') as [-> ->].
        reflexivity.
      * exfalso. rewrite Ex' in H3.
        destruct (same_x_cases x2 y3 y2 H3 H2) as [E|E]; [|contradiction].
        assert (Hnz : y2 + y2 <> Zmod.zero).
        { intros E2. apply Ey'. rewrite E. fnsatz. }
        apply (chord_not_same p Hp Hbig b Hb x1 y1 x2 y2 i c x3 y3 (Zmod.inv (y2 + y2))
                 H1 H2 Hc Ex' E).
        now apply Zmod.mul_inv_same_l_prime.
      * destruct (cancel_chord_chord p Hp Hbig b Hb x1 y1 x2 y2 i c x3 y3 i' c' x4 y4
                    H1 H2 Hc Hc') as [-> ->].
        reflexivity.
Qed.

Lemma fadd_cancel_law' (P Q : fpoint p) :
  fon_curve b P -> fon_curve b Q -> fadd (fadd P (fneg Q)) Q = P.
Proof.
  intros HP HQ.
  rewrite <- (fneg_fneg Q) at 2.
  apply fadd_cancel_law; [exact HP | now apply fneg_on_curve].
Qed.

Lemma fadd_cancel_r (P Q R : fpoint p) :
  fon_curve b P -> fon_curve b Q -> fon_curve b R ->
  fadd P R = fadd Q R -> P = Q.
Proof.
  intros HP HQ HR E.
  rewrite <- (fadd_cancel_law P R HP HR), E.
  now apply fadd_cancel_law.
Qed.

(** A sum equal to one of its terms has the other term at infinity. *)
Lemma fadd_fixed (P R : fpoint p) :
  fon_curve b P -> fon_curve b R -> fadd P R = P -> R = FInf.
Proof.
  intros HP HR E.
  apply (fadd_cancel_r R FInf P HR I HP).
  now rewrite fadd_comm, E.
Qed.

(** ** Associativity *)

Lemma fassoc_sym (P Q R : fpoint p) : fassoc R Q P -> fassoc P Q R.
Proof.
  unfold fassoc. intros H.
  rewrite (fadd_comm P (fadd Q R)), (fadd_comm Q R), <- H.
  now rewrite (fadd_comm (fadd P Q) R), (fadd_comm P Q).
Qed.

Section Degenerate.

Variables P Q R : fpoint p.
Hypothesis HP : fon_curve b P.
Hypothesis HQ : fon_curve b Q.
Hypothesis HR : fon_curve b R.

Lemma fassoc_inner_inf : fadd Q R = FInf -> fassoc P Q R.
Proof.
  intros E. unfold fassoc. rewrite E, fadd_0_r.
  rewrite (fadd_inf_inv Q R HQ HR E).
  symmetry. now apply fadd_cancel_law.
Qed.

Lemma fassoc_outer_inf : fadd P (fadd Q R) = FInf -> fassoc P Q R.
Proof.
  intros E. unfold fassoc. rewrite E.
  pose proof (fadd_on_curve Q R HQ HR) as HT.
  pose proof (fadd_inf_inv P (fadd Q R) HP HT E) as ET.
  assert (EQ : Q = fadd (fneg P) (fneg R)).
  { rewrite <- ET. symmetry. now apply fadd_cancel_law. }
  assert (ES : fadd P Q = fneg R).
  { rewrite EQ, (fadd_comm P), (fadd_comm (fneg P)).
    apply fadd_cancel_law'; [now apply fneg_on_curve | exact HP]. }
  rewrite ES, fadd_comm. symmetry. apply fadd_fneg.
Qed.

End Degenerate.

Lemma fassoc_degenerate (P Q R : fpoint p) :
  fon_curve b P -> fon_curve b Q -> fon_curve b R ->
  fadd Q R = FInf \/ fadd P Q = FInf
  \/ fadd P (fadd Q R) = FInf \/ fadd (fadd P Q) R = FInf ->
  fassoc P Q R.
Proof.
  intros HP HQ HR [E|[E|[E|E]]].
  - now apply fassoc_inner_inf.
  - apply fassoc_sym. apply fassoc_inner_inf; try assumption.
    now rewrite fadd_comm.
  - now apply fassoc_outer_inf.
  - apply fassoc_sym. apply fassoc_outer_inf; try assumption.
    now rewrite fadd_comm, (fadd_comm Q P).
Qed.

Lemma fassoc_inf_l (Q R : fpoint p) : fassoc FInf Q R.
Proof. unfold fassoc. now rewrite !fadd_0_l. Qed.

Lemma fassoc_inf_m (P R : fpoint p) : fassoc P FInf R.
Proof. unfold fassoc. now rewrite fadd_0_l, fadd_0_r. Qed.

Lemma fassoc_inf_r (P Q : fpoint p) : fassoc P Q FInf.
Proof. unfold fassoc. now rewrite !fadd_0_r. Qed.

Lemma chordx_irrefl (x y1 y2 i c nx ny : F) : chordx x y1 x y2 i c nx ny -> False.
Proof. intros H. des. ffalse. Qed.

(** The triple [(P, P, R)]. *)
Lemma fassoc_PPR (P R : fpoint p) :
  fon_curve b P -> fon_curve b R -> fassoc P P R.
Proof.
  intros HP HR.
  destruct P as [|x1 y1]; [apply fassoc_inf_l|].
  destruct R as [|x3 y3]; [apply fassoc_inf_r|].
  pose proof (fun H => fassoc_degenerate _ _ _ HP HP HR H) as Hdeg.
  destruct (fadd_cases x1 y1 x1 y1)
    as [E|[(i11&c11&xs&ys&_&Hs&ES)|(i&c&nx&ny&Hc&_)]];
    [apply Hdeg; auto | | destruct (chordx_irrefl _ _ _ _ _ _ _ Hc)].
  destruct (fadd_cases x1 y1 x3 y3)
    as [E|[(i&c&nx&ny&[Ex Ey]&_&_)|(i13&c13&xt&yt&Ht&ET)]];
    [apply Hdeg; auto | subst x3 y3; unfold fassoc; apply fadd_comm | ].
  assert (HS : fon_curve b (FAff xs ys)) by (rewrite <- ES; now apply fadd_on_curve).
  assert (HT : fon_curve b (FAff xt yt)) by (rewrite <- ET; now apply fadd_on_curve).
  destruct (fadd_cases x1 y1 xt yt)
    as [E|[(i&c&nx&ny&[Ex Ey]&_&_)|(i1t&c1t&xl&yl&Hl&EL)]].
  - apply Hdeg. right; right; left. now rewrite ET.
  - exfalso. assert (E : FAff x3 y3 = FInf); [|discriminate E].
    apply (fadd_fixed (FAff x1 y1) (FAff x3 y3) HP HR). rewrite ET. now subst.
  - destruct (fadd_cases xs ys x3 y3)
      as [E|[(iss&css&xr&yr&[Ex Ey]&Hr&ER)|(is3&cs3&xr&yr&Hr&ER)]].
    + apply Hdeg. right; right; right. now rewrite ES.
    + subst x3 y3. unfold fassoc. rewrite ET, EL, ES, ER.
      destruct (assoc_tan_tan p Hp Hbig b Hb x1 y1 i11 c11 xs ys i13 c13 xt yt
                  i1t c1t xl yl iss css xr yr HP Hs Ht Hl Hr) as [-> ->].
      reflexivity.
    + unfold fassoc. rewrite ET, EL, ES, ER.
      destruct (assoc_tan_chords p Hp Hbig b Hb x1 y1 x3 y3 i11 c11 xs ys i13 c13 xt yt
                  i1t c1t xl yl is3 cs3 xr yr HP HR Hs Ht Hl Hr) as [-> ->].
      reflexivity.
Qed.

(** The triple whose first point is the sum of the other two. *)
Lemma fassoc_first_sum (Q R : fpoint p) :
  fon_curve b Q -> fon_curve b R -> fassoc (fadd Q R) Q R.
Proof.
  intros HQ HR.
  assert (HT : fon_curve b (fadd Q R)) by now apply fadd_on_curve.
  assert (EQ : fadd (fadd Q R) (fneg R) = Q) by now apply fadd_cancel_law.
  pose proof (fassoc_PPR (fadd Q R) (fneg R) HT (fneg_on_curve R HR)) as H.
  unfold fassoc in *. rewrite EQ in H. rewrite H.
  symmetry. apply fadd_cancel_law'; [now apply fadd_on_curve | exact HR].
Qed.

Theorem fadd_assoc (P Q R : fpoint p) :
  fon_curve b P -> fon_curve b Q -> fon_curve b R ->
  fadd P (fadd Q R) = fadd (fadd P Q) R.
Proof using All.
  intros HP HQ HR. change (fassoc P Q R).
  destruct P as [|x1 y1]; [apply fassoc_inf_l|].
  destruct Q as [|x2 y2]; [apply fassoc_inf_m|].
  destruct R as [|x3 y3]; [apply fassoc_inf_r|].
  pose proof (fun H => fassoc_degenerate _ _ _ HP HQ HR H) as Hdeg.
  destruct (fadd_cases x2 y2 x3 y3)
    as [E|[(i&c&nx&ny&[Ex Ey]&_&_)|(i23&c23&xt&yt&Ht&ET)]].
  - apply Hdeg; auto.
  - subst x3 y3. apply fassoc_sym. now apply fassoc_PPR.
  - destruct (fadd_cases x1 y1 x2 y2)
      as [E|[(i&c&nx&ny&[Ex Ey]&_&_)|(i12&c12&xs&ys&Hs&ES)]].
    + apply Hdeg; auto.
    + subst x2 y2. now apply fassoc_PPR.
    + destruct (fadd_cases x1 y1 xt yt)
        as [E|[(i&c&nx&ny&[Ex Ey]&_&_)|(i1t&c1t&xl&yl&Hl&EL)]].
      * apply Hdeg. right; right; left. now rewrite ET.
      * subst xt yt. rewrite <- ET. now apply fassoc_first_sum.
      * destruct (fadd_cases xs ys x3 y3)
          as [E|[(i&c&nx&ny&[Ex Ey]&_&_)|(is3&cs3&xr&yr&Hr&ER)]].
        -- apply Hdeg. right; right; right. now rewrite ES.
        -- subst x3 y3. apply fassoc_sym. rewrite <- ES.
           rewrite (fadd_comm (FAff x1 y1)). now apply fassoc_first_sum.
        -- unfold fassoc. rewrite ET, EL, ES, ER.
           destruct (assoc_chords p Hp Hbig b Hb x1 y1 x2 y2 x3 y3
                       i12 c12 xs ys i23 c23 xt yt i1t c1t xl yl is3 cs3 xr yr
                       HP HQ HR Hs Ht Hl Hr) as [-> ->].
           reflexivity.
Qed.

End FieldGroup.

(** * The program's point arithmetic is the group law *)

Section Bridge.

Variable ec : EC.
Hypothesis Hp : Z.prime (curve_p ec).
Hypothesis Hbig : 2 ^ 64 < curve_p ec.
Hypothesis Ha : curve_a ec mod curve_p ec = 0.
Hypothesis Hb : curve_b ec mod curve_p ec <> 0.

Local Abbreviation p := (curve_p ec).

Add Ring Zmod_curve_ring : (Zmod.ring_theory (curve_p ec)).

Lemma curve_p_pos : 0 < p.
Proof using All. lia. Qed.

Lemma fz_inj (x y : Z) : 0 <= x < p -> 0 <= y < p -> fz ec x = fz ec y -> x = y.
Proof using All.
  intros Hx Hy H. apply Zmod.of_Z_inj in H.
  now rewrite !Z.mod_small in H by assumption.
Qed.

Lemma fz_eqb (x y : Z) :
  0 <= x < p -> 0 <= y < p -> Zmod.eqb (fz ec x) (fz ec y) = (x =? y).
Proof using All.
  intros Hx Hy.
  destruct (Zmod.eqb_spec (fz ec x) (fz ec y)) as [E|E], (Z.eqb_spec x y) as [E'|E'];
    try reflexivity.
  - elim E'. now apply fz_inj.
  - elim E. now rewrite E'.
Qed.

Lemma fz_mod (x : Z) : fz ec (x mod p) = fz ec x.
Proof using All. apply Zmod.of_Z_mod. Qed.

Lemma fz_zero_eqb (x : Z) : Zmod.eqb (fz ec x) Zmod.zero = (x mod p =? 0).
Proof using All.
  rewrite <- fz_mod. rewrite <- (Zmod.of_Z_0 p).
  apply fz_eqb; [apply Z.mod_pos_bound; lia | lia].
Qed.

Lemma fz_redAdd (x y : Z) : fz ec (redAdd ec x y) = (fz ec x + fz ec y)%Zmod.
Proof using All. unfold redAdd. rewrite fz_mod. apply Zmod.of_Z_add. Qed.

Lemma fz_redSub (x y : Z) : fz ec (redSub ec x y) = (fz ec x - fz ec y)%Zmod.
Proof using All. unfold redSub. rewrite fz_mod. apply Zmod.of_Z_sub. Qed.

Lemma fz_redMul (x y : Z) : fz ec (redMul ec x y) = (fz ec x * fz ec y)%Zmod.
Proof using All. unfold redMul. rewrite fz_mod. apply Zmod.of_Z_mul. Qed.

Lemma fz_redSqr (x : Z) : fz ec (redSqr ec x) = (fz ec x * fz ec x)%Zmod.
Proof using All. unfold redSqr. rewrite fz_mod. apply Zmod.of_Z_mul. Qed.

Lemma fz_redNeg (x : Z) : fz ec (redNeg ec x) = Zmod.opp (fz ec x).
Proof using All. unfold redNeg. rewrite fz_mod. apply Zmod.of_Z_opp. Qed.

Lemma fz_redInvm (x : Z) : fz ec (redInvm ec x) = Zmod.inv (fz ec x).
Proof using All.
  apply Zmod.unsigned_inj. unfold fz, redInvm.
  rewrite Zmod.unsigned_inv, !Zmod.unsigned_of_Z.
  now rewrite Z.mod_invmod, Z.invmod_mod_l.
Qed.

Lemma fz_a : fz ec (curve_a ec mod p) = Zmod.zero.
Proof using All. rewrite Ha. apply Zmod.of_Z_0. Qed.

Lemma fb_nz : fb ec <> Zmod.zero.
Proof using All. apply Zmod.of_Z_nz. exact Hb. Qed.

Ltac push_fz :=
  repeat first [ rewrite fz_redAdd | rewrite fz_redSub | rewrite fz_redMul
               | rewrite fz_redSqr | rewrite fz_redNeg | rewrite fz_redInvm
               | rewrite fz_a ].

Lemma fpt_inj (P Q : point) :
  reduced ec P -> reduced ec Q -> fpt ec P = fpt ec Q -> P = Q.
Proof using All.
  destruct P as [|x1 y1], Q as [|x2 y2]; cbn [fpt reduced]; try discriminate;
    [reflexivity|].
  intros [Hx1 Hy1] [Hx2 Hy2] H.
  pose proof (f_equal (fun T => match T with FAff x _ => x | FInf => Zmod.zero end) H)
    as Hx.
  pose proof (f_equal (fun T => match T with FAff _ y => y | FInf => Zmod.zero end) H)
    as Hy.
  cbn beta iota in Hx, Hy.
  f_equal; now apply fz_inj.
Qed.

Lemma fpt_neg (P : point) : fpt ec (neg ec P) = fneg (fpt ec P).
Proof using All. destruct P as [|x y]; [reflexivity|]. cbn [neg fpt fneg]. now push_fz. Qed.

Lemma fpt_dbl (P : point) : fpt ec (dbl ec P) = fdbl (fpt ec P).
Proof using All.
  destruct P as [|x y]; [reflexivity|]. cbn [fpt]. unfold dbl, fdbl. cbv zeta.
  rewrite <- fz_redAdd, fz_zero_eqb.
  replace (redAdd ec y y mod p) with (redAdd ec y y)
    by (unfold redAdd; now rewrite Z.mod_mod by lia).
  destruct (redAdd ec y y =? 0); [reflexivity|].
  cbn [fpt]. push_fz. f_equal; ring.
Qed.

Lemma fpt_add (P Q : point) :
  reduced ec P -> reduced ec Q -> fpt ec (add ec P Q) = fadd (fpt ec P) (fpt ec Q).
Proof using All.
  destruct P as [|x1 y1], Q as [|x2 y2]; try reflexivity.
  intros [Hx1 Hy1] [Hx2 Hy2]. unfold add. cbv zeta. cbn [fpt fadd point_eqb neg].
  rewrite !fz_eqb by assumption.
  destruct (x1 =? x2) eqn:Ex; cbn [andb].
  - destruct (y1 =? y2) eqn:Ey.
    + apply (fpt_dbl (Aff x1 y1)).
    + now destruct (redNeg ec y1 =? y2).
  - destruct (redSub ec y1 y2 =? 0) eqn:Ec.
    + apply Z.eqb_eq in Ec.
      assert (E0 : (fz ec y1 - fz ec y2)%Zmod = Zmod.zero).
      { rewrite <- fz_redSub, Ec. apply Zmod.of_Z_0. }
      cbn [fpt]. push_fz. rewrite !E0. f_equal; ring.
    + cbn [fpt]. push_fz. f_equal; ring.
Qed.

Lemma on_curve_reduced (P : point) : on_curve ec P -> reduced ec P.
Proof using All. destruct P as [|x y]; [trivial|]. now intros [H _]. Qed.

Lemma on_curve_fpt (P : point) :
  on_curve ec P <-> reduced ec P /\ fon_curve (fb ec) (fpt ec P).
Proof using All.
  destruct P as [|x y]; cbn [on_curve reduced fpt fon_curve]; [tauto|].
  assert (E : (y * y) mod p = (x * x * x + curve_a ec * x + curve_b ec) mod p
              <-> (fz ec y * fz ec y = fz ec x * fz ec x * fz ec x + fb ec)%Zmod).
  { rewrite <- Zmod.of_Z_inj. unfold fb, fz.
    rewrite !Zmod.of_Z_add, !Zmod.of_Z_mul.
    rewrite <- (Zmod.of_Z_mod (curve_a ec)), Ha, Zmod.of_Z_0.
    split; intros H.
    - rewrite H. ring.
    - rewrite H. ring. }
  rewrite E. tauto.
Qed.

Lemma fon_curve_of (P : point) : on_curve ec P -> fon_curve (fb ec) (fpt ec P).
Proof using All. intros H. now apply on_curve_fpt. Qed.

(** ** The group laws on the program's points *)

Lemma add_on_curve (P Q : point) :
  on_curve ec P -> on_curve ec Q -> on_curve ec (add ec P Q).
Proof using All.
  intros HP HQ. apply on_curve_fpt.
  pose proof (on_curve_reduced P HP). pose proof (on_curve_reduced Q HQ).
  split; [apply add_reduced; [apply curve_p_pos | assumption..]|].
  rewrite fpt_add by assumption.
  apply (fadd_on_curve p Hp Hbig (fb ec) fb_nz); now apply fon_curve_of.
Qed.

Lemma neg_on_curve (P : point) : on_curve ec P -> on_curve ec (neg ec P).
Proof using All.
  intros HP. apply on_curve_fpt.
  split; [apply neg_reduced; [apply curve_p_pos | now apply on_curve_reduced]|].
  rewrite fpt_neg. apply (fneg_on_curve p Hp Hbig (fb ec) fb_nz). now apply fon_curve_of.
Qed.

Lemma add_Inf_l (P : point) : add ec Inf P = P.
Proof using All. reflexivity. Qed.

Lemma add_Inf_r (P : point) : add ec P Inf = P.
Proof using All. now destruct P. Qed.

Lemma add_comm (P Q : point) :
  on_curve ec P -> on_curve ec Q -> add ec P Q = add ec Q P.
Proof using All.
  intros HP HQ.
  pose proof (on_curve_reduced P HP). pose proof (on_curve_reduced Q HQ).
  apply fpt_inj; try (apply add_reduced; [apply curve_p_pos | assumption..]).
  rewrite !fpt_add by assumption. apply (fadd_comm p Hp Hbig (fb ec) fb_nz).
Qed.

Lemma add_assoc (P Q R : point) :
  on_curve ec P -> on_curve ec Q -> on_curve ec R ->
  add ec P (add ec Q R) = add ec (add ec P Q) R.
Proof using All.
  intros HP HQ HR.
  pose proof (on_curve_reduced P HP). pose proof (on_curve_reduced Q HQ).
  pose proof (on_curve_reduced R HR).
  pose proof curve_p_pos.
  apply fpt_inj; try (repeat apply add_reduced; assumption).
  rewrite !fpt_add by (try apply add_reduced; assumption).
  apply (fadd_assoc p Hp Hbig (fb ec) fb_nz); now apply fon_curve_of.
Qed.

Lemma add_neg_r (P : point) : on_curve ec P -> add ec P (neg ec P) = Inf.
Proof using All.
  intros HP. pose proof (on_curve_reduced P HP). pose proof curve_p_pos.
  apply fpt_inj; [apply add_reduced; try apply neg_reduced; assumption | exact I |].
  rewrite fpt_add, fpt_neg by (try apply neg_reduced; assumption).
  apply (fadd_fneg p Hp Hbig (fb ec) fb_nz).
Qed.

Lemma add_neg_l (P : point) : on_curve ec P -> add ec (neg ec P) P = Inf.
Proof using All.
  intros HP. rewrite add_comm; [now apply add_neg_r | now apply neg_on_curve | exact HP].
Qed.

Lemma add_inf_inv (P Q : point) :
  on_curve ec P -> on_curve ec Q -> add ec P Q = Inf -> Q = neg ec P.
Proof using All.
  intros HP HQ E. pose proof (on_curve_reduced P HP). pose proof (on_curve_reduced Q HQ).
  pose proof curve_p_pos.
  apply fpt_inj; [assumption | now apply neg_reduced |].
  rewrite fpt_neg.
  apply (fadd_inf_inv p Hp Hbig (fb ec) fb_nz); try now apply fon_curve_of.
  rewrite <- fpt_add by assumption. now rewrite E.
Qed.

Lemma neg_neg (P : point) : on_curve ec P -> neg ec (neg ec P) = P.
Proof using All.
  intros HP. symmetry. apply add_inf_inv; [now apply neg_on_curve | exact HP |].
  now apply add_neg_l.
Qed.

Lemma neg_add (P Q : point) :
  on_curve ec P -> on_curve ec Q ->
  neg ec (add ec P Q) = add ec (neg ec P) (neg ec Q).
Proof using All.
  intros HP HQ. symmetry.
  pose proof (neg_on_curve P HP) as HP'. pose proof (neg_on_curve Q HQ) as HQ'.
  apply add_inf_inv; [now apply add_on_curve | now apply add_on_curve |].
  rewrite (add_comm P Q) by assumption.
  rewrite add_assoc by (try apply add_on_curve; assumption).
  rewrite <- (add_assoc Q P (neg ec P)) by assumption.
  rewrite add_neg_r, add_Inf_r by assumption.
  now apply add_neg_r.
Qed.

(** ** Multiples *)

Lemma nmul_on_curve (n : nat) (P : point) : on_curve ec P -> on_curve ec (nmul ec n P).
Proof using All.
  intros HP. induction n as [|n IH]; cbn [nmul]; [exact I|]. now apply add_on_curve.
Qed.

Lemma nmul_add (a b : nat) (P : point) :
  on_curve ec P -> nmul ec (a + b) P = add ec (nmul ec a P) (nmul ec b P).
Proof using All.
  intros HP. induction a as [|a IH]; cbn [nmul Nat.add]; [reflexivity|].
  rewrite IH. apply add_assoc; try assumption; now apply nmul_on_curve.
Qed.

Lemma nmul_Inf (n : nat) : nmul ec n Inf = Inf.
Proof using All. induction n as [|n IH]; cbn [nmul add]; [reflexivity | exact IH]. Qed.

Lemma nmul_mul (a b : nat) (P : point) :
  on_curve ec P -> nmul ec (a * b) P = nmul ec a (nmul ec b P).
Proof using All.
  intros HP. induction a as [|a IH]; cbn [nmul Nat.mul]; [reflexivity|].
  now rewrite nmul_add, IH.
Qed.

Lemma nmul_neg (n : nat) (P : point) :
  on_curve ec P -> nmul ec n (neg ec P) = neg ec (nmul ec n P).
Proof using All.
  intros HP. induction n as [|n IH]; cbn [nmul]; [reflexivity|].
  rewrite IH. symmetry. apply neg_add; [exact HP | now apply nmul_on_curve].
Qed.

Lemma mul_pos_nmul (k : positive) (P : point) :
  on_curve ec P -> mul_pos ec k P = nmul ec (Pos.to_nat k) P.
Proof using All.
  revert P. induction k as [k IH|k IH|]; intros P HP; cbn [mul_pos].
  - rewrite IH by now apply add_on_curve.
    rewrite Pos2Nat.inj_xI. cbn [nmul]. f_equal.
    rewrite Nat.mul_comm, nmul_mul by assumption.
    cbn [nmul]. now rewrite add_Inf_r.
  - rewrite IH by now apply add_on_curve.
    rewrite Pos2Nat.inj_xO.
    rewrite Nat.mul_comm, nmul_mul by assumption.
    cbn [nmul]. now rewrite add_Inf_r.
  - rewrite Pos2Nat.inj_1. cbn [nmul]. now rewrite add_Inf_r.
Qed.

Lemma mul_nonneg (z : Z) (P : point) :
  on_curve ec P -> 0 <= z -> mul ec z P = nmul ec (Z.to_nat z) P.
Proof using All.
  intros HP Hz. destruct z as [|q|q]; [reflexivity | | lia].
  cbn [mul]. rewrite Z2Nat.inj_pos. now apply mul_pos_nmul.
Qed.

Lemma mul_neg_scalar (z : Z) (P : point) :
  on_curve ec P -> z < 0 -> mul ec z P = neg ec (nmul ec (Z.to_nat (- z)) P).
Proof using All.
  intros HP Hz. destruct z as [|q|q]; [lia | lia |].
  cbn [mul Z.opp]. rewrite Z2Nat.inj_pos. now rewrite mul_pos_nmul.
Qed.

Lemma mul_on_curve (z : Z) (P : point) : on_curve ec P -> on_curve ec (mul ec z P).
Proof using All.
  intros HP. destruct (Z_lt_le_dec z 0) as [Hz|Hz].
  - rewrite mul_neg_scalar by assumption. apply neg_on_curve. now apply nmul_on_curve.
  - rewrite mul_nonneg by assumption. now apply nmul_on_curve.
Qed.

Lemma mul_opp (z : Z) (P : point) :
  on_curve ec P -> mul ec (- z) P = neg ec (mul ec z P).
Proof using All.
  intros HP. destruct z as [|q|q]; cbn [Z.opp mul neg]; try reflexivity.
  symmetry. apply neg_neg. apply (mul_on_curve (Z.pos q) P HP).
Qed.

Lemma mul_1 (P : point) : mul ec 1 P = P.
Proof using All. reflexivity. Qed.

Lemma mul_succ (z : Z) (P : point) :
  on_curve ec P -> mul ec (z + 1) P = add ec P (mul ec z P).
Proof using All.
  intros HP. destruct (Z_lt_le_dec z 0) as [Hz|Hz].
  - rewrite (mul_neg_scalar z) by assumption.
    replace (Z.to_nat (- z)) with (S (Z.to_nat (- (z + 1)))) by lia.
    cbn [nmul].
    pose proof (nmul_on_curve (Z.to_nat (- (z + 1))) P HP) as HN.
    rewrite neg_add by assumption.
    rewrite add_assoc by (try apply neg_on_curve; assumption).
    rewrite add_neg_r, add_Inf_l by assumption.
    destruct (Z.eq_dec (z + 1) 0) as [E|E].
    + rewrite E. reflexivity.
    + now rewrite mul_neg_scalar by (try assumption; lia).
  - rewrite !mul_nonneg by (try assumption; lia).
    replace (Z.to_nat (z + 1)) with (S (Z.to_nat z)) by lia. reflexivity.
Qed.

Lemma mul_pred (z : Z) (P : point) :
  on_curve ec P -> mul ec (z - 1) P = add ec (neg ec P) (mul ec z P).
Proof using All.
  intros HP.
  replace z with ((z - 1) + 1) at 2 by lia.
  rewrite mul_succ by assumption.
  pose proof (mul_on_curve (z - 1) P HP).
  rewrite add_assoc by (try apply neg_on_curve; assumption).
  now rewrite add_neg_l, add_Inf_l.
Qed.

Lemma mul_add (i j : Z) (P : point) :
  on_curve ec P -> mul ec (i + j) P = add ec (mul ec i P) (mul ec j P).
Proof using All.
  intros HP. revert i.
  apply (Z.bi_induction (fun i => mul ec (i + j) P = add ec (mul ec i P) (mul ec j P))).
  - intros x y ->. tauto.
  - reflexivity.
  - intros i. pose proof (mul_on_curve i P HP). pose proof (mul_on_curve j P HP).
    pose proof (mul_on_curve (i + j) P HP).
    replace (Z.succ i + j) with ((i + j) + 1) by lia.
    replace (Z.succ i) with (i + 1) by lia.
    rewrite !mul_succ by assumption. split; intros E.
    + rewrite E. now apply add_assoc.
    + assert (E' : add ec (neg ec P) (add ec P (mul ec (i + j) P))
                   = add ec (neg ec P) (add ec P (add ec (mul ec i P) (mul ec j P)))).
      { rewrite E. rewrite <- add_assoc by assumption. reflexivity. }
      rewrite !(add_assoc (neg ec P)) in E'
        by (try apply neg_on_curve; try apply add_on_curve; assumption).
      now rewrite add_neg_l, !add_Inf_l in E' by assumption.
Qed.

Lemma mul_Inf (z : Z) : mul ec z Inf = Inf.
Proof using All.
  destruct z as [|q|q]; cbn [mul]; [reflexivity | |].
  - rewrite mul_pos_nmul by exact I. apply nmul_Inf.
  - rewrite mul_pos_nmul by exact I. now rewrite nmul_Inf.
Qed.

Lemma mul_mul (i j : Z) (P : point) :
  on_curve ec P -> mul ec (i * j) P = mul ec i (mul ec j P).
Proof using All.
  intros HP. pose proof (mul_on_curve j P HP) as HQ. revert i.
  apply (Z.bi_induction (fun i => mul ec (i * j) P = mul ec i (mul ec j P))).
  - intros x y ->. tauto.
  - reflexivity.
  - intros i.
    replace (Z.succ i * j) with (j + i * j) by lia.
    replace (Z.succ i) with (i + 1) by lia.
    rewrite mul_add, mul_succ by assumption.
    split; intros E.
    + now rewrite E.
    + pose proof (mul_on_curve (i * j) P HP). pose proof (mul_on_curve i _ HQ).
      assert (E' : add ec (neg ec (mul ec j P)) (add ec (mul ec j P) (mul ec (i * j) P))
                   = add ec (neg ec (mul ec j P))
                       (add ec (mul ec j P) (mul ec i (mul ec j P)))) by now rewrite E.
      rewrite !(add_assoc (neg ec (mul ec j P))) in E'
        by (try apply neg_on_curve; assumption).
      now rewrite add_neg_l, !add_Inf_l in E' by assumption.
Qed.

(** ** Compressed encoding and decoding *)

Section Codec.

Hypothesis Hp34 : p mod 4 = 3.
Hypothesis Hlen : p < 256 ^ Z.of_nat (BN.byteLength p).

Lemma sq_eq_cases (u v : Zmod p) : (u * u = v * v)%Zmod -> u = v \/ u = Zmod.opp v.
Proof using All.
  intros H.
  assert (E : ((u - v) * (u + v))%Zmod = Zmod.zero).
  { transitivity (u * u - v * v)%Zmod; [ring|]. rewrite H. ring. }
  apply Zmod.mul_0_iff_prime in E; [|exact Hp].
  destruct E as [E|E]; [left|right].
  - transitivity (u - v + v)%Zmod; [ring|]. rewrite E. ring.
  - transitivity (u + v - v)%Zmod; [ring|]. rewrite E. ring.
Qed.

Lemma sqr_zero (y : Z) : 0 <= y < p -> (y * y) mod p = 0 -> y = 0.
Proof using All.
  intros Hy H.
  assert (E : (fz ec y * fz ec y)%Zmod = Zmod.zero).
  { unfold fz. rewrite <- Zmod.of_Z_mul, <- Zmod.of_Z_mod, H. apply Zmod.of_Z_0. }
  apply Zmod.mul_0_iff_prime in E; [|exact Hp].
  apply fz_inj; [assumption | lia |].
  unfold fz at 2. rewrite Zmod.of_Z_0. tauto.
Qed.

(** The exponent [(p + 1) / 4] yields a square root of a square. *)
Lemma redSqrt_sqr (y : Z) :
  0 <= y < p ->
  redSqrt ec ((y * y) mod p) = y \/ redSqrt ec ((y * y) mod p) = redNeg ec y.
Proof using All.
  intros Hy. unfold redSqrt.
  destruct ((y * y) mod p =? 0) eqn:E0.
  - apply Z.eqb_eq in E0. left. symmetry. now apply sqr_zero.
  - apply Z.eqb_neq in E0.
    assert (Hy0 : y <> 0) by (intros ->; apply E0; reflexivity).
    unfold redPow. rewrite Zpow_mod_correct by lia.
    set (k := (p + 1) / 4).
    assert (Hk : 4 * k = (p - 1) + 2).
    { unfold k. Z.to_euclidean_division_equations. lia. }
    assert (Hk0 : 0 <= k) by lia.
    set (ys := ((y * y) mod p) ^ k mod p).
    assert (Hys : 0 <= ys < p) by (apply Z.mod_pos_bound; lia).
    assert (Hsq : (ys * ys) mod p = (y * y) mod p).
    { unfold ys. rewrite <- Z.mul_mod by lia.
      rewrite <- Z.pow_add_r by assumption.
      rewrite Z.mod_pow_l.
      rewrite <- Z.pow_2_r, <- Z.pow_mul_r by lia.
      replace (2 * (k + k)) with ((p - 1) + 2) by lia.
      rewrite Z.pow_add_r by lia.
      rewrite Z.mul_mod by lia.
      rewrite Z.fermat_nz; [|exact Hp | rewrite Z.mod_small by assumption; exact Hy0].
      rewrite Z.mul_1_l, Z.mod_mod by lia. reflexivity. }
    assert (E : (fz ec ys * fz ec ys = fz ec y * fz ec y)%Zmod).
    { unfold fz. rewrite <- !Zmod.of_Z_mul. apply Zmod.of_Z_inj. exact Hsq. }
    destruct (sq_eq_cases _ _ E) as [H|H]; [left|right].
    + now apply fz_inj.
    + rewrite <- fz_redNeg in H. apply fz_inj; try assumption.
      apply Z.mod_pos_bound; lia.
Qed.

Lemma p_odd : Z.odd p = true.
Proof using All.
  apply Z.odd_spec. exists (p / 2).
  Z.to_euclidean_division_equations. lia.
Qed.

Lemma redNeg_small (y : Z) : 0 < y < p -> redNeg ec y = p - y.
Proof using All.
  intros Hy. unfold redNeg.
  replace (- y) with ((p - y) + (-1) * p) by lia.
  rewrite Z.mod_add by lia. apply Z.mod_small. lia.
Qed.

Lemma redNeg_redNeg (y : Z) : 0 <= y < p -> redNeg ec (redNeg ec y) = y.
Proof using All.
  intros Hy. apply fz_inj; [apply Z.mod_pos_bound; lia | assumption |].
  rewrite !fz_redNeg. apply Zmod.opp_opp.
Qed.

Lemma pointFromX_on_curve_point (x y : Z) :
  on_curve ec (Aff x y) -> pointFromX ec x (Z.odd y) = Ok (Aff x y).
Proof using All.
  intros [[Hx Hy] Hc]. unfold pointFromX. cbv zeta.
  rewrite (Z.mod_small x) by assumption.
  assert (E2 : redAdd ec (redAdd ec (redMul ec (redSqr ec x) x)
                            (redMul ec x (curve_a ec mod p)))
                      (curve_b ec mod p) = (y * y) mod p).
  { rewrite Hc. unfold redAdd, redMul, redSqr. mod_ring (curve_p ec). }
  rewrite E2.
  assert (Hchk : forall s, 0 <= s < p -> (s = y \/ s = redNeg ec y) ->
                 (redSub ec (redSqr ec s) ((y * y) mod p) =? 0) = true).
  { intros s Hs Hsy. apply Z.eqb_eq.
    apply (fz_inj _ 0); [apply Z.mod_pos_bound; lia | lia |].
    rewrite fz_redSub, fz_redSqr, fz_mod.
    assert (E0 : fz ec 0 = Zmod.zero) by apply Zmod.of_Z_0.
    assert (Em : fz ec (y * y) = (fz ec y * fz ec y)%Zmod) by apply Zmod.of_Z_mul.
    rewrite E0, Em. destruct Hsy as [-> | ->]; [|rewrite fz_redNeg]; ring. }
  pose proof (redSqrt_sqr y Hy) as Hs.
  set (s := redSqrt ec ((y * y) mod p)) in *.
  assert (Hsr : 0 <= s < p).
  { destruct Hs as [-> | ->]; [assumption | apply Z.mod_pos_bound; lia]. }
  rewrite (Hchk s Hsr Hs). cbn [negb]. unfold BN.isOdd.
  destruct Hs as [Hs|Hs].
  - rewrite Hs. destruct (Z.odd y); reflexivity.
  - destruct (Z.eq_dec y 0) as [Hy0|Hy0].
    + rewrite Hs, Hy0. reflexivity.
    + assert (Hsm : s = p - y) by (rewrite Hs; apply redNeg_small; lia).
      assert (Ho : Z.odd s = negb (Z.odd y)).
      { rewrite Hsm, Z.odd_sub, p_odd. now destruct (Z.odd y). }
      rewrite Ho, Hs, redNeg_redNeg by assumption.
      now destruct (Z.odd y).
Qed.

(** A number that reduces to the x-coordinate of a point of the curve is
    accepted, whatever parity is asked for. *)
Lemma pointFromX_accepts (x y : Z) (odd : bool) :
  on_curve ec (Aff (x mod p) y) ->
  exists y', pointFromX ec x odd = Ok (Aff (x mod p) y').
Proof using All.
  intros Hc.
  pose proof (pointFromX_on_curve_point _ _ Hc) as H.
  rewrite pointFromX_mod in H by lia.
  destruct (pointFromX_flag ec x _ odd _ H) as [P' HP'].
  destruct (pointFromX_abscissa ec x odd P' HP') as [y' ->].
  now exists y'.
Qed.

Lemma encodePoint_Aff (x y : Z) :
  encodePoint ec (Aff x y)
  = Ok (byte_of_Z (if Z.even y then 2 else 3) :: be_bytes (BN.byteLength p) x).
Proof using All.
  unfold encodePoint, encodeCompressed_hex. cbn [getX getY bind].
  now rewrite Buffer_from_to_hex.
Qed.

Lemma encodePoint_Inf : encodePoint ec Inf = Throw TypeError.
Proof using All. reflexivity. Qed.

(** Decoding undoes encoding on the points of the curve. *)
Lemma decodePoint_encodePoint (P : point) (bytes : Buffer) :
  on_curve ec P -> encodePoint ec P = Ok bytes -> decodePoint ec bytes = Ok P.
Proof using All.
  destruct P as [|x y]; [discriminate|].
  intros HP. rewrite encodePoint_Aff. intros H. injection H as <-.
  destruct HP as [[Hx Hy] Hc].
  assert (Hl : (0 < BN.byteLength p)%nat).
  { destruct (BN.byteLength p); [simpl in Hlen; lia | lia]. }
  unfold decodePoint. rewrite length_be_bytes, Nat.eqb_refl.
  replace (BN.byteLength p =? 2 * BN.byteLength p)%nat with false
    by (symmetry; apply Nat.eqb_neq; lia).
  rewrite be_to_Z_be_bytes, (Z.mod_small x) by lia.
  rewrite byte_to_of_Z.
  rewrite <- (pointFromX_on_curve_point x y) by (split; [split|]; assumption).
  rewrite <- Z.negb_even.
  destruct (Z.even y); reflexivity.
Qed.

End Codec.

(** ** A point of prime order *)

Section Order.

Variable Q : point.
Variable n : Z.
Hypothesis HQ : on_curve ec Q.
Hypothesis Hn : Z.prime n.
Hypothesis HnQ : mul ec n Q = Inf.
Hypothesis HQnz : Q <> Inf.

Lemma mul_mod_order (s : Z) : mul ec (s mod n) Q = mul ec s Q.
Proof using All.
  assert (n <> 0) by (destruct Hn; lia).
  rewrite (Z.div_mod s n) at 2 by assumption.
  rewrite mul_add by assumption.
  rewrite (Z.mul_comm n), mul_mul, HnQ, mul_Inf by assumption.
  reflexivity.
Qed.

Lemma mul_order_nz (s : Z) : s mod n <> 0 -> mul ec s Q <> Inf.
Proof using All.
  intros Hs E.
  assert (Hn1 : 1 < n) by (destruct Hn; lia).
  assert (Hrel : Z.gcd n s = 1).
  { apply Z.coprime_prime_l; [exact Hn|].
    intros Hd. apply Hs. apply Z.mod_divide; [lia | exact Hd]. }
  destruct (Z.gcd_bezout n s 1 Hrel) as (u & v & Huv).
  apply HQnz.
  rewrite <- (mul_1 Q). rewrite <- Huv.
  rewrite mul_add, !mul_mul by assumption.
  now rewrite E, HnQ, !mul_Inf.
Qed.

Lemma mul_eq_mod (s t : Z) : s mod n = t mod n -> mul ec s Q = mul ec t Q.
Proof using All. intros E. now rewrite <- (mul_mod_order s), E, mul_mod_order. Qed.

End Order.

End Bridge.

(** * The evaluator on machine words computes the program's multiples *)

Section FastCorrect.

Variable ec : EC.
Hypothesis Hp : Z.prime (curve_p ec).

Let p := curve_p ec.

(** The inverse modulo a prime is the power [p - 2]. *)
Lemma invmod_fermat (x : Z) : 2 < p -> Z.invmod x p = x ^ (p - 2) mod p.
Proof.
  intros H2. subst p.
  destruct (Z.eq_dec (x mod curve_p ec) 0) as [E|E].
  - rewrite <- Z.invmod_mod_l, <- Z.mod_pow_l, E, Z.invmod_0_l.
    rewrite Z.pow_0_l by lia. symmetry. apply Z.mod_0_l. lia.
  - pose proof (Zmod.fermat_inv (Zmod.of_Z (curve_p ec) x)
                  (Zmod.of_Z_nz x E) Hp) as F.
    apply (f_equal Zmod.to_Z) in F.
    rewrite Zmod.to_Z_pow_nonneg_r, Zmod.to_Z_inv, Zmod.to_Z_of_Z in F by lia.
    rewrite Z.mod_pow_l, Z.invmod_mod_l in F. now symmetry.
Qed.

Variables m a : Fast.bigZ.
Variable e : positive.
Hypothesis Hm : BigZ.BigZ.to_Z m = curve_p ec.
Hypothesis Ha : BigZ.BigZ.to_Z a = curve_a ec mod curve_p ec.
Hypothesis He : Z.pos e = curve_p ec - 2.

Local Abbreviation tz := BigZ.BigZ.to_Z.

Lemma spec_bred (x : Fast.bigZ) : tz (Fast.bred m x) = tz x mod p.
Proof. unfold Fast.bred. now rewrite BigZ.BigZ.spec_modulo, Hm. Qed.

Lemma spec_badd (x y : Fast.bigZ) : tz (Fast.badd_ m x y) = redAdd ec (tz x) (tz y).
Proof. unfold Fast.badd_, redAdd. now rewrite spec_bred, BigZ.BigZ.spec_add. Qed.

Lemma spec_bsub (x y : Fast.bigZ) : tz (Fast.bsub_ m x y) = redSub ec (tz x) (tz y).
Proof. unfold Fast.bsub_, redSub. now rewrite spec_bred, BigZ.BigZ.spec_sub. Qed.

Lemma spec_bmul (x y : Fast.bigZ) : tz (Fast.bmul_ m x y) = redMul ec (tz x) (tz y).
Proof. unfold Fast.bmul_, redMul. now rewrite spec_bred, BigZ.BigZ.spec_mul. Qed.

Lemma spec_bneg (x : Fast.bigZ) : tz (Fast.bneg_ m x) = redNeg ec (tz x).
Proof. unfold Fast.bneg_, redNeg. now rewrite spec_bred, BigZ.BigZ.spec_opp. Qed.

Lemma spec_beqb (x y : Fast.bigZ) : Fast.beqb x y = (tz x =? tz y).
Proof. apply BigZ.BigZ.spec_eqb. Qed.

Lemma spec_bpow (x : Fast.bigZ) (k : positive) :
  tz (Fast.bpow m x k) = tz x ^ Z.pos k mod p.
Proof.
  assert (Hpp : 0 < p) by (subst p; destruct Hp; lia).
  induction k as [k IH|k IH|]; cbn [Fast.bpow].
  - rewrite spec_bred, BigZ.BigZ.spec_mul, spec_bred, BigZ.BigZ.spec_mul, IH.
    rewrite <- Z.mul_mod by lia.
    rewrite Z.mul_mod_idemp_r by lia.
    rewrite <- Z.pow_add_r by lia.
    rewrite <- Z.pow_succ_r by lia.
    rewrite Pos2Z.inj_xI. f_equal. f_equal. lia.
  - rewrite spec_bred, BigZ.BigZ.spec_mul, IH.
    rewrite <- Z.mul_mod by lia.
    rewrite <- Z.pow_add_r by lia.
    rewrite Pos2Z.inj_xO. f_equal. f_equal. lia.
  - rewrite spec_bred. now rewrite Z.pow_1_r.
Qed.

Lemma spec_binv (x : Fast.bigZ) : 2 < p -> tz (Fast.binv m e x) = redInvm ec (tz x).
Proof.
  intros H2. unfold Fast.binv, redInvm. rewrite spec_bpow, He.
  symmetry. now apply invmod_fermat.
Qed.

Hypothesis Hp2 : 2 < p.

Ltac to_spec :=
  repeat first [ rewrite spec_badd | rewrite spec_bsub | rewrite spec_bmul
               | rewrite spec_bneg | rewrite spec_binv by exact Hp2
               | rewrite spec_beqb | rewrite Ha ].

Lemma spec_bdbl (P : Fast.bpoint) :
  Fast.to_point (Fast.bdbl m a e P) = dbl ec (Fast.to_point P).
Proof.
  destruct P as [|x y]; [reflexivity|].
  unfold Fast.bdbl, dbl. cbv zeta. cbn [Fast.to_point].
  rewrite spec_beqb, spec_badd.
  change (tz BigZ.BigZ.zero) with 0.
  destruct (redAdd ec (tz y) (tz y) =? 0); [reflexivity|].
  cbn [Fast.to_point]. to_spec. reflexivity.
Qed.

Lemma spec_badd_point (P Q : Fast.bpoint) :
  Fast.to_point (Fast.badd m a e P Q) = add ec (Fast.to_point P) (Fast.to_point Q).
Proof.
  destruct P as [|x1 y1], Q as [|x2 y2]; try reflexivity.
  unfold Fast.badd, add. cbv zeta. cbn [Fast.to_point point_eqb neg].
  rewrite !spec_beqb, spec_bneg.
  destruct ((tz x1 =? tz x2) && (tz y1 =? tz y2)); [apply (spec_bdbl (Fast.BAff x1 y1))|].
  destruct ((tz x1 =? tz x2) && (redNeg ec (tz y1) =? tz y2)); [reflexivity|].
  destruct (tz x1 =? tz x2); [reflexivity|].
  rewrite spec_bsub. change (tz BigZ.BigZ.zero) with 0.
  destruct (redSub ec (tz y1) (tz y2) =? 0); cbn [Fast.to_point]; to_spec; reflexivity.
Qed.

Lemma spec_bmul_pos (k : positive) (P : Fast.bpoint) :
  Fast.to_point (Fast.bmul_pos m a e k P) = mul_pos ec k (Fast.to_point P).
Proof.
  revert P. induction k as [k IH|k IH|]; intros P; cbn [Fast.bmul_pos mul_pos].
  - now rewrite spec_badd_point, IH, spec_badd_point.
  - now rewrite IH, spec_badd_point.
  - reflexivity.
Qed.

End FastCorrect.

Lemma mul_pos_fast_correct (ec : EC) (k : positive) (x y : Z) :
  Z.prime (curve_p ec) -> 3 < curve_p ec ->
  mul_pos ec k (Aff x y) = Fast.mul_pos_fast ec k x y.
Proof.
  intros Hp H3. unfold Fast.mul_pos_fast.
  rewrite (spec_bmul_pos ec Hp);
    [ cbn [Fast.to_point]; now rewrite !BigZ.BigZ.spec_of_Z
    | apply BigZ.BigZ.spec_of_Z
    | apply BigZ.BigZ.spec_of_Z
    | rewrite Z2Pos.id; lia
    | lia ].
Qed.

Lemma secp256k1_order_G :
  mul secp256k1 (curve_n secp256k1) (G secp256k1) = Inf.
Proof.
  change (mul_pos secp256k1 (Z.to_pos (curve_n secp256k1))
            (Aff (curve_gx secp256k1 mod curve_p secp256k1)
                 (curve_gy secp256k1 mod curve_p secp256k1)) = Inf).
  rewrite mul_pos_fast_correct; [|exact prime_secp256k1_p | reflexivity].
  vm_compute. reflexivity.
Qed.

(** * The curve secp256k1 and its generator *)

Lemma secp256k1_prime_p : Z.prime (curve_p secp256k1).
Proof. exact prime_secp256k1_p. Qed.

Lemma secp256k1_prime_n : Z.prime (curve_n secp256k1).
Proof. exact prime_secp256k1_n. Qed.

Lemma secp256k1_big : 2 ^ 64 < curve_p secp256k1.
Proof. reflexivity. Qed.

Lemma secp256k1_a : curve_a secp256k1 mod curve_p secp256k1 = 0.
Proof. reflexivity. Qed.

Lemma secp256k1_b : curve_b secp256k1 mod curve_p secp256k1 <> 0.
Proof. vm_compute. discriminate. Qed.

Lemma secp256k1_p34 : curve_p secp256k1 mod 4 = 3.
Proof. reflexivity. Qed.

Lemma secp256k1_len :
  curve_p secp256k1 < 256 ^ Z.of_nat (BN.byteLength (curve_p secp256k1)).
Proof. reflexivity. Qed.

Lemma G_coords : G secp256k1 = Aff (curve_gx secp256k1) (curve_gy secp256k1).
Proof. reflexivity. Qed.

Lemma G_on_curve : on_curve secp256k1 (G secp256k1).
Proof.
  rewrite G_coords. cbn [on_curve].
  repeat split; try reflexivity; intros H; discriminate H.
Qed.

Lemma G_not_Inf : G secp256k1 <> Inf.
Proof. discriminate. Qed.

Local Abbreviation E := secp256k1.
Local Abbreviation nS := (curve_n secp256k1).
Local Abbreviation GS := (G secp256k1).
Local Abbreviation on_secp L :=
  (L secp256k1 secp256k1_prime_p secp256k1_big secp256k1_a secp256k1_b).
Local Abbreviation on_G L :=
  (L secp256k1 secp256k1_prime_p secp256k1_big secp256k1_a secp256k1_b
     (G secp256k1) (curve_n secp256k1) G_on_curve secp256k1_prime_n
     secp256k1_order_G G_not_Inf).

Lemma mulG_on_curve (k : Z) : on_curve E (mul E k GS).
Proof. exact (on_secp mul_on_curve k GS G_on_curve). Qed.

Lemma mulG_add (i j : Z) : mul E (i + j) GS = add E (mul E i GS) (mul E j GS).
Proof. exact (on_secp mul_add i j GS G_on_curve). Qed.

Lemma mulG_mul (i j : Z) : mul E (i * j) GS = mul E i (mul E j GS).
Proof. exact (on_secp mul_mul i j GS G_on_curve). Qed.

Lemma mulG_opp (k : Z) : mul E (- k) GS = neg E (mul E k GS).
Proof. exact (on_secp mul_opp k GS G_on_curve). Qed.

Lemma mulG_mod (k : Z) : mul E (k mod nS) GS = mul E k GS.
Proof. exact (on_G mul_mod_order k). Qed.

Lemma mulG_eq_mod (i j : Z) : i mod nS = j mod nS -> mul E i GS = mul E j GS.
Proof. exact (on_G mul_eq_mod i j). Qed.

Lemma mulG_Inf_iff (k : Z) : mul E k GS = Inf <-> k mod nS = 0.
Proof.
  split.
  - intros H. destruct (Z.eq_dec (k mod nS) 0) as [E0|E0]; [exact E0|].
    elim (on_G mul_order_nz k E0 H).
  - intros H. now rewrite (mulG_eq_mod k 0 H).
Qed.

Lemma mulG_affine (k : Z) :
  k mod nS <> 0 -> exists x y, mul E k GS = Aff x y /\ on_curve E (Aff x y).
Proof.
  intros H. pose proof (mulG_on_curve k) as Hc.
  destruct (mul E k GS) as [|x y] eqn:Ek.
  - apply mulG_Inf_iff in Ek. contradiction.
  - exists x, y. split; [reflexivity | exact Hc].
Qed.

(** Two multiples of the generator agree exactly when the scalars agree
    modulo the order. *)
Lemma mulG_eq_iff (i j : Z) : mul E i GS = mul E j GS <-> i mod nS = j mod nS.
Proof.
  split; [|apply mulG_eq_mod].
  intros H.
  assert (H0 : mul E (i - j) GS = Inf).
  { replace (i - j) with (i + - j) by lia.
    rewrite mulG_add, mulG_opp, H.
    apply (on_secp add_neg_r), mulG_on_curve. }
  apply mulG_Inf_iff in H0.
  assert (Hn : 0 < nS) by reflexivity.
  replace i with (j + (i - j)) by lia.
  rewrite Z.add_mod, H0, Z.add_0_r, Z.mod_mod by lia. reflexivity.
Qed.

(** ** Encodings of points of secp256k1 *)

Lemma encodePoint_secp (x y : Z) :
  encodePoint E (Aff x y)
  = Ok (byte_of_Z (if Z.even y then 2 else 3) :: be_bytes 32 x).
Proof.
  exact (on_secp encodePoint_Aff secp256k1_p34 secp256k1_len x y).
Qed.

Lemma decodePoint_encodePoint_secp (P : point) (bytes : Buffer) :
  on_curve E P -> encodePoint E P = Ok bytes -> decodePoint E bytes = Ok P.
Proof.
  exact (on_secp decodePoint_encodePoint secp256k1_p34 secp256k1_len P bytes).
Qed.

Lemma publicKeyFromPrivateKey_encode (privateKey : Buffer) :
  publicKeyFromPrivateKey E privateKey
  = encodePoint E (mul E (be_to_Z privateKey) GS).
Proof.
  unfold publicKeyFromPrivateKey, getPublic_hex, keyFromPrivate, BN.umod, BN.of_Buffer,
    encodePoint.
  now rewrite mulG_mod.
Qed.

(** * [computeSignaturePubKey] in closed form *)

Section PubKeyClosedForm.

Variable ec : EC.
Hypothesis p_pos : 0 < curve_p ec.

Lemma euclideanMod_neg_coord (y : Z) :
  0 <= y < curve_p ec -> euclideanMod (- y) (curve_p ec) = redNeg ec y.
Proof.
  intros Hy. unfold redNeg. apply euclideanMod_canonical; [exact p_pos|].
  intros [Hneg H0].
  replace (- y) with ((curve_p ec - y) + (-1) * curve_p ec) in H0 by lia.
  rewrite Z.mod_add, Z.mod_small in H0 by lia. lia.
Qed.

Lemma decodePoint_reduced (bytes : Buffer) (P : point) :
  decodePoint ec bytes = Ok P -> reduced ec P.
Proof.
  unfold decodePoint. destruct bytes as [|b0 rest]; [discriminate|].
  destruct (_ && _).
  - destruct (_ && _); [discriminate|].
    destruct (_ && _); [discriminate|].
    intros H. injection H as <-. now apply mkpoint_reduced.
  - destruct (_ && _); [|discriminate].
    intros H. apply (pointFromX_on_curve ec p_pos) in H.
    destruct H as [_ H]. destruct P as [|x y]; [exact I|]. exact (proj1 H).
Qed.

Lemma computeSignaturePubKey_closed
      (oracleA oracleR message : Buffer) (A : point) (x y : Z) :
  keyFromPublic ec oracleA = Ok A ->
  keyFromPublic ec oracleR = Ok (Aff x y) ->
  computeSignaturePubKey ec oracleA oracleR message
  = match mul ec (challenge x message) A with
    | Inf => Throw TypeError
    | Aff px py => encodePoint ec (add ec (Aff px (redNeg ec py)) (Aff x y))
    end.
Proof.
  intros HA HR. unfold computeSignaturePubKey. rewrite HA, HR. cbn [bind getX].
  unfold sha256_hex. rewrite BN_of_hex_Buffer.
  fold (RxBytes x). fold (challenge x message).
  pose proof (mul_reduced ec p_pos (challenge x message) A
                (decodePoint_reduced oracleA A HA)) as Hr.
  destruct (mul ec (challenge x message) A) as [|px py]; [reflexivity|].
  destruct Hr as [Hpx Hpy]. cbn [getY getX bind].
  rewrite euclideanMod_neg_coord by assumption.
  assert (Hn : 0 <= redNeg ec py < curve_p ec) by (apply Z.mod_pos_bound; exact p_pos).
  rewrite BN_of_hex_toString16 by lia.
  unfold mkpoint. rewrite !Z.mod_small by assumption.
  reflexivity.
Qed.

End PubKeyClosedForm.

(** With keys derived from private scalars the point behind the result is
    [(k - e a) G]. *)
Lemma computeSignaturePubKey_scalars
      (privateKey oneTimeSigningKey message A R : Buffer) (x y : Z) :
  let a := be_to_Z privateKey in
  let k := be_to_Z oneTimeSigningKey in
  let e := challenge x message in
  mul E k GS = Aff x y ->
  publicKeyFromPrivateKey E privateKey = Ok A ->
  publicKeyFromPrivateKey E oneTimeSigningKey = Ok R ->
  computeSignaturePubKey E A R message
  = if (e * a) mod nS =? 0 then Throw TypeError
    else encodePoint E (mul E (k - e * a) GS).
Proof.
  intros a k e Hk HA HR.
  rewrite publicKeyFromPrivateKey_encode in HA, HR.
  fold a in HA. fold k in HR.
  apply decodePoint_encodePoint_secp in HA; [|apply mulG_on_curve].
  apply decodePoint_encodePoint_secp in HR; [|apply mulG_on_curve].
  rewrite Hk in HR.
  rewrite (computeSignaturePubKey_closed E secp256k1_p_pos A R message _ x y HA HR).
  fold e. rewrite <- mulG_mul.
  pose proof (mulG_on_curve (e * a)) as Hc.
  destruct (Z.eqb_spec ((e * a) mod nS) 0) as [E0|E0].
  - apply mulG_Inf_iff in E0. now rewrite E0.
  - destruct (mul E (e * a) GS) as [|px py] eqn:EP.
    + apply mulG_Inf_iff in EP. contradiction.
    + f_equal.
      change (Aff px (redNeg E py)) with (neg E (Aff px py)).
      rewrite <- EP, <- Hk, <- mulG_opp, <- mulG_add.
      f_equal. lia.
Qed.

(** * Further properties of the helpers *)

(** ** [euclideanMod] with a divisor of either sign *)

Lemma rem_neg_dividend (a M : Z) :
  a < 0 -> 0 < M -> Z.rem a M = - ((- a) mod M).
Proof.
  intros Ha HM.
  replace a with (- - a) at 1 by lia.
  rewrite Z.rem_opp_l by lia.
  now rewrite Z.rem_mod_nonneg by lia.
Qed.

Lemma euclideanMod_abs (a m : Z) :
  m <> 0 ->
  euclideanMod a m
  = if (a <? 0) && (a mod Z.abs m =? 0) then Z.abs m else a mod Z.abs m.
Proof.
  intros Hm. unfold euclideanMod, BN.isNeg, BN.mod_.
  assert (HM : 0 < Z.abs m) by lia.
  rewrite <- (Z.rem_abs_r a m) by assumption.
  destruct (a <? 0) eqn:Ha; cbn [andb].
  - apply Z.ltb_lt in Ha.
    rewrite rem_neg_dividend by assumption.
    assert (E : (if m <? 0 then - ((- a) mod Z.abs m) - m else - ((- a) mod Z.abs m) + m)
                = Z.abs m - (- a) mod Z.abs m).
    { destruct (m <? 0) eqn:Em; [apply Z.ltb_lt in Em | apply Z.ltb_ge in Em]; lia. }
    rewrite E.
    destruct (a mod Z.abs m =? 0) eqn:E0.
    + apply Z.eqb_eq in E0. rewrite Z.mod_opp_l_z by lia. lia.
    + apply Z.eqb_neq in E0. rewrite Z.mod_opp_l_nz by lia. lia.
  - apply Z.ltb_ge in Ha. now rewrite Z.rem_mod_nonneg by lia.
Qed.

(** X1: for a divisor [m] of either sign, [euclideanMod a m] is [a] modulo
    [|m|], except that a negative multiple of [m] gives [|m|] itself; the
    result lies between 0 and [|m|] inclusive and differs from [a] by a
    multiple of [m]. *)
Theorem X1_euclideanMod_value (a m : Z) :
  m <> 0 ->
  euclideanMod a m
  = (if (a <? 0) && (a mod Z.abs m =? 0) then Z.abs m else a mod Z.abs m)
  /\ 0 <= euclideanMod a m <= Z.abs m
  /\ (m | euclideanMod a m - a).
Proof.
  intros Hm. rewrite euclideanMod_abs by assumption.
  assert (HM : 0 < Z.abs m) by lia.
  pose proof (Z.mod_pos_bound a (Z.abs m) HM) as Hr.
  split; [reflexivity|]. split.
  - destruct ((a <? 0) && (a mod Z.abs m =? 0)); lia.
  - apply Z.divide_abs_l.
    destruct ((a <? 0) && (a mod Z.abs m =? 0)) eqn:E.
    + apply andb_prop in E. destruct E as [_ E]. apply Z.eqb_eq in E.
      apply Z.mod_divide in E; [|lia].
      apply Z.divide_sub_r; [apply Z.divide_refl | exact E].
    + exists (- (a / Z.abs m)).
      pose proof (Z.div_mod a (Z.abs m) ltac:(lia)). lia.
Qed.

Lemma X1_witness :
  euclideanMod (-7) (-3)
  = (if (-7 <? 0) && (-7 mod Z.abs (-3) =? 0) then Z.abs (-3) else -7 mod Z.abs (-3))
  /\ 0 <= euclideanMod (-7) (-3) <= Z.abs (-3)
  /\ (-3 | euclideanMod (-7) (-3) - -7).
Proof. apply (X1_euclideanMod_value (-7) (-3)). discriminate. Defined.

(** ** [padHexString] *)

(** A string of hexadecimal digits is the numeral of its value. *)
Lemma hexstring_digits (s : jsstring) :
  Forall is_hexchar s ->
  0 <= parse_hex s < 16 ^ Z.of_nat (length s)
  /\ s = hexdigits (length s) (parse_hex s).
Proof.
  induction s as [|c s IH] using rev_ind; intros H.
  - split; [cbn; lia | reflexivity].
  - apply Forall_app in H. destruct H as [Hs Hc].
    inversion Hc as [|? ? (d & Hd & ->) _]; subst.
    destruct (IH Hs) as [Hr Heq].
    rewrite parse_hex_snoc, hexval_hexchar by assumption.
    rewrite length_app. cbn [length]. rewrite Nat.add_1_r.
    split.
    + rewrite Nat2Z.inj_succ, Z.pow_succ_r by lia. lia.
    + rewrite hexdigits_S.
      replace ((16 * parse_hex s + d) / 16) with (parse_hex s)
        by (apply Z.div_unique with d; lia).
      replace ((16 * parse_hex s + d) mod 16) with d
        by (apply Z.mod_unique with (parse_hex s); lia).
      now rewrite <- Heq.
Qed.

Lemma div2_S_double (h : nat) : Nat.div2 (S (2 * h)) = h.
Proof. apply (Nat.div2_succ_double h). Qed.

Lemma padHexString_digits (s : jsstring) :
  Forall is_hexchar s ->
  padHexString s = hexdigits (2 * Nat.div2 (S (length s))) (parse_hex s).
Proof.
  intros H. destruct (hexstring_digits s H) as [Hr Heq].
  unfold padHexString.
  destruct (Nat.Even_or_Odd (length s)) as [[h Hh]|[h Hh]]; rewrite Hh.
  - replace ((2 * h) mod 2)%nat with 0%nat
      by (symmetry; rewrite Nat.mul_comm; apply Nat.Div0.mod_mul).
    cbn [Nat.eqb negb]. rewrite div2_S_double, <- Hh. exact Heq.
  - replace ((2 * h + 1) mod 2)%nat with 1%nat
      by (rewrite Nat.add_comm, Nat.mul_comm, Nat.Div0.mod_add; reflexivity).
    cbn [Nat.eqb negb].
    replace (S (2 * h + 1)) with (2 * (S h))%nat by lia.
    rewrite Nat.div2_double.
    replace (2 * S h)%nat with (1 + length s)%nat by lia.
    rewrite <- hexdigits_pad by exact Hr.
    cbn [repeat app]. now rewrite <- Heq.
Qed.

(** X2: on a string of hexadecimal digits, [padHexString] returns a string
    of even length whose bytes, read by [Buffer.from(_, 'hex')], are as
    many as half the digits rounded up and carry the very number the
    string writes: no digit is dropped. *)
Theorem X2_padHexString_lossless (s : jsstring) :
  Forall is_hexchar s ->
  Nat.even (length (padHexString s)) = true
  /\ length (Buffer_from_hex (padHexString s)) = Nat.div2 (S (length s))
  /\ be_to_Z (Buffer_from_hex (padHexString s)) = BN_of_hex s.
Proof.
  intros H. destruct (hexstring_digits s H) as [Hr _].
  rewrite padHexString_digits by assumption.
  rewrite length_hexdigits, Buffer_from_hex_hexdigits, length_be_bytes, be_to_Z_be_bytes.
  rewrite BN_of_hex_parse by assumption.
  split; [|split; [reflexivity|]].
  - rewrite Nat.even_mul. reflexivity.
  - apply Z.mod_small. split; [lia|].
    eapply Z.lt_le_trans; [apply Hr|].
    replace 256 with (16 ^ 2) by reflexivity.
    rewrite <- Z.pow_mul_r by (try apply Nat2Z.is_nonneg; lia).
    apply Z.pow_le_mono_r; [lia|].
    destruct (Nat.Even_or_Odd (length s)) as [[h Hh]|[h Hh]]; rewrite Hh.
    + rewrite div2_S_double. lia.
    + replace (S (2 * h + 1)) with (2 * (S h))%nat by lia.
      rewrite Nat.div2_double. lia.
Qed.

Lemma X2_witness :
  Nat.even (length (padHexString (str "f3a"))) = true
  /\ length (Buffer_from_hex (padHexString (str "f3a"))) = Nat.div2 (S (length (str "f3a")))
  /\ be_to_Z (Buffer_from_hex (padHexString (str "f3a"))) = BN_of_hex (str "f3a").
Proof.
  apply (X2_padHexString_lossless (str "f3a")).
  repeat constructor.
  - exists 15. split; [lia | reflexivity].
  - exists 3. split; [lia | reflexivity].
  - exists 10. split; [lia | reflexivity].
Defined.

(** ** The bytes of the x-coordinate *)

(** X3: the bytes hashed for a non-negative x-coordinate decode back to it
    and are the shortest big-endian encoding: no non-empty buffer of the
    same value is shorter (zero takes one byte). *)
Theorem X3_RxBytes_shortest (x : Z) :
  0 <= x ->
  be_to_Z (RxBytes x) = x
  /\ forall b : Buffer,
       b <> [] -> be_to_Z b = x -> (length (RxBytes x) <= length b)%nat.
Proof.
  intros Hx. rewrite RxBytes_be_bytes, length_be_bytes, be_to_Z_be_bytes by assumption.
  pose proof (hexlen_upper x Hx) as Hu. pose proof (hexlen_pos x) as Hl.
  assert (Hle : (hexlen x <= 2 * RxLen x)%nat /\ (2 * RxLen x <= S (hexlen x))%nat).
  { unfold RxLen.
    destruct (Nat.Even_or_Odd (hexlen x)) as [[h Hh]|[h Hh]]; rewrite Hh.
    - rewrite div2_S_double. lia.
    - replace (S (2 * h + 1)) with (2 * (S h))%nat by lia.
      rewrite Nat.div2_double. lia. }
  split.
  - apply Z.mod_small. split; [assumption|].
    eapply Z.lt_le_trans; [exact Hu|].
    replace 256 with (16 ^ 2) by reflexivity.
    rewrite <- Z.pow_mul_r by (try apply Nat2Z.is_nonneg; lia).
    apply Z.pow_le_mono_r; lia.
  - intros b Hb Eb.
    assert (Hbl : (1 <= length b)%nat) by (destruct b; [contradiction | cbn; lia]).
    destruct (Z.eq_dec x 0) as [->|Hx0].
    + unfold RxLen. cbn. lia.
    + pose proof (hexlen_lower x ltac:(lia)) as Hlow.
      pose proof (be_to_Z_range b) as Hr. rewrite Eb in Hr.
      destruct (Nat.le_gt_cases (RxLen x) (length b)) as [|Hlt]; [assumption|exfalso].
      assert (H256 : 256 ^ Z.of_nat (length b) <= 16 ^ (Z.of_nat (hexlen x) - 1)).
      { replace 256 with (16 ^ 2) by reflexivity.
        rewrite <- Z.pow_mul_r by (try apply Nat2Z.is_nonneg; lia).
        apply Z.pow_le_mono_r; lia. }
      lia.
Qed.

Lemma X3_witness :
  be_to_Z (RxBytes 4095) = 4095
  /\ forall b : Buffer,
       b <> [] -> be_to_Z b = 4095 -> (length (RxBytes 4095) <= length b)%nat.
Proof. apply (X3_RxBytes_shortest 4095). lia. Defined.

(** ** [generateNumericMessage] on negative numbers *)

Lemma be_bytes_0 (k : nat) : be_bytes k 0 = repeat x00 k.
Proof.
  induction k as [|k IH]; [reflexivity|].
  rewrite be_bytes_S. change (0 / 256) with 0. rewrite IH.
  change (byte_of_Z (0 mod 256)) with x00.
  now rewrite <- repeat_cons.
Qed.

(** Decoding stops at the minus sign. *)
Lemma Buffer_from_hex_zeros_minus (j : nat) (t : jsstring) :
  Buffer_from_hex (repeat "0"%char j ++ "-"%char :: t) = repeat x00 (Nat.div2 j).
Proof.
  destruct (Nat.Even_or_Odd j) as [[h Hh]|[h Hh]]; rewrite Hh.
  - rewrite Nat.div2_double, <- hexdigits_0, Buffer_from_hex_hexdigits_app, be_bytes_0.
    destruct t; cbn; apply app_nil_r.
  - replace (2 * h + 1)%nat with (S (2 * h)) by lia.
    rewrite div2_S_double.
    replace (S (2 * h)) with (2 * h + 1)%nat by lia.
    rewrite repeat_app, <- app_assoc, <- hexdigits_0.
    rewrite Buffer_from_hex_hexdigits_app, be_bytes_0.
    cbn. apply app_nil_r.
Qed.

(** X4: a negative integer above [-16^64] is not rejected: the minus sign
    of its numeral stops the hexadecimal decoding, so the result holds zero
    bytes only, fewer than 32 of them, and the value is lost. *)
Theorem X4_generateNumericMessage_negative (value : Z) :
  - 16 ^ 64 < value < 0 ->
  generateNumericMessage value
  = Ok (repeat x00 (Nat.div2 (63 - hexlen (- value))))
  /\ (Nat.div2 (63 - hexlen (- value)) < 32)%nat.
Proof.
  intros Hv.
  assert (Hh : (hexlen (- value) <= 64)%nat).
  { apply hexlen_le; [|lia]. change (Z.of_nat 64) with 64. lia. }
  split.
  - unfold generateNumericMessage, toString16.
    replace (value <? 0) with true by (symmetry; apply Z.ltb_lt; lia).
    cbn [length]. rewrite length_hexdigits.
    unfold Array_join.
    replace (64 - Z.of_nat (S (hexlen (- value))) + 1 <? 0) with false
      by (symmetry; apply Z.ltb_ge; lia).
    cbn [bind].
    replace (Z.to_nat (64 - Z.of_nat (S (hexlen (- value))) + 1 - 1))
      with (63 - hexlen (- value))%nat by lia.
    now rewrite Buffer_from_hex_zeros_minus.
  - destruct (Nat.Even_or_Odd (63 - hexlen (- value))) as [[h E]|[h E]]; rewrite E.
    + rewrite Nat.div2_double. lia.
    + replace (2 * h + 1)%nat with (S (2 * h)) by lia. rewrite div2_S_double. lia.
Qed.

Lemma X4_witness :
  generateNumericMessage (-5) = Ok (repeat x00 (Nat.div2 (63 - hexlen (- -5))))
  /\ (Nat.div2 (63 - hexlen (- -5)) < 32)%nat.
Proof. apply (X4_generateNumericMessage_negative (-5)). split; reflexivity. Defined.

(** * Keys and signatures on secp256k1 *)

Lemma mod_mul_nz_order (u v : Z) :
  u mod curve_n secp256k1 <> 0 -> v mod curve_n secp256k1 <> 0 ->
  (u * v) mod curve_n secp256k1 <> 0.
Proof.
  intros Hu Hv H.
  apply Zmod.of_Z_nz in Hu. apply Zmod.of_Z_nz in Hv.
  assert (E : Zmod.of_Z (curve_n secp256k1) (u * v) = Zmod.zero).
  { rewrite <- Zmod.of_Z_mod, H. apply Zmod.of_Z_0. }
  rewrite Zmod.of_Z_mul in E.
  apply Zmod.mul_0_iff_prime in E; [tauto | exact secp256k1_prime_n].
Qed.

Lemma Ok_inj {T : Type} (u v : T) : Ok u = Ok v -> u = v.
Proof. intros H. now inversion H. Qed.

Lemma be_to_Z_be_bytes_32 (s : Z) : 0 <= s < 2 ^ 256 -> be_to_Z (be_bytes 32 s) = s.
Proof. intros H. rewrite be_to_Z_be_bytes. apply Z.mod_small. exact H. Qed.

(** ** [publicKeyFromPrivateKey] *)

(** X5: [publicKeyFromPrivateKey] raises a TypeError exactly on the keys
    that are multiples of the order [n] (the zero key among them); on
    every other key, whatever its size, it returns the parity byte 02 or 03
    followed by the 32-byte x-coordinate of [key G], a point of the curve. *)
Theorem X5_publicKeyFromPrivateKey_result (privateKey : Buffer) :
  let k := be_to_Z privateKey in
  (k mod curve_n secp256k1 = 0 ->
   publicKeyFromPrivateKey secp256k1 privateKey = Throw TypeError)
  /\ (k mod curve_n secp256k1 <> 0 ->
      exists x y,
        mul secp256k1 k (G secp256k1) = Aff x y
        /\ on_curve secp256k1 (Aff x y)
        /\ publicKeyFromPrivateKey secp256k1 privateKey
           = Ok (byte_of_Z (if Z.even y then 2 else 3) :: be_bytes 32 x)).
Proof.
  intros k. rewrite publicKeyFromPrivateKey_encode. fold k. split.
  - intros H. apply mulG_Inf_iff in H. now rewrite H.
  - intros H. destruct (mulG_affine k H) as (x & y & Ek & Hc).
    exists x, y. rewrite Ek.
    split; [reflexivity | split; [exact Hc | apply encodePoint_secp]].
Qed.

Lemma X5_witness :
  exists x y,
    mul secp256k1 (be_to_Z (be_bytes 32 2)) (G secp256k1) = Aff x y
    /\ on_curve secp256k1 (Aff x y)
    /\ publicKeyFromPrivateKey secp256k1 (be_bytes 32 2)
       = Ok (byte_of_Z (if Z.even y then 2 else 3) :: be_bytes 32 x).
Proof.
  apply (proj2 (X5_publicKeyFromPrivateKey_result (be_bytes 32 2))).
  vm_compute. discriminate.
Defined.

(** X6: a public key returned by [publicKeyFromPrivateKey] has 33 bytes,
    [keyFromPublic] decodes it back to the point [key G], and another
    private key yields the same public key exactly when the two keys are
    congruent modulo the order [n]. *)
Theorem X6_publicKeyFromPrivateKey_injective (key1 key2 pub : Buffer) :
  publicKeyFromPrivateKey secp256k1 key1 = Ok pub ->
  length pub = 33%nat
  /\ keyFromPublic secp256k1 pub
     = Ok (mul secp256k1 (be_to_Z key1) (G secp256k1))
  /\ (publicKeyFromPrivateKey secp256k1 key2 = Ok pub
      <-> be_to_Z key1 mod curve_n secp256k1 = be_to_Z key2 mod curve_n secp256k1).
Proof.
  intros H1. rewrite publicKeyFromPrivateKey_encode in H1.
  pose proof (decodePoint_encodePoint_secp _ _ (mulG_on_curve _) H1) as D1.
  split; [|split].
  - destruct (mul secp256k1 (be_to_Z key1) (G secp256k1)) as [|x y]; [discriminate|].
    rewrite encodePoint_secp in H1. apply Ok_inj in H1. subst pub.
    cbn [length]. now rewrite length_be_bytes.
  - exact D1.
  - rewrite publicKeyFromPrivateKey_encode. split.
    + intros H2.
      pose proof (decodePoint_encodePoint_secp _ _ (mulG_on_curve _) H2) as D2.
      apply mulG_eq_iff. rewrite D1 in D2. now apply Ok_inj in D2.
    + intros Em. now rewrite <- (mulG_eq_mod _ _ Em).
Qed.

Lemma X6_witness :
  length (x02 :: be_bytes 32 (curve_gx secp256k1)) = 33%nat
  /\ keyFromPublic secp256k1 (x02 :: be_bytes 32 (curve_gx secp256k1))
     = Ok (mul secp256k1 (be_to_Z (be_bytes 32 1)) (G secp256k1))
  /\ (publicKeyFromPrivateKey secp256k1 (be_bytes 32 (curve_n secp256k1 + 1))
      = Ok (x02 :: be_bytes 32 (curve_gx secp256k1))
      <-> be_to_Z (be_bytes 32 1) mod curve_n secp256k1
          = be_to_Z (be_bytes 32 (curve_n secp256k1 + 1)) mod curve_n secp256k1).
Proof.
  apply (X6_publicKeyFromPrivateKey_injective (be_bytes 32 1)).
  vm_compute. reflexivity.
Defined.

(** ** [computeSignature] *)

(** X7: [computeSignature] has two outcomes only: a TypeError when the
    one-time key is a multiple of the order [n], and otherwise 32 bytes
    encoding a scalar between 0 and [n] inclusive; the private key and the
    message never make it fail. *)
Theorem X7_computeSignature_outcome (privateKey oneTimeSigningKey message : Buffer) :
  let k := be_to_Z oneTimeSigningKey in
  (k mod curve_n secp256k1 = 0
   /\ computeSignature secp256k1 privateKey oneTimeSigningKey message = Throw TypeError)
  \/ (k mod curve_n secp256k1 <> 0
      /\ exists s, 0 <= s <= curve_n secp256k1
           /\ computeSignature secp256k1 privateKey oneTimeSigningKey message
              = Ok (be_bytes 32 s)).
Proof.
  intros k.
  destruct (mul secp256k1 k (G secp256k1)) as [|x y] eqn:Ek.
  - left. split; [now apply mulG_Inf_iff|].
    now apply computeSignature_Inf.
  - right. split.
    + intros H. apply mulG_Inf_iff in H. fold k in H. rewrite H in Ek. discriminate Ek.
    + eexists. split; [|apply (computeSignature_Aff secp256k1 secp256k1_n_range _ _ _ x y Ek)].
      apply euclideanMod_bound. reflexivity.
Qed.

(** X8: the scalar [s] that [computeSignature] returns satisfies the
    verification equation of the scheme, [s G + e (a G) = k G], for every
    private key [a] and message, [e] being the challenge hashed from the
    message and the x-coordinate of [k G]. *)
Theorem X8_signature_equation
  (privateKey oneTimeSigningKey message : Buffer) (x y : Z) :
  let a := be_to_Z privateKey in
  let k := be_to_Z oneTimeSigningKey in
  let e := challenge x message in
  mul secp256k1 k (G secp256k1) = Aff x y ->
  exists s,
    computeSignature secp256k1 privateKey oneTimeSigningKey message = Ok (be_bytes 32 s)
    /\ 0 <= s <= curve_n secp256k1
    /\ add secp256k1 (mul secp256k1 s (G secp256k1))
                     (mul secp256k1 e (mul secp256k1 a (G secp256k1)))
       = Aff x y.
Proof.
  intros a k e Hk.
  exists (euclideanMod (k - e * a) (curve_n secp256k1)).
  split; [apply (computeSignature_Aff secp256k1 secp256k1_n_range _ _ _ x y Hk)|].
  split; [apply euclideanMod_bound; reflexivity|].
  rewrite (mulG_eq_mod _ (k - e * a)) by (apply euclideanMod_congr; reflexivity).
  rewrite <- mulG_mul, <- mulG_add.
  replace (k - e * a + e * a) with k by lia. exact Hk.
Qed.

Lemma X8_witness :
  exists s,
    computeSignature secp256k1 (be_bytes 32 7) (be_bytes 32 1) zero32 = Ok (be_bytes 32 s)
    /\ 0 <= s <= curve_n secp256k1
    /\ add secp256k1 (mul secp256k1 s (G secp256k1))
         (mul secp256k1 (challenge (curve_gx secp256k1) zero32)
            (mul secp256k1 (be_to_Z (be_bytes 32 7)) (G secp256k1)))
       = Aff (curve_gx secp256k1) (curve_gy secp256k1).
Proof.
  apply (X8_signature_equation (be_bytes 32 7) (be_bytes 32 1) zero32).
  reflexivity.
Defined.

(** ** [computeSignaturePubKey] *)

(** X9: with public keys derived from a private key [a] and a one-time key
    [k], [a] not a multiple of [n], a challenge [e] that is not a multiple
    of [n] and [k - e a] not a multiple of [n], [computeSignaturePubKey]
    returns exactly the public key of the signature scalar [s] that
    [computeSignature] returns: the compressed encoding of [s G]. *)
Theorem X9_signature_pubkey_identity
  (privateKey oneTimeSigningKey message : Buffer) (x y : Z) :
  let a := be_to_Z privateKey in
  let k := be_to_Z oneTimeSigningKey in
  let e := challenge x message in
  mul secp256k1 k (G secp256k1) = Aff x y ->
  a mod curve_n secp256k1 <> 0 ->
  e mod curve_n secp256k1 <> 0 ->
  (k - e * a) mod curve_n secp256k1 <> 0 ->
  exists A R s,
    publicKeyFromPrivateKey secp256k1 privateKey = Ok A
    /\ publicKeyFromPrivateKey secp256k1 oneTimeSigningKey = Ok R
    /\ computeSignature secp256k1 privateKey oneTimeSigningKey message
       = Ok (be_bytes 32 s)
    /\ 0 < s < curve_n secp256k1
    /\ computeSignaturePubKey secp256k1 A R message
       = publicKeyFromPrivateKey secp256k1 (be_bytes 32 s)
    /\ exists sx sy,
         mul secp256k1 s (G secp256k1) = Aff sx sy
         /\ computeSignaturePubKey secp256k1 A R message
            = Ok (byte_of_Z (if Z.even sy then 2 else 3) :: be_bytes 32 sx).
Proof.
  intros a k e Hk Ha He Hs.
  pose proof secp256k1_n_range as Hn.
  destruct (mulG_affine a Ha) as (ax & ay & Ea & _).
  set (s := (k - e * a) mod curve_n secp256k1).
  assert (Hsr : 0 < s < curve_n secp256k1).
  { pose proof (Z.mod_pos_bound (k - e * a) (curve_n secp256k1) ltac:(lia)). unfold s. lia. }
  assert (Hsn : s mod curve_n secp256k1 <> 0) by (rewrite Z.mod_small; lia).
  destruct (mulG_affine s Hsn) as (sx & sy & Es & _).
  assert (HA : publicKeyFromPrivateKey secp256k1 privateKey
               = Ok (byte_of_Z (if Z.even ay then 2 else 3) :: be_bytes 32 ax)).
  { rewrite publicKeyFromPrivateKey_encode. fold a. rewrite Ea. apply encodePoint_secp. }
  assert (HR : publicKeyFromPrivateKey secp256k1 oneTimeSigningKey
               = Ok (byte_of_Z (if Z.even y then 2 else 3) :: be_bytes 32 x)).
  { rewrite publicKeyFromPrivateKey_encode. fold k. rewrite Hk. apply encodePoint_secp. }
  assert (HP : computeSignaturePubKey secp256k1
                 (byte_of_Z (if Z.even ay then 2 else 3) :: be_bytes 32 ax)
                 (byte_of_Z (if Z.even y then 2 else 3) :: be_bytes 32 x) message
               = encodePoint secp256k1 (mul secp256k1 s (G secp256k1))).
  { rewrite (computeSignaturePubKey_scalars privateKey oneTimeSigningKey message _ _ x y
               Hk HA HR).
    fold a k e.
    destruct (Z.eqb_spec ((e * a) mod curve_n secp256k1) 0) as [E0|_].
    - elim (mod_mul_nz_order e a He Ha E0).
    - unfold s. now rewrite mulG_mod. }
  eexists _, _, s.
  split; [exact HA|]. split; [exact HR|].
  split.
  { rewrite (computeSignature_Aff secp256k1 secp256k1_n_range _ _ _ x y Hk).
    fold a k e. do 2 f_equal.
    apply euclideanMod_canonical; [lia|]. intros [_ H0]. contradiction. }
  split; [exact Hsr|].
  split.
  { rewrite HP, publicKeyFromPrivateKey_encode.
    now rewrite be_to_Z_be_bytes_32 by lia. }
  exists sx, sy. split; [exact Es|].
  rewrite HP, Es. apply encodePoint_secp.
Qed.

Lemma X9_witness :
  exists A R s,
    publicKeyFromPrivateKey secp256k1 (be_bytes 32 1) = Ok A
    /\ publicKeyFromPrivateKey secp256k1 (be_bytes 32 1) = Ok R
    /\ computeSignature secp256k1 (be_bytes 32 1) (be_bytes 32 1) zero32
       = Ok (be_bytes 32 s)
    /\ 0 < s < curve_n secp256k1
    /\ computeSignaturePubKey secp256k1 A R zero32
       = publicKeyFromPrivateKey secp256k1 (be_bytes 32 s)
    /\ exists sx sy,
         mul secp256k1 s (G secp256k1) = Aff sx sy
         /\ computeSignaturePubKey secp256k1 A R zero32
            = Ok (byte_of_Z (if Z.even sy then 2 else 3) :: be_bytes 32 sx).
Proof.
  apply (X9_signature_pubkey_identity (be_bytes 32 1) (be_bytes 32 1) zero32
           (curve_gx secp256k1) (curve_gy secp256k1)).
  - reflexivity.
  - vm_compute. discriminate.
  - vm_compute. discriminate.
  - vm_compute. discriminate.
Defined.

(** X10: with public keys derived from a private key [a], not a multiple
    of [n], and a one-time key [k], [computeSignaturePubKey] raises a
    TypeError when the challenge [e] or the scalar [k - e a] is a multiple
    of [n]: the point it would encode is the point at infinity. *)
Theorem X10_computeSignaturePubKey_degenerate
  (privateKey oneTimeSigningKey message : Buffer) (x y : Z) :
  let a := be_to_Z privateKey in
  let k := be_to_Z oneTimeSigningKey in
  let e := challenge x message in
  mul secp256k1 k (G secp256k1) = Aff x y ->
  a mod curve_n secp256k1 <> 0 ->
  e mod curve_n secp256k1 = 0 \/ (k - e * a) mod curve_n secp256k1 = 0 ->
  exists A R,
    publicKeyFromPrivateKey secp256k1 privateKey = Ok A
    /\ publicKeyFromPrivateKey secp256k1 oneTimeSigningKey = Ok R
    /\ computeSignaturePubKey secp256k1 A R message = Throw TypeError.
Proof.
  intros a k e Hk Ha Hd.
  pose proof secp256k1_n_range as Hn.
  destruct (mulG_affine a Ha) as (ax & ay & Ea & _).
  assert (HA : publicKeyFromPrivateKey secp256k1 privateKey
               = Ok (byte_of_Z (if Z.even ay then 2 else 3) :: be_bytes 32 ax)).
  { rewrite publicKeyFromPrivateKey_encode. fold a. rewrite Ea. apply encodePoint_secp. }
  assert (HR : publicKeyFromPrivateKey secp256k1 oneTimeSigningKey
               = Ok (byte_of_Z (if Z.even y then 2 else 3) :: be_bytes 32 x)).
  { rewrite publicKeyFromPrivateKey_encode. fold k. rewrite Hk. apply encodePoint_secp. }
  eexists _, _. split; [exact HA|]. split; [exact HR|].
  rewrite (computeSignaturePubKey_scalars privateKey oneTimeSigningKey message _ _ x y
             Hk HA HR).
  fold a k e.
  destruct (Z.eqb_spec ((e * a) mod curve_n secp256k1) 0) as [E0|E0]; [reflexivity|].
  destruct Hd as [He|Hs].
  - elim E0. rewrite <- Z.mul_mod_idemp_l, He by lia. reflexivity.
  - apply mulG_Inf_iff in Hs. now rewrite Hs.
Qed.

Lemma X10_witness :
  exists A R,
    publicKeyFromPrivateKey secp256k1 a_degenerate = Ok A
    /\ publicKeyFromPrivateKey secp256k1 (be_bytes 32 1) = Ok R
    /\ computeSignaturePubKey secp256k1 A R zero32 = Throw TypeError.
Proof.
  apply (X10_computeSignaturePubKey_degenerate a_degenerate (be_bytes 32 1) zero32
           (curve_gx secp256k1) (curve_gy secp256k1)).
  - reflexivity.
  - vm_compute. discriminate.
  - right. vm_compute. reflexivity.
Defined.

(** X11: for a nonce point [R = k G] whose x-coordinate is below 2^248,
    [computeSignature] (from [k]) and [computeSignaturePubKey] (from any
    33-byte key that decodes to [R], with any 33-byte key of the oracle
    that decodes) both derive the challenge from the same hash input, the
    message followed by the shortest big-endian encoding of the
    x-coordinate, which has fewer than 32 bytes. *)
Theorem X11_challenge_agreement
  (privateKey oneTimeSigningKey oracleA oracleR message : Buffer)
  (A : point) (x y : Z) :
  length oracleA = 33%nat ->
  length oracleR = 33%nat ->
  mul secp256k1 (be_to_Z oneTimeSigningKey) (G secp256k1) = Aff x y ->
  keyFromPublic secp256k1 oracleR = Ok (Aff x y) ->
  keyFromPublic secp256k1 oracleA = Ok A ->
  x < 2 ^ 248 ->
  let rx := be_bytes (RxLen x) x in
  let e := be_to_Z (sha256 (message ++ rx)) in
  (length rx < 32)%nat
  /\ computeSignature secp256k1 privateKey oneTimeSigningKey message
     = Ok (be_bytes 32
             (euclideanMod (be_to_Z oneTimeSigningKey - e * be_to_Z privateKey)
                (curve_n secp256k1)))
  /\ computeSignaturePubKey secp256k1 oracleA oracleR message
     = match mul secp256k1 e A with
       | Inf => Throw TypeError
       | Aff px py =>
           encodePoint secp256k1
             (add secp256k1 (Aff px (redNeg secp256k1 py)) (Aff x y))
       end.
Proof.
  intros _ _ Hk HR HA Hx rx e.
  pose proof (mul_G_coords _ _ _ Hk) as Hx0.
  assert (He : challenge x message = e).
  { unfold challenge, e, rx. now rewrite RxBytes_be_bytes by lia. }
  split; [|split].
  - unfold rx. rewrite length_be_bytes. apply RxLen_short. lia.
  - rewrite (computeSignature_Aff secp256k1 secp256k1_n_range _ _ _ x y Hk).
    now rewrite He.
  - rewrite (computeSignaturePubKey_closed secp256k1 secp256k1_p_pos _ _ _ A x y HA HR).
    now rewrite He.
Qed.

(** ** Validity of the key returned by [computeSignaturePubKey] *)

(** X12: whenever [computeSignaturePubKey] returns on two 33-byte keys, the
    result is again a 33-byte key that [keyFromPublic] decodes to a point
    of the curve other than the point at infinity. *)
Theorem X12_computeSignaturePubKey_output_valid
  (oracleA oracleR message out : Buffer) :
  length oracleA = 33%nat -> length oracleR = 33%nat ->
  computeSignaturePubKey secp256k1 oracleA oracleR message = Ok out ->
  length out = 33%nat
  /\ exists P, keyFromPublic secp256k1 out = Ok P
               /\ P <> Inf /\ on_curve secp256k1 P.
Proof.
  intros HlA HlR Hout.
  destruct (keyFromPublic secp256k1 oracleA) as [A|e1] eqn:EA;
    [|unfold computeSignaturePubKey in Hout; rewrite EA in Hout; discriminate Hout].
  destruct (keyFromPublic secp256k1 oracleR) as [R|e2] eqn:ER;
    [|unfold computeSignaturePubKey in Hout; rewrite EA, ER in Hout; discriminate Hout].
  assert (Hb : (0 < BN.byteLength (curve_p secp256k1))%nat)
    by (rewrite secp256k1_byteLength; lia).
  destruct (decodePoint_compressed secp256k1 secp256k1_p_pos oracleA A HlA Hb EA)
    as [_ HAc].
  destruct (decodePoint_compressed secp256k1 secp256k1_p_pos oracleR R HlR Hb ER)
    as [HRn HRc].
  destruct R as [|x y]; [now elim HRn|].
  rewrite (computeSignaturePubKey_closed secp256k1 secp256k1_p_pos _ _ _ A x y EA ER)
    in Hout.
  pose proof (mul_on_curve secp256k1 secp256k1_prime_p secp256k1_big secp256k1_a
                secp256k1_b (challenge x message) A HAc) as HPc.
  destruct (mul secp256k1 (challenge x message) A) as [|px py]; [discriminate Hout|].
  apply (neg_on_curve secp256k1 secp256k1_prime_p secp256k1_big secp256k1_a secp256k1_b)
    in HPc.
  cbn [neg] in HPc.
  pose proof (add_on_curve secp256k1 secp256k1_prime_p secp256k1_big secp256k1_a
                secp256k1_b _ _ HPc HRc) as HQc.
  pose proof (decodePoint_encodePoint_secp _ _ HQc Hout) as HD.
  destruct (add secp256k1 (Aff px (redNeg secp256k1 py)) (Aff x y)) as [|qx qy];
    [discriminate Hout|].
  rewrite encodePoint_secp in Hout. apply Ok_inj in Hout. subst out.
  split; [cbn [length]; now rewrite length_be_bytes|].
  exists (Aff qx qy). split; [exact HD|]. split; [discriminate | exact HQc].
Qed.


Lemma X11_witness :
  let rx := be_bytes (RxLen nonce153_x) nonce153_x in
  let e := be_to_Z (sha256 (zero32 ++ rx)) in
  (length rx < 32)%nat
  /\ computeSignature secp256k1 (be_bytes 32 7) k153 zero32
     = Ok (be_bytes 32
             (euclideanMod (be_to_Z k153 - e * be_to_Z (be_bytes 32 7))
                (curve_n secp256k1)))
  /\ computeSignaturePubKey secp256k1 G_compressed (x02 :: be_bytes 32 nonce153_x) zero32
     = match mul secp256k1 e (G secp256k1) return result Buffer with
       | Inf => Throw TypeError
       | Aff px py =>
           encodePoint secp256k1
             (add secp256k1 (Aff px (redNeg secp256k1 py))
                (Aff nonce153_x nonce153_y))
       end.
Proof.
  apply (X11_challenge_agreement (be_bytes 32 7) k153 G_compressed
           (x02 :: be_bytes 32 nonce153_x) zero32 (G secp256k1)
           nonce153_x nonce153_y).
  - reflexivity.
  - reflexivity.
  - vm_compute; reflexivity.
  - apply decodePoint_encodePoint_secp; [|apply encodePoint_secp].
    repeat split; try reflexivity; intros H; discriminate H.
  - apply decodePoint_encodePoint_secp; [exact G_on_curve | apply encodePoint_secp].
  - reflexivity.
Defined.

Lemma X12_witness :
  length (x03 :: be_bytes 32 sG_example_x) = 33%nat
  /\ exists P, keyFromPublic secp256k1 (x03 :: be_bytes 32 sG_example_x) = Ok P
               /\ P <> Inf /\ on_curve secp256k1 P.
Proof.
  apply (X12_computeSignaturePubKey_output_valid G_compressed G_compressed zero32).
  - reflexivity.
  - reflexivity.
  - rewrite (computeSignaturePubKey_scalars (be_bytes 32 1) (be_bytes 32 1) zero32
               G_compressed G_compressed (curve_gx secp256k1) (curve_gy secp256k1));
      [| reflexivity | vm_compute; reflexivity | vm_compute; reflexivity].
    assert (Hd : be_to_Z (be_bytes 32 1)
                 - challenge (curve_gx secp256k1) zero32 * be_to_Z (be_bytes 32 1)
                 = Z.neg 80010462609639189250558308924078375352403476795038804126507309945762289738517)
      by (vm_compute; reflexivity).
    rewrite Hd.
    replace (challenge (curve_gx secp256k1) zero32 * be_to_Z (be_bytes 32 1))
      with 80010462609639189250558308924078375352403476795038804126507309945762289738518
      by (vm_compute; reflexivity).
    replace (80010462609639189250558308924078375352403476795038804126507309945762289738518
               mod curve_n secp256k1 =? 0)
      with false by (vm_compute; reflexivity).
    rewrite G_coords.
    change (mul secp256k1 (Z.neg ?q) ?P) with (neg secp256k1 (mul_pos secp256k1 q P)).
    assert (Hm : mul_pos secp256k1
                   80010462609639189250558308924078375352403476795038804126507309945762289738517
                   (Aff (curve_gx secp256k1) (curve_gy secp256k1))
                 = Fast.mul_pos_fast secp256k1
                     80010462609639189250558308924078375352403476795038804126507309945762289738517
                     (curve_gx secp256k1) (curve_gy secp256k1))
      by (apply mul_pos_fast_correct; [exact secp256k1_prime_p | reflexivity]).
    rewrite Hm.
    vm_compute; reflexivity.
Defined.

(** ** Keys of the wrong format *)

Lemma decodePoint_bad_format (key : Buffer) :
  (length key <> 33%nat /\ length key <> 65%nat)
  \/ (length key = 33%nat /\ hd x00 key <> x02 /\ hd x00 key <> x03) ->
  decodePoint secp256k1 key = Throw Error_unknown_point_format.
Proof.
  intros H. unfold decodePoint. rewrite secp256k1_byteLength.
  destruct key as [|b0 rest]; [reflexivity|].
  cbn [length hd] in H.
  destruct H as [[H33 H65]|(H33 & H2 & H3)].
  - replace (length rest =? 2 * 32)%nat with false
      by (symmetry; apply Nat.eqb_neq; lia).
    replace (length rest =? 32)%nat with false
      by (symmetry; apply Nat.eqb_neq; lia).
    now rewrite !andb_false_r.
  - replace (length rest =? 2 * 32)%nat with false
      by (symmetry; apply Nat.eqb_neq; lia).
    rewrite andb_false_r.
    replace (byte_to_Z b0 =? 2) with false.
    2:{ symmetry. apply Z.eqb_neq. intros E. apply H2.
        apply byte_to_Z_inj. rewrite E. reflexivity. }
    replace (byte_to_Z b0 =? 3) with false.
    2:{ symmetry. apply Z.eqb_neq. intros E. apply H3.
        apply byte_to_Z_inj. rewrite E. reflexivity. }
    reflexivity.
Qed.

(** X13: a key that has neither 33 nor 65 bytes, or has 33 bytes and a
    first byte other than 02 and 03, makes [computeSignaturePubKey] raise
    'Unknown point format': for the oracle's key whatever the other
    arguments are, for the nonce key once a 33-byte key of the oracle has
    decoded. *)
Theorem X13_computeSignaturePubKey_bad_format
  (oracleA oracleR message : Buffer) :
  let bad (key : Buffer) :=
    (length key <> 33%nat /\ length key <> 65%nat)
    \/ (length key = 33%nat /\ hd x00 key <> x02 /\ hd x00 key <> x03) in
  (bad oracleA ->
   computeSignaturePubKey secp256k1 oracleA oracleR message
   = Throw Error_unknown_point_format)
  /\ (forall A, length oracleA = 33%nat ->
      keyFromPublic secp256k1 oracleA = Ok A -> bad oracleR ->
      computeSignaturePubKey secp256k1 oracleA oracleR message
      = Throw Error_unknown_point_format).
Proof.
  intros bad. split.
  - intros H. unfold computeSignaturePubKey, keyFromPublic.
    now rewrite (decodePoint_bad_format oracleA H).
  - intros A _ HA H. unfold computeSignaturePubKey. rewrite HA. cbn [bind].
    unfold keyFromPublic. now rewrite (decodePoint_bad_format oracleR H).
Qed.

Lemma X13_witness :
  computeSignaturePubKey secp256k1 (be_bytes 32 1) G_compressed zero32
  = Throw Error_unknown_point_format
  /\ computeSignaturePubKey secp256k1 G_compressed (be_bytes 32 1) zero32
     = Throw Error_unknown_point_format.
Proof.
  split.
  - apply (proj1 (X13_computeSignaturePubKey_bad_format
                    (be_bytes 32 1) G_compressed zero32)).
    left. split; intros H; discriminate H.
  - apply (proj2 (X13_computeSignaturePubKey_bad_format
                    G_compressed (be_bytes 32 1) zero32) (G secp256k1)).
    + reflexivity.
    + vm_compute. reflexivity.
    + left. split; intros H; discriminate H.
Defined.

(** ** Two signatures under one one-time key *)

(** X14: two signatures made with the same private key [a] and the same
    one-time key on messages whose challenges [e1], [e2] differ modulo [n]
    give the private key away: [(s2 - s1) (e1 - e2)^-1 = a] modulo [n]. *)
Theorem X14_nonce_reuse_reveals_key
  (privateKey oneTimeSigningKey message1 message2 : Buffer) (x y : Z) :
  let a := be_to_Z privateKey in
  let k := be_to_Z oneTimeSigningKey in
  let e1 := challenge x message1 in
  let e2 := challenge x message2 in
  mul secp256k1 k (G secp256k1) = Aff x y ->
  (e1 - e2) mod curve_n secp256k1 <> 0 ->
  exists s1 s2,
    computeSignature secp256k1 privateKey oneTimeSigningKey message1
    = Ok (be_bytes 32 s1)
    /\ computeSignature secp256k1 privateKey oneTimeSigningKey message2
       = Ok (be_bytes 32 s2)
    /\ 0 <= s1 <= curve_n secp256k1
    /\ 0 <= s2 <= curve_n secp256k1
    /\ ((s2 - s1) * Z.invmod (e1 - e2) (curve_n secp256k1)) mod curve_n secp256k1
       = a mod curve_n secp256k1.
Proof.
  intros a k e1 e2 Hk Hd.
  pose proof secp256k1_n_range as Hn.
  set (n := curve_n secp256k1) in *.
  exists (euclideanMod (k - e1 * a) n), (euclideanMod (k - e2 * a) n).
  split; [apply (computeSignature_Aff secp256k1 secp256k1_n_range _ _ _ x y Hk)|].
  split; [apply (computeSignature_Aff secp256k1 secp256k1_n_range _ _ _ x y Hk)|].
  split; [apply euclideanMod_bound; lia|].
  split; [apply euclideanMod_bound; lia|].
  assert (Hs : (euclideanMod (k - e2 * a) n - euclideanMod (k - e1 * a) n) mod n
               = ((e1 - e2) * a) mod n).
  { rewrite Zminus_mod, !euclideanMod_congr by lia.
    rewrite <- Zminus_mod. f_equal. lia. }
  rewrite <- Z.mul_mod_idemp_l, Hs, Z.mul_mod_idemp_l by lia.
  replace ((e1 - e2) * a * Z.invmod (e1 - e2) n)
    with (a * (Z.invmod (e1 - e2) n * (e1 - e2))) by lia.
  rewrite <- Z.mul_mod_idemp_r by lia.
  rewrite (Z.invmod_prime (e1 - e2) n secp256k1_prime_n Hd).
  now rewrite Z.mul_1_r.
Qed.

Lemma X14_witness :
  exists s1 s2,
    computeSignature secp256k1 (be_bytes 32 7) (be_bytes 32 1) zero32
    = Ok (be_bytes 32 s1)
    /\ computeSignature secp256k1 (be_bytes 32 7) (be_bytes 32 1) (be_bytes 32 1)
       = Ok (be_bytes 32 s2)
    /\ 0 <= s1 <= curve_n secp256k1
    /\ 0 <= s2 <= curve_n secp256k1
    /\ ((s2 - s1)
        * Z.invmod (challenge (curve_gx secp256k1) zero32
                    - challenge (curve_gx secp256k1) (be_bytes 32 1))
            (curve_n secp256k1)) mod curve_n secp256k1
       = be_to_Z (be_bytes 32 7) mod curve_n secp256k1.
Proof.
  apply (X14_nonce_reuse_reveals_key (be_bytes 32 7) (be_bytes 32 1) zero32 (be_bytes 32 1)
           (curve_gx secp256k1) (curve_gy secp256k1)).
  - reflexivity.
  - vm_compute. discriminate.
Defined.

(** ** One-time keys as [generateOneTimeSigningKey] makes them *)

Lemma order_multiple_32 (k : Z) :
  0 <= k < 2 ^ 256 ->
  (k mod curve_n secp256k1 = 0 <-> k = 0 \/ k = curve_n secp256k1).
Proof.
  intros Hk. pose proof secp256k1_n_range as Hn.
  assert (H2 : 2 ^ 256 < 2 * curve_n secp256k1) by reflexivity.
  split.
  - intros H. apply Z.mod_divide in H; [|lia]. destruct H as [c Hc].
    assert (Hc0 : 0 <= c).
    { apply (Z.mul_nonneg_cancel_r c (curve_n secp256k1)); lia. }
    assert (Hc2 : c < 2).
    { apply (Z.mul_lt_mono_pos_r (curve_n secp256k1)); lia. }
    assert (Hc01 : c = 0 \/ c = 1) by lia.
    destruct Hc01 as [-> | ->]; lia.
  - intros [-> | ->]; [reflexivity | apply Z.mod_same; lia].
Qed.

(** The two outcomes of [computeSignature] and of [publicKeyFromPrivateKey],
    by the residue of the key modulo [n]. *)
Lemma computeSignature_outcomes (privateKey key message : Buffer) :
  (be_to_Z key mod curve_n secp256k1 = 0
   /\ computeSignature secp256k1 privateKey key message = Throw TypeError)
  \/ (be_to_Z key mod curve_n secp256k1 <> 0
      /\ exists s, 0 <= s <= curve_n secp256k1
           /\ computeSignature secp256k1 privateKey key message = Ok (be_bytes 32 s)).
Proof.
  destruct (mul secp256k1 (be_to_Z key) (G secp256k1)) as [|x y] eqn:Ek.
  - left. split; [now apply mulG_Inf_iff|]. now apply computeSignature_Inf.
  - right. split.
    + intros H. apply mulG_Inf_iff in H. rewrite H in Ek. discriminate Ek.
    + eexists. split; [|apply (computeSignature_Aff secp256k1 secp256k1_n_range _ _ _ x y Ek)].
      apply euclideanMod_bound. reflexivity.
Qed.

Lemma publicKeyFromPrivateKey_outcomes (key : Buffer) :
  (be_to_Z key mod curve_n secp256k1 = 0 ->
   publicKeyFromPrivateKey secp256k1 key = Throw TypeError)
  /\ (be_to_Z key mod curve_n secp256k1 <> 0 ->
      exists R, publicKeyFromPrivateKey secp256k1 key = Ok R /\ length R = 33%nat).
Proof.
  rewrite publicKeyFromPrivateKey_encode. split.
  - intros H. apply mulG_Inf_iff in H. now rewrite H.
  - intros H. destruct (mulG_affine _ H) as (x & y & Ek & _).
    rewrite Ek, encodePoint_secp. eexists. split; [reflexivity|].
    cbn [length]. now rewrite length_be_bytes.
Qed.

Section OneTimeKey.

Variable randombytes_buf : nat -> Buffer.
Hypothesis randombytes_buf_length : forall size, length (randombytes_buf size) = size.

(** X15: [generateOneTimeSigningKey] returns the 32 random bytes unchecked.
    Exactly two of its possible results are unusable, the all-zero key and
    the 32 bytes of the order [n]: on them [computeSignature] and
    [publicKeyFromPrivateKey] raise a TypeError, on every other result
    both succeed. *)
Theorem X15_generateOneTimeSigningKey_usable (privateKey message : Buffer) :
  let key := generateOneTimeSigningKey randombytes_buf in
  length key = 32%nat
  /\ (key = zero32 \/ key = be_bytes 32 (curve_n secp256k1) ->
      computeSignature secp256k1 privateKey key message = Throw TypeError
      /\ publicKeyFromPrivateKey secp256k1 key = Throw TypeError)
  /\ (key <> zero32 -> key <> be_bytes 32 (curve_n secp256k1) ->
      (exists s, computeSignature secp256k1 privateKey key message = Ok (be_bytes 32 s))
      /\ (exists R, publicKeyFromPrivateKey secp256k1 key = Ok R /\ length R = 33%nat)).
Proof using randombytes_buf_length.
  intros key.
  assert (Hl : length key = 32%nat) by apply randombytes_buf_length.
  pose proof (be_to_Z_range key) as Hr. rewrite Hl in Hr.
  change (256 ^ Z.of_nat 32) with (2 ^ 256) in Hr.
  pose proof (be_bytes_be_to_Z key) as Hk. rewrite Hl in Hk.
  pose proof (order_multiple_32 _ Hr) as Hm.
  pose proof (computeSignature_outcomes privateKey key message) as [[H0 HS]|[H0 HS]];
    pose proof (publicKeyFromPrivateKey_outcomes key) as [HT HO].
  - split; [exact Hl|]. split.
    + intros _. split; [exact HS | exact (HT H0)].
    + intros Hz Hn. exfalso. apply Hm in H0. destruct H0 as [E|E].
      * apply Hz. rewrite <- Hk, E. reflexivity.
      * apply Hn. now rewrite <- Hk, E.
  - split; [exact Hl|]. split.
    + intros [E|E]; exfalso; apply H0, Hm.
      * left. rewrite E. reflexivity.
      * right. rewrite E. reflexivity.
    + intros _ _. split.
      * destruct HS as (s & _ & HS). now exists s.
      * destruct (HO H0) as (R & HR & HRl). now exists R.
Qed.

End OneTimeKey.

Lemma X15_witness :
  let key := generateOneTimeSigningKey (fun size => be_bytes size 1) in
  length key = 32%nat
  /\ (key = zero32 \/ key = be_bytes 32 (curve_n secp256k1) ->
      computeSignature secp256k1 (be_bytes 32 7) key zero32 = Throw TypeError
      /\ publicKeyFromPrivateKey secp256k1 key = Throw TypeError)
  /\ (key <> zero32 -> key <> be_bytes 32 (curve_n secp256k1) ->
      (exists s, computeSignature secp256k1 (be_bytes 32 7) key zero32 = Ok (be_bytes 32 s))
      /\ (exists R, publicKeyFromPrivateKey secp256k1 key = Ok R /\ length R = 33%nat)).
Proof.
  apply (X15_generateOneTimeSigningKey_usable (fun size => be_bytes size 1)).
  intros size. apply length_be_bytes.
Defined.

(** * Public keys of the compressed length *)

Lemma byte_is_02 (b : byte) : (byte_to_Z b =? 2) = true -> b = x02.
Proof.
  intros H. apply Z.eqb_eq in H. apply byte_to_Z_inj. rewrite H. reflexivity.
Qed.

Lemma byte_is_03 (b : byte) : (byte_to_Z b =? 3) = true -> b = x03.
Proof.
  intros H. apply Z.eqb_eq in H. apply byte_to_Z_inj. rewrite H. reflexivity.
Qed.

(** On 33 bytes [decodePoint] looks at the first byte and hands the other
    32 to [pointFromX]. *)
Lemma decodePoint_33 (b0 : byte) (rest : Buffer) :
  length rest = 32%nat ->
  decodePoint secp256k1 (b0 :: rest)
  = if (byte_to_Z b0 =? 2) || (byte_to_Z b0 =? 3)
    then pointFromX secp256k1 (be_to_Z rest) (byte_to_Z b0 =? 3)
    else Throw Error_unknown_point_format.
Proof.
  intros Hl. unfold decodePoint. rewrite secp256k1_byteLength, Hl.
  change (32 =? 2 * 32)%nat with false. change (32 =? 32)%nat with true.
  now rewrite andb_false_r, andb_true_r.
Qed.

Lemma secp256k1_byteLength_pos : (0 < BN.byteLength (curve_p secp256k1))%nat.
Proof. rewrite secp256k1_byteLength. lia. Qed.

Lemma keyFromPublic_accepted (key : Buffer) (P : point) :
  length key = 33%nat -> keyFromPublic secp256k1 key = Ok P ->
  accepted_key secp256k1 key /\ P <> Inf /\ on_curve secp256k1 P.
Proof.
  intros Hl HP.
  destruct (decodePoint_compressed secp256k1 secp256k1_p_pos key P Hl
              secp256k1_byteLength_pos HP) as [Hn Hc].
  split; [|split; assumption].
  destruct key as [|b0 rest]; [discriminate Hl|].
  cbn [length] in Hl. apply Nat.succ_inj in Hl.
  unfold keyFromPublic in HP. rewrite (decodePoint_33 b0 rest Hl) in HP.
  destruct ((byte_to_Z b0 =? 2) || (byte_to_Z b0 =? 3)) eqn:Eb; [|discriminate HP].
  apply orb_prop in Eb.
  destruct (pointFromX_abscissa secp256k1 _ _ _ HP) as [y Ey]. subst P.
  split; cbn [hd tl].
  - destruct Eb as [Eb|Eb]; [left; now apply byte_is_02 | right; now apply byte_is_03].
  - exists y. exact Hc.
Qed.

Lemma keyFromPublic_accepts (key : Buffer) :
  length key = 33%nat -> accepted_key secp256k1 key ->
  exists P, keyFromPublic secp256k1 key = Ok P.
Proof.
  intros Hl [Hb [y Hy]].
  destruct key as [|b0 rest]; [discriminate Hl|].
  cbn [length] in Hl. apply Nat.succ_inj in Hl. cbn [hd tl] in Hb, Hy.
  unfold keyFromPublic. rewrite (decodePoint_33 b0 rest Hl).
  assert (Eb : (byte_to_Z b0 =? 2) || (byte_to_Z b0 =? 3) = true)
    by (destruct Hb as [-> | ->]; reflexivity).
  rewrite Eb.
  destruct (pointFromX_accepts secp256k1 secp256k1_prime_p secp256k1_big secp256k1_a
              secp256k1_b secp256k1_p34 secp256k1_len
              (be_to_Z rest) y (byte_to_Z b0 =? 3) Hy) as [y' Hy'].
  eexists. exact Hy'.
Qed.

Lemma keyFromPublic_rejects (key : Buffer) :
  length key = 33%nat -> ~ accepted_key secp256k1 key ->
  exists e, keyFromPublic secp256k1 key = Throw e /\ InvalidPoint e.
Proof.
  intros Hl Hn.
  destruct (keyFromPublic secp256k1 key) as [P|e] eqn:EK.
  - elim Hn. exact (proj1 (keyFromPublic_accepted key P Hl EK)).
  - exists e. split; [reflexivity|].
    exact (decodePoint_error secp256k1 key e Hl secp256k1_byteLength_pos EK).
Qed.

(** The valid keys are the accepted keys whose number is below [p]. *)
Lemma valid_public_key_accepted (key : Buffer) :
  valid_public_key secp256k1 key ->
  length key = 33%nat /\ accepted_key secp256k1 key
  /\ be_to_Z (tl key) < curve_p secp256k1.
Proof.
  intros (x & y & Hc & He).
  rewrite encodePoint_secp in He. apply Ok_inj in He. subst key.
  assert (Hr := Hc). destruct Hr as [[Hx Hy] _].
  pose proof secp256k1_p_lt as Hp.
  unfold accepted_key. cbn [length hd tl].
  rewrite length_be_bytes, be_to_Z_be_bytes_32 by lia.
  split; [reflexivity|]. split; [|lia].
  split.
  - destruct (Z.even y); [left | right]; reflexivity.
  - exists y. rewrite Z.mod_small by lia. exact Hc.
Qed.

(** Once both keys have decoded, the only error left is the TypeError of
    a point at infinity. *)
Lemma computeSignaturePubKey_decoded_error
      (oracleA oracleR message : Buffer) (A R : point) (e : exn) :
  length oracleR = 33%nat ->
  keyFromPublic secp256k1 oracleA = Ok A ->
  keyFromPublic secp256k1 oracleR = Ok R ->
  computeSignaturePubKey secp256k1 oracleA oracleR message = Throw e ->
  e = TypeError.
Proof.
  intros Hl HA HR H.
  destruct (keyFromPublic_accepted oracleR R Hl HR) as (_ & Hn & _).
  destruct R as [|x y]; [now elim Hn|].
  rewrite (computeSignaturePubKey_closed secp256k1 secp256k1_p_pos _ _ _ A x y HA HR) in H.
  destruct (mul secp256k1 (challenge x message) A) as [|px py].
  - now inversion H.
  - destruct (add secp256k1 (Aff px (redNeg secp256k1 py)) (Aff x y)) as [|qx qy].
    + unfold encodePoint, encodeCompressed_hex in H. cbn [getX bind] in H.
      now inversion H.
    + rewrite encodePoint_secp in H. discriminate H.
Qed.

(** ** The hash input *)

Lemma computeSignature_hashInput_Aff (oneTimeSigningKey message : Buffer) (x y : Z) :
  mul secp256k1 (be_to_Z oneTimeSigningKey) (G secp256k1) = Aff x y ->
  computeSignature_hashInput secp256k1 oneTimeSigningKey message
  = Ok (message ++ RxBytes x).
Proof.
  intros H. unfold computeSignature_hashInput.
  rewrite BN_of_hex_Buffer, H. reflexivity.
Qed.

Lemma computeSignaturePubKey_hashInput_Aff
      (oracleA oracleR message : Buffer) (A : point) (x y : Z) :
  keyFromPublic secp256k1 oracleA = Ok A ->
  keyFromPublic secp256k1 oracleR = Ok (Aff x y) ->
  computeSignaturePubKey_hashInput secp256k1 oracleA oracleR message
  = Ok (message ++ RxBytes x).
Proof.
  intros HA HR. unfold computeSignaturePubKey_hashInput.
  rewrite HA, HR. reflexivity.
Qed.

(** ** Keys derived from private scalars *)

Lemma publicKeyFromPrivateKey_Aff (key : Buffer) (x y : Z) :
  mul secp256k1 (be_to_Z key) (G secp256k1) = Aff x y ->
  publicKeyFromPrivateKey secp256k1 key
  = Ok (byte_of_Z (if Z.even y then 2 else 3) :: be_bytes 32 x).
Proof.
  intros H. rewrite publicKeyFromPrivateKey_encode, H. apply encodePoint_secp.
Qed.

Lemma publicKeyFromPrivateKey_decodes (key pub : Buffer) :
  publicKeyFromPrivateKey secp256k1 key = Ok pub ->
  length pub = 33%nat
  /\ keyFromPublic secp256k1 pub = Ok (mul secp256k1 (be_to_Z key) (G secp256k1)).
Proof.
  intros H. rewrite publicKeyFromPrivateKey_encode in H.
  split.
  - destruct (mul secp256k1 (be_to_Z key) (G secp256k1)) as [|x y]; [discriminate H|].
    rewrite encodePoint_secp in H. apply Ok_inj in H. subst pub.
    cbn [length]. now rewrite length_be_bytes.
  - apply decodePoint_encodePoint_secp; [apply mulG_on_curve | exact H].
Qed.

(** What [computeSignaturePubKey] does on the public keys of a private key
    [a], not a multiple of [n], and of a one-time key [k]. *)
Lemma computeSignaturePubKey_derived
      (privateKey oneTimeSigningKey message : Buffer) (x y : Z) :
  mul secp256k1 (be_to_Z oneTimeSigningKey) (G secp256k1) = Aff x y ->
  be_to_Z privateKey mod curve_n secp256k1 <> 0 ->
  exists A R,
    publicKeyFromPrivateKey secp256k1 privateKey = Ok A
    /\ publicKeyFromPrivateKey secp256k1 oneTimeSigningKey = Ok R
    /\ computeSignaturePubKey secp256k1 A R message
       = if (challenge x message mod curve_n secp256k1 =? 0)
            || ((be_to_Z oneTimeSigningKey
                 - challenge x message * be_to_Z privateKey)
                  mod curve_n secp256k1 =? 0)
         then Throw TypeError
         else encodePoint secp256k1
                (mul secp256k1
                   ((be_to_Z oneTimeSigningKey
                     - challenge x message * be_to_Z privateKey)
                      mod curve_n secp256k1)
                   (G secp256k1)).
Proof.
  intros Hk Ha.
  pose proof secp256k1_n_range as Hn.
  destruct (mulG_affine _ Ha) as (ax & ay & Ea & _).
  pose proof (publicKeyFromPrivateKey_Aff privateKey ax ay Ea) as HA.
  pose proof (publicKeyFromPrivateKey_Aff oneTimeSigningKey x y Hk) as HR.
  eexists _, _. split; [exact HA|]. split; [exact HR|].
  rewrite (computeSignaturePubKey_scalars privateKey oneTimeSigningKey message _ _ x y
             Hk HA HR).
  set (e := challenge x message).
  set (a := be_to_Z privateKey) in *.
  set (k := be_to_Z oneTimeSigningKey) in *.
  destruct (Z.eqb_spec (e mod curve_n secp256k1) 0) as [He|He]; cbn [orb].
  - replace ((e * a) mod curve_n secp256k1 =? 0) with true; [reflexivity|].
    symmetry. apply Z.eqb_eq.
    rewrite <- Z.mul_mod_idemp_l, He by lia. reflexivity.
  - replace ((e * a) mod curve_n secp256k1 =? 0) with false.
    2:{ symmetry. apply Z.eqb_neq. now apply mod_mul_nz_order. }
    rewrite mulG_mod.
    destruct (Z.eqb_spec ((k - e * a) mod curve_n secp256k1) 0) as [Hd|Hd];
      [|reflexivity].
    apply mulG_Inf_iff in Hd. now rewrite Hd.
Qed.

(** * The claims on signatures and keys *)







(** C5 as stated fails: [noncanonical_key] has 33 bytes and is the
    encoding of no point, since the number after its first byte is
    [p + 1]; [computeSignaturePubKey] reduces that number to 1, decodes the
    key and returns a result. *)
Lemma C5_counterexample :
  length noncanonical_key = 33%nat
  /\ ~ valid_public_key secp256k1 noncanonical_key
  /\ computeSignaturePubKey secp256k1 noncanonical_key G_compressed zero32
     = Ok noncanonical_result.
Proof.
  split; [reflexivity|]. split.
  - intros Hv. apply valid_public_key_accepted in Hv.
    destruct Hv as (_ & _ & Hlt). vm_compute in Hlt. discriminate Hlt.
  - assert (HA : keyFromPublic secp256k1 noncanonical_key = Ok (Aff 1 noncanonical_y))
      by (vm_compute; reflexivity).
    assert (HR : keyFromPublic secp256k1 G_compressed
                 = Ok (Aff (curve_gx secp256k1) (curve_gy secp256k1)))
      by (vm_compute; reflexivity).
    pose proof (computeSignaturePubKey_closed secp256k1 secp256k1_p_pos
                  noncanonical_key G_compressed zero32 (Aff 1 noncanonical_y)
                  (curve_gx secp256k1) (curve_gy secp256k1) HA HR) as H.
    rewrite H. clear H.
    replace (challenge (curve_gx secp256k1) zero32)
      with 80010462609639189250558308924078375352403476795038804126507309945762289738518
      by (vm_compute; reflexivity).
    change (mul secp256k1 (Z.pos ?q) ?P) with (mul_pos secp256k1 q P).
    assert (Hm : mul_pos secp256k1
                   80010462609639189250558308924078375352403476795038804126507309945762289738518
                   (Aff 1 noncanonical_y)
                 = Fast.mul_pos_fast secp256k1
                     80010462609639189250558308924078375352403476795038804126507309945762289738518
                     1 noncanonical_y)
      by (apply mul_pos_fast_correct; [exact secp256k1_prime_p | reflexivity]).
    rewrite Hm.
    vm_compute; reflexivity.
Qed.

(** C5, amended: on two 33-byte keys [computeSignaturePubKey] fails with
    an invalid-point error exactly when one of them is not accepted, that
    is, has a first byte other than 02 and 03 or a number after it that,
    reduced modulo [p], is the x-coordinate of no point of the curve.
    Every valid key is accepted; the accepted keys that are not valid are
    those whose number is [p] or more. *)
Theorem C5_computeSignaturePubKey_invalid_point
  (oracleA oracleR message : Buffer) :
  length oracleA = 33%nat -> length oracleR = 33%nat ->
  ((exists e, computeSignaturePubKey secp256k1 oracleA oracleR message = Throw e
              /\ InvalidPoint e)
   <-> ~ (accepted_key secp256k1 oracleA /\ accepted_key secp256k1 oracleR))
  /\ (forall key, valid_public_key secp256k1 key ->
                  accepted_key secp256k1 key
                  /\ be_to_Z (tl key) < curve_p secp256k1).
Proof.
  intros HlA HlR. split.
  - split.
    + intros (e & He & Hinv) [HaA HaR].
      destruct (keyFromPublic_accepts oracleA HlA HaA) as [A HA].
      destruct (keyFromPublic_accepts oracleR HlR HaR) as [R HR].
      pose proof (computeSignaturePubKey_decoded_error _ _ _ A R e HlR HA HR He) as Ht.
      subst e. destruct Hinv as [H|H]; discriminate H.
    + intros Hn.
      destruct (keyFromPublic secp256k1 oracleA) as [A|e] eqn:EA.
      * destruct (keyFromPublic secp256k1 oracleR) as [R|e] eqn:ER.
        -- elim Hn. split.
           ++ exact (proj1 (keyFromPublic_accepted oracleA A HlA EA)).
           ++ exact (proj1 (keyFromPublic_accepted oracleR R HlR ER)).
        -- exists e. split.
           ++ unfold computeSignaturePubKey. rewrite EA, ER. reflexivity.
           ++ exact (decodePoint_error secp256k1 oracleR e HlR
                       secp256k1_byteLength_pos ER).
      * exists e. split.
        -- unfold computeSignaturePubKey. rewrite EA. reflexivity.
        -- exact (decodePoint_error secp256k1 oracleA e HlA
                    secp256k1_byteLength_pos EA).
  - intros key Hv. destruct (valid_public_key_accepted key Hv) as (_ & Ha & Hlt).
    now split.
Qed.

Lemma C5_witness :
  ((exists e, computeSignaturePubKey secp256k1 (x05 :: be_bytes 32 1) G_compressed zero32
              = Throw e
              /\ InvalidPoint e)
   <-> ~ (accepted_key secp256k1 (x05 :: be_bytes 32 1)
          /\ accepted_key secp256k1 G_compressed))
  /\ (forall key, valid_public_key secp256k1 key ->
                  accepted_key secp256k1 key
                  /\ be_to_Z (tl key) < curve_p secp256k1).
Proof.
  apply (C5_computeSignaturePubKey_invalid_point (x05 :: be_bytes 32 1)
           G_compressed zero32).
  - reflexivity.
  - reflexivity.
Defined.

(** C6 as stated fails: the 32-byte key [n + 1] is not rejected, it gives
    the public key of 1, the encoding of the generator. *)
Lemma C6_counterexample :
  length (be_bytes 32 (curve_n secp256k1 + 1)) = 32%nat
  /\ curve_n secp256k1 <= be_to_Z (be_bytes 32 (curve_n secp256k1 + 1))
  /\ publicKeyFromPrivateKey secp256k1 (be_bytes 32 (curve_n secp256k1 + 1))
     = Ok G_compressed.
Proof.
  split; [reflexivity|]. split.
  - vm_compute. intros H. discriminate H.
  - vm_compute. reflexivity.
Qed.

(** C6, amended: a 32-byte key [k] makes [publicKeyFromPrivateKey] fail, with
    a TypeError, exactly when [k] is 0 or [n].  Every other key, those
    above [n] included, gives the 33-byte compressed encoding of [k G],
    which is the public key of [k mod n]. *)
Theorem C6_publicKeyFromPrivateKey_32_bytes (privateKey : Buffer) :
  length privateKey = 32%nat ->
  let k := be_to_Z privateKey in
  (k = 0 \/ k = curve_n secp256k1 ->
   publicKeyFromPrivateKey secp256k1 privateKey = Throw TypeError)
  /\ (k <> 0 -> k <> curve_n secp256k1 ->
      exists x y,
        mul secp256k1 k (G secp256k1) = Aff x y
        /\ on_curve secp256k1 (Aff x y)
        /\ publicKeyFromPrivateKey secp256k1 privateKey
           = Ok (byte_of_Z (if Z.even y then 2 else 3) :: be_bytes 32 x)
        /\ length (byte_of_Z (if Z.even y then 2 else 3) :: be_bytes 32 x) = 33%nat
        /\ publicKeyFromPrivateKey secp256k1 privateKey
           = publicKeyFromPrivateKey secp256k1
               (be_bytes 32 (k mod curve_n secp256k1))).
Proof.
  intros Hl k.
  pose proof secp256k1_n_range as Hn.
  assert (Hk : 0 <= k < 2 ^ 256).
  { pose proof (be_to_Z_range privateKey) as H. rewrite Hl in H. exact H. }
  pose proof (order_multiple_32 k Hk) as Hiff.
  split.
  - intros H0. rewrite publicKeyFromPrivateKey_encode. fold k.
    apply Hiff in H0. apply mulG_Inf_iff in H0. now rewrite H0.
  - intros H0 H1.
    assert (Hkn : k mod curve_n secp256k1 <> 0).
    { intros H. apply Hiff in H. tauto. }
    destruct (mulG_affine k Hkn) as (x & y & Ek & Hc).
    exists x, y.
    split; [exact Ek|]. split; [exact Hc|].
    split; [now apply publicKeyFromPrivateKey_Aff|].
    split; [cbn [length]; now rewrite length_be_bytes|].
    rewrite !publicKeyFromPrivateKey_encode. fold k.
    pose proof (Z.mod_pos_bound k (curve_n secp256k1) ltac:(lia)) as Hm.
    rewrite be_to_Z_be_bytes_32 by lia.
    now rewrite mulG_mod.
Qed.

Lemma C6_witness :
  let k := be_to_Z (be_bytes 32 2) in
  (k = 0 \/ k = curve_n secp256k1 ->
   publicKeyFromPrivateKey secp256k1 (be_bytes 32 2) = Throw TypeError)
  /\ (k <> 0 -> k <> curve_n secp256k1 ->
      exists x y,
        mul secp256k1 k (G secp256k1) = Aff x y
        /\ on_curve secp256k1 (Aff x y)
        /\ publicKeyFromPrivateKey secp256k1 (be_bytes 32 2)
           = Ok (byte_of_Z (if Z.even y then 2 else 3) :: be_bytes 32 x)
        /\ length (byte_of_Z (if Z.even y then 2 else 3) :: be_bytes 32 x) = 33%nat
        /\ publicKeyFromPrivateKey secp256k1 (be_bytes 32 2)
           = publicKeyFromPrivateKey secp256k1
               (be_bytes 32 (k mod curve_n secp256k1))).
Proof.
  apply (C6_publicKeyFromPrivateKey_32_bytes (be_bytes 32 2)).
  reflexivity.
Defined.




(** C10: [computeSignature], from a one-time key [k] with [k G = (x, y)],
    and [computeSignaturePubKey], from the public key of [k] and any
    33-byte key of the oracle that decodes, pass SHA-256 the same buffer:
    the message followed by the bytes of the minimal even-length
    hexadecimal numeral of [x], which [padHexString] makes.  Both derive
    the challenge [e] from that one buffer.  When [x] is below 2^248 those
    bytes are fewer than 32, so the buffer is not the message followed by
    the 32-byte encoding of [x]. *)
Theorem C10_challenge_hash_input
  (privateKey oneTimeSigningKey oracleA oracleR message : Buffer)
  (A : point) (x y : Z) :
  mul secp256k1 (be_to_Z oneTimeSigningKey) (G secp256k1) = Aff x y ->
  publicKeyFromPrivateKey secp256k1 oneTimeSigningKey = Ok oracleR ->
  length oracleA = 33%nat ->
  keyFromPublic secp256k1 oracleA = Ok A ->
  let rx := Buffer_from_hex (padHexString (toString16 x)) in
  let e := be_to_Z (sha256 (message ++ rx)) in
  computeSignature_hashInput secp256k1 oneTimeSigningKey message = Ok (message ++ rx)
  /\ computeSignaturePubKey_hashInput secp256k1 oracleA oracleR message
     = Ok (message ++ rx)
  /\ computeSignature secp256k1 privateKey oneTimeSigningKey message
     = Ok (be_bytes 32
             (euclideanMod (be_to_Z oneTimeSigningKey - e * be_to_Z privateKey)
                (curve_n secp256k1)))
  /\ computeSignaturePubKey secp256k1 oracleA oracleR message
     = match mul secp256k1 e A with
       | Inf => Throw TypeError
       | Aff px py =>
           encodePoint secp256k1
             (add secp256k1 (Aff px (redNeg secp256k1 py)) (Aff x y))
       end
  /\ rx = be_bytes (RxLen x) x
  /\ (x < 2 ^ 248 ->
      (length rx < 32)%nat /\ message ++ rx <> message ++ be_bytes 32 x).
Proof.
  intros Hk HR HlA HA rx e.
  pose proof (mul_G_coords _ _ _ Hk) as Hx.
  destruct (publicKeyFromPrivateKey_decodes _ _ HR) as [HlR HD].
  rewrite Hk in HD.
  fold (RxBytes x) in rx.
  assert (Hrx : rx = be_bytes (RxLen x) x) by (apply RxBytes_be_bytes; lia).
  split; [exact (computeSignature_hashInput_Aff _ _ x y Hk)|].
  split; [exact (computeSignaturePubKey_hashInput_Aff _ _ _ A x y HA HD)|].
  split; [exact (computeSignature_Aff secp256k1 secp256k1_n_range _ _ _ x y Hk)|].
  split;
    [exact (computeSignaturePubKey_closed secp256k1 secp256k1_p_pos _ _ _ A x y HA HD)|].
  split; [exact Hrx|].
  intros Hlt.
  assert (Hlen : (length rx < 32)%nat).
  { rewrite Hrx, length_be_bytes. apply RxLen_short. lia. }
  split; [exact Hlen|].
  intros Heq. apply (f_equal (@length byte)) in Heq.
  rewrite !length_app, length_be_bytes in Heq. lia.
Qed.

Lemma C10_witness :
  let rx := Buffer_from_hex (padHexString (toString16 nonce153_x)) in
  let e := be_to_Z (sha256 (zero32 ++ rx)) in
  computeSignature_hashInput secp256k1 k153 zero32 = Ok (zero32 ++ rx)
  /\ computeSignaturePubKey_hashInput secp256k1 G_compressed
       (x02 :: be_bytes 32 nonce153_x) zero32
     = Ok (zero32 ++ rx)
  /\ computeSignature secp256k1 (be_bytes 32 7) k153 zero32
     = Ok (be_bytes 32
             (euclideanMod (be_to_Z k153 - e * be_to_Z (be_bytes 32 7))
                (curve_n secp256k1)))
  /\ computeSignaturePubKey secp256k1 G_compressed
       (x02 :: be_bytes 32 nonce153_x) zero32
     = match mul secp256k1 e (G secp256k1) return result Buffer with
       | Inf => Throw TypeError
       | Aff px py =>
           encodePoint secp256k1
             (add secp256k1 (Aff px (redNeg secp256k1 py))
                (Aff nonce153_x nonce153_y))
       end
  /\ rx = be_bytes (RxLen nonce153_x) nonce153_x
  /\ (nonce153_x < 2 ^ 248 ->
      (length rx < 32)%nat /\ zero32 ++ rx <> zero32 ++ be_bytes 32 nonce153_x).
Proof.
  apply (C10_challenge_hash_input (be_bytes 32 7) k153 G_compressed
           (x02 :: be_bytes 32 nonce153_x) zero32 (G secp256k1)
           nonce153_x nonce153_y).
  - vm_compute; reflexivity.
  - vm_compute; reflexivity.
  - reflexivity.
  - vm_compute; reflexivity.
Defined.
